(** * NeoMart backend: order assembly and order status transitions

    A shallow embedding of [OrderService] (createOrder, updateOrderStatus,
    cancelOrder, refundOrder), of the order routes that call it and of the
    authorisation middleware in front of them.

    Conventions of the embedding.
    - A JavaScript [number] holding money is an exact rational ([Qc]);
      counters and quantities are integers ([Z]); a [Date] is its
      millisecond value ([Z]).  Rounding of IEEE doubles is outside the model.
    - The relational store is a record of tables.  [prisma.x.findUnique]
      is a lookup, [create] appends a row, [update] rewrites rows.
    - An [async] method is a computation in the monad [M]: it threads the
      store and either returns a value or throws.  State written before a
      throw stays written, except inside [transaction].
    - What the method reads from outside the store (the clock, the random
      generator, the identifier the store gives a new row, and whether the
      store rejects a write) is the environment [Env], one [GroupEnv] per
      store group in processing order. *)

From Stdlib Require Import ZArith QArith Qcanon String Ascii List Lia.
From Stdlib Require Import DecimalString DecimalN Qround.
From stdpp Require Import base numbers gmap list strings.

Open Scope string_scope.
Open Scope list_scope.
Open Scope Z_scope.

(** ** Numbers *)

(** Integer literal as a rational. *)
Definition num (z : Z) : Qc := Qc_of_Z z.

(** [Math.max(a, b)] on rationals. *)
Definition Math_max (a b : Qc) : Qc := if decide (a ≤ b)%Qc then b else a.

(** Decimal rendering of a non-negative integer, as a template literal
    renders [Date.now()]. *)
Definition decimal (n : N) : string := NilEmpty.string_of_uint (N.to_uint n).

(** ** Data model *)

Inductive OrderStatus :=
  | PENDING | CONFIRMED | PROCESSING | SHIPPED | DELIVERED | CANCELLED | REFUNDED.

Inductive Role := USER | SELLER | ADMIN | FOUNDER.

Inductive DiscountType := PERCENTAGE | FIXED.

#[global] Instance OrderStatus_eq_dec : EqDecision OrderStatus.
Proof. solve_decision. Defined.

#[global] Instance Role_eq_dec : EqDecision Role.
Proof. solve_decision. Defined.

#[global] Instance DiscountType_eq_dec : EqDecision DiscountType.
Proof. solve_decision. Defined.

(** The name of a status, as a template literal prints it. *)
Definition statusName (s : OrderStatus) : string :=
  match s with
  | PENDING => "PENDING" | CONFIRMED => "CONFIRMED" | PROCESSING => "PROCESSING"
  | SHIPPED => "SHIPPED" | DELIVERED => "DELIVERED" | CANCELLED => "CANCELLED"
  | REFUNDED => "REFUNDED"
  end.

(** [CartItem] and [Cart] of the types module. *)
Record CartItem := mkCartItem {
  ci_productId : string;
  ci_quantity : Z;
  ci_price : Qc }.

Record Cart := mkCart {
  cart_items : list CartItem;
  cart_total : Qc }.

(** [{ ...item, storeId: product.storeId }]: a cart item tagged with the
    store that owns its product. *)
Record StoreItem := mkStoreItem {
  si_productId : string;
  si_quantity : Z;
  si_price : Qc;
  si_storeId : string }.

(** A user row: the role and the [cart] column ([None] is a null column,
    [Some c] the JSON text of [c]). *)
Record User := mkUser {
  user_role : Role;
  user_cart : option Cart }.

Record Store := mkStore { store_userId : string }.

Record Product := mkProduct {
  product_storeId : string;
  product_price : Qc;
  product_inStock : bool;
  product_name : string }.

Record Coupon := mkCoupon {
  coupon_discount : Qc;
  coupon_discountType : DiscountType;
  coupon_isActive : bool;
  coupon_expiresAt : Z;
  coupon_usageLimit : Z;
  coupon_usageCount : Z }.

Record Order := mkOrder {
  order_id : string;
  order_orderNumber : string;
  order_total : Qc;
  order_status : OrderStatus;
  order_userId : string;
  order_storeId : string;
  order_paymentMethod : string;
  order_isCouponUsed : bool;
  order_coupon : option string }.

Record OrderItem := mkOrderItem {
  oi_orderId : string;
  oi_productId : string;
  oi_quantity : Z;
  oi_price : Qc }.

(** The store.  [users], [stores] and [products] are keyed by [id];
    [coupons] is keyed by the unique [code], so the row that
    [findUnique({where: {code}})] returns and the row that
    [update({where: {id: coupon.id}})] rewrites are the same entry. *)
Record Db := mkDb {
  users : gmap string User;
  stores : gmap string Store;
  products : gmap string Product;
  coupons : gmap string Coupon;
  orders : list Order;
  orderItems : list OrderItem }.

(** [CreateOrderRequest]; the shipping address is never read by the service. *)
Record CreateOrderRequest := mkRequest {
  paymentMethod : string;
  couponCode : option string }.

(** ** Thrown values and the monad of service methods *)

(** What a method throws: an [AppError] built by [createError], or an error
    raised by the data store itself. *)
Inductive Thrown :=
  | AppError (message : string) (statusCode : Z)
  | PrismaError.

Definition createError (message : string) (statusCode : Z) : Thrown :=
  AppError message statusCode.

(** A computation on the store: the store it leaves, and what it throws or
    returns. *)
Definition M (A : Type) : Type := Db → Db * (Thrown + A).

(** [return a], [throw e] and sequencing with [await]: what was written
    before a throw stays written. *)
Definition ret {A} (a : A) : M A := λ db, (db, inr a).

Definition throw {A} (e : Thrown) : M A := λ db, (db, inl e).

Definition bind {A B} (m : M A) (k : A → M B) : M B :=
  λ db, match m db with
        | (db', inl e) => (db', inl e)
        | (db', inr a) => k a db'
        end.

Notation "x <- m ;; k" := (bind m (λ x, k))
  (at level 100, m at next level, right associativity).
Notation "m ;;; k" := (bind m (λ _, k))
  (at level 100, right associativity).

(** Reading the store, and writing to it. *)
Definition get : M Db := λ db, (db, inr db).

Definition modify (f : Db → Db) : M unit := λ db, (f db, inr tt).

(** [prisma.$transaction(body)]: the writes of [body] are kept when it
    returns and discarded when it throws. *)
Definition transaction {A} (body : M A) : M A :=
  λ db, match body db with
        | (_, inl e) => (db, inl e)
        | (db', inr a) => (db', inr a)
        end.

(** ** Environment *)

(** What one round of the loop over the store groups takes from outside
    the store. *)
Record GroupEnv := mkGroupEnv {
  g_date : Z;              (* [new Date()] at the coupon expiry test *)
  g_now : N;               (* [Date.now()] in the order number *)
  g_random : string;       (* [Math.random().toString(36).substr(2, 9)] *)
  g_orderId : string;      (* id the store gives the new order row *)
  g_fail : option nat }.   (* which write of the transaction the store
                              rejects: 0 the order, k+1 the k-th item *)

(** The environment of a call: round [i] of the loop reads [env i]. *)
Definition Env : Type := nat → GroupEnv.

(** ** [Map<string, CartItem[]>]: a JavaScript map keeps insertion order *)

(** The entries of the map, oldest key first. *)
Definition JsMap : Type := list (string * list StoreItem).

(** [m.has(k)]. *)
Fixpoint Map_has (m : JsMap) (k : string) : bool :=
  match m with
  | [] => false
  | (k', _) :: m' => if decide (k = k') then true else Map_has m' k
  end.

(** [m.set(k, v)]: replaces the value in place, or appends a new entry. *)
Fixpoint Map_set (m : JsMap) (k : string) (v : list StoreItem) : JsMap :=
  match m with
  | [] => [(k, v)]
  | (k', v') :: m' =>
      if decide (k = k') then (k', v) :: m' else (k', v') :: Map_set m' k v
  end.

(** [m.get(k)!.push(x)].  The caller sets the key first, so the empty case
    (a [TypeError] in JavaScript) is never reached. *)
Fixpoint Map_push (m : JsMap) (k : string) (x : StoreItem) : JsMap :=
  match m with
  | [] => []
  | (k', v) :: m' =>
      if decide (k = k') then (k', v ++ [x]) :: m' else (k', v) :: Map_push m' k x
  end.

(** ** createOrder *)

(** [{ items: [], total: 0 }]. *)
Definition emptyCart : Cart := mkCart [] (num 0).

(** [{ ...item, storeId }]. *)
Definition withStore (item : CartItem) (storeId : string) : StoreItem :=
  mkStoreItem (ci_productId item) (ci_quantity item) (ci_price item) storeId.

(** Lines 155-180: the loop over [cart.items] that validates every item
    against the catalog and files it under its product's store. *)
Fixpoint groupItems (items : list CartItem) (itemsByStore : JsMap) : M JsMap :=
  match items with
  | [] => ret itemsByStore
  | item :: rest =>
      db <- get;;
      match products db !! ci_productId item with
      | None =>
          throw (createError ("Product " +:+ ci_productId item +:+ " not found") 404)
      | Some product =>
          if negb (product_inStock product) then
            throw (createError
                     ("Product " +:+ product_name product +:+ " is out of stock") 400)
          else if negb (bool_decide (product_price product = ci_price item)) then
            throw (createError
                     ("Price changed for product " +:+ product_name product) 400)
          else
            let storeId := product_storeId product in
            let itemsByStore :=
              if negb (Map_has itemsByStore storeId)
              then Map_set itemsByStore storeId []
              else itemsByStore in
            groupItems rest (Map_push itemsByStore storeId (withStore item storeId))
      end
  end.

(** Line 186: [storeItems.reduce((sum, item) => sum + item.price * item.quantity, 0)]. *)
Definition storeTotal (storeItems : list StoreItem) : Qc :=
  fold_left (λ sum item, sum + si_price item * num (si_quantity item))%Qc
            storeItems (num 0).

(** Lines 203-207: the discounted total. *)
Definition discounted (coupon : Coupon) (total : Qc) : Qc :=
  match coupon_discountType coupon with
  | PERCENTAGE => (total * (1 - coupon_discount coupon / num 100))%Qc
  | FIXED => Math_max (num 0) (total - coupon_discount coupon)%Qc
  end.

(** [data: { usageCount: { increment: 1 } }]. *)
Definition incrementUsage (c : Coupon) : Coupon :=
  mkCoupon (coupon_discount c) (coupon_discountType c) (coupon_isActive c)
           (coupon_expiresAt c) (coupon_usageLimit c) (coupon_usageCount c + 1).

(** A write to the coupon table. *)
Definition setCoupons (f : gmap string Coupon → gmap string Coupon) (db : Db) : Db :=
  mkDb (users db) (stores db) (products db) (f (coupons db)) (orders db)
       (orderItems db).

(** A string is truthy when it is not empty. *)
Definition truthy (s : string) : bool := negb (bool_decide (s = "")).

(** Lines 189-217: the coupon block of one store group.  Returns
    [finalTotal] and [couponUsed]. *)
Definition applyCoupon (genv : GroupEnv) (data : CreateOrderRequest)
    (total : Qc) : M (Qc * bool) :=
  match couponCode data with
  | None => ret (total, false)
  | Some code =>
      if negb (truthy code) then ret (total, false) else
      db <- get;;
      match coupons db !! code with
      | None => ret (total, false)
      | Some coupon =>
          if coupon_isActive coupon
             && bool_decide (g_date genv < coupon_expiresAt coupon) then
            if bool_decide (0 < coupon_usageLimit coupon)
               && bool_decide (coupon_usageLimit coupon ≤ coupon_usageCount coupon)
            then throw (createError "Coupon usage limit exceeded" 400)
            else
              modify (setCoupons (alter incrementUsage code));;;
              ret (discounted coupon total, true)
          else ret (total, false)
      end
  end.

(** Line 220: the order number template. *)
Definition orderNumber (now : N) (random : string) : string :=
  "ORD-" +:+ decimal now +:+ "-" +:+ random.

(** [tx.order.create] and [tx.orderItem.create]: a new row at the end of
    its table. *)
Definition addOrder (o : Order) (db : Db) : Db :=
  mkDb (users db) (stores db) (products db) (coupons db) (orders db ++ [o])
       (orderItems db).

Definition addOrderItem (i : OrderItem) (db : Db) : Db :=
  mkDb (users db) (stores db) (products db) (coupons db) (orders db)
       (orderItems db ++ [i]).

(** A write inside the transaction: rejected by the store when the
    environment says so. *)
Definition write (fail : option nat) (k : nat) (f : Db → Db) : M unit :=
  if decide (fail = Some k) then throw PrismaError else modify f.

(** The item row of lines 240-245. *)
Definition toOrderItem (orderId : string) (item : StoreItem) : OrderItem :=
  mkOrderItem orderId (si_productId item) (si_quantity item) (si_price item).

(** Lines 238-253: one [tx.orderItem.create] per item of the group. *)
Fixpoint createItems (fail : option nat) (k : nat) (orderId : string)
    (storeItems : list StoreItem) : M unit :=
  match storeItems with
  | [] => ret tt
  | item :: rest =>
      write fail (S k) (addOrderItem (toOrderItem orderId item));;;
      createItems fail (S k) orderId rest
  end.

(** Modelled from the spec: the default of the [status] column.  The schema
    file is not among the sources; the data model of the specification
    gives the initial status as PENDING. *)
Definition defaultStatus : OrderStatus := PENDING.

(** The order row of lines 226-234.  [status] is not set by the code, so
    the column default applies. *)
Definition newOrder (genv : GroupEnv) (userId : string) (data : CreateOrderRequest)
    (storeId : string) (finalTotal : Qc) (couponUsed : bool) : Order :=
  mkOrder (g_orderId genv) (orderNumber (g_now genv) (g_random genv)) finalTotal
          defaultStatus userId storeId (paymentMethod data) couponUsed
          (if couponUsed then couponCode data else None).

(** Lines 185-259: the body of the loop over [itemsByStore] for one group. *)
Definition processGroup (genv : GroupEnv) (userId : string)
    (data : CreateOrderRequest) (storeId : string)
    (storeItems : list StoreItem) : M Order :=
  r <- applyCoupon genv data (storeTotal storeItems);;
  let order := newOrder genv userId data storeId (fst r) (snd r) in
  transaction (
    write (g_fail genv) 0 (addOrder order);;;
    createItems (g_fail genv) 0 (order_id order) storeItems;;;
    ret order).

(** Lines 183-259: the loop over [itemsByStore]; [acc] is [orders], [i]
    counts the rounds. *)
Fixpoint orderLoop (env : Env) (i : nat) (userId : string)
    (data : CreateOrderRequest) (itemsByStore : JsMap)
    (acc : list Order) : M (list Order) :=
  match itemsByStore with
  | [] => ret acc
  | (storeId, storeItems) :: rest =>
      order <- processGroup (env i) userId data storeId storeItems;;
      orderLoop env (S i) userId data rest (acc ++ [order])
  end.

(** Lines 262-265: the user's [cart] column is overwritten. *)
Definition setCart (userId : string) (c : Cart) (db : Db) : Db :=
  mkDb (alter (λ u, mkUser (user_role u) (Some c)) userId (users db))
       (stores db) (products db) (coupons db) (orders db) (orderItems db).

(** What [createOrder] returns: [orders[0]] or [orders]. *)
Inductive OrderResult :=
  | Single (o : Order)
  | Many (os : list Order).

(** Lines 134-275.  The [try]/[catch] around the body logs and rethrows,
    so it does not show in the model. *)
Definition createOrder (env : Env) (userId : string)
    (data : CreateOrderRequest) : M OrderResult :=
  db <- get;;
  match users db !! userId with
  | None => throw (createError "User not found" 404)
  | Some user =>
      let cart := match user_cart user with Some c => c | None => emptyCart end in
      match cart_items cart with
      | [] => throw (createError "Cart is empty" 400)
      | _ :: _ =>
          itemsByStore <- groupItems (cart_items cart) [];;
          created <- orderLoop env 0 userId data itemsByStore [];;
          modify (setCart userId emptyCart);;;
          ret (match created with
               | [o] => Single o
               | _ => Many created
               end)
      end
  end.

(** ** Order status operations *)

(** [prisma.order.findUnique({ where: { id } })]. *)
Fixpoint findOrder (orderId : string) (os : list Order) : option Order :=
  match os with
  | [] => None
  | o :: os' => if decide (order_id o = orderId) then Some o else findOrder orderId os'
  end.

(** [{ ...order, status }]. *)
Definition withStatus (o : Order) (status : OrderStatus) : Order :=
  mkOrder (order_id o) (order_orderNumber o) (order_total o) status
          (order_userId o) (order_storeId o) (order_paymentMethod o)
          (order_isCouponUsed o) (order_coupon o).

(** [prisma.order.update({ where: { id }, data: { status } })]: [id] is the
    primary key, so the row rewritten is the row [findOrder] returns. *)
Fixpoint updateOrder (orderId : string) (f : Order → Order)
    (os : list Order) : list Order :=
  match os with
  | [] => []
  | o :: os' =>
      if decide (order_id o = orderId) then f o :: os'
      else o :: updateOrder orderId f os'
  end.

(** The store after the status of order [orderId] is set. *)
Definition setStatus (orderId : string) (status : OrderStatus) (db : Db) : Db :=
  mkDb (users db) (stores db) (products db) (coupons db)
       (updateOrder orderId (λ o, withStatus o status) (orders db))
       (orderItems db).

(** Lines 491-499. *)
Definition validTransitions (s : OrderStatus) : list OrderStatus :=
  match s with
  | PENDING => [CONFIRMED; CANCELLED]
  | CONFIRMED => [PROCESSING; CANCELLED]
  | PROCESSING => [SHIPPED; CANCELLED]
  | SHIPPED => [DELIVERED]
  | DELIVERED => [REFUNDED]
  | CANCELLED => []
  | REFUNDED => []
  end.

(** [order.store]: the relation is required, so a missing store row is an
    error of the data store. *)
Definition storeOf (o : Order) : M Store :=
  db <- get;;
  match stores db !! order_storeId o with
  | Some s => ret s
  | None => throw PrismaError
  end.

(** Lines 470-532. *)
Definition updateOrderStatus (orderId : string) (status : OrderStatus)
    (userId : string) : M Order :=
  db <- get;;
  match findOrder orderId (orders db) with
  | None => throw (createError "Order not found" 404)
  | Some order =>
      store <- storeOf order;;
      if negb (bool_decide (store_userId store = userId)) then
        throw (createError "Access denied" 403)
      else if negb (bool_decide (status ∈ validTransitions (order_status order))) then
        throw (createError ("Cannot change status from "
                            +:+ statusName (order_status order)
                            +:+ " to " +:+ statusName status) 400)
      else
        modify (setStatus orderId status);;;
        ret (withStatus order status)
  end.

(** Lines 534-573. *)
Definition cancelOrder (orderId : string) (userId : string) : M Order :=
  db <- get;;
  match findOrder orderId (orders db) with
  | None => throw (createError "Order not found" 404)
  | Some order =>
      store <- storeOf order;;
      let canCancel := bool_decide (order_userId order = userId)
                       || bool_decide (store_userId store = userId) in
      if negb canCancel then
        throw (createError "Access denied" 403)
      else if negb (bool_decide
                      (order_status order ∈ [PENDING; CONFIRMED; PROCESSING])) then
        throw (createError "Order cannot be cancelled at this stage" 400)
      else
        modify (setStatus orderId CANCELLED);;;
        ret (withStatus order CANCELLED)
  end.

(** Lines 626-652. *)
Definition refundOrder (orderId : string) : M Order :=
  db <- get;;
  match findOrder orderId (orders db) with
  | None => throw (createError "Order not found" 404)
  | Some order =>
      if negb (bool_decide (order_status order = DELIVERED)) then
        throw (createError "Only delivered orders can be refunded" 400)
      else
        modify (setStatus orderId REFUNDED);;;
        ret (withStatus order REFUNDED)
  end.

(** ** Middleware *)

(** What a request ends in: a middleware answered with a status and a
    message, or the controller ran the service method. *)
Inductive Outcome (A : Type) :=
  | Answered (statusCode : Z) (message : string)
  | Served (r : Thrown + A).
Arguments Answered {A}.
Arguments Served {A}.

(** [authorize(...roles)]: [None] stands for [next()]. *)
Definition authorize (roles : list Role) (user : User) : option (Z * string) :=
  if bool_decide (user_role user ∈ roles) then None
  else Some (403, "Insufficient permissions").

(** [authorizeOrderAccess]. *)
Definition authorizeOrderAccess (callerId : string) (caller : User)
    (orderId : string) (db : Db) : option (Z * string) :=
  if bool_decide (user_role caller = ADMIN) || bool_decide (user_role caller = FOUNDER)
  then None
  else
    match findOrder orderId (orders db) with
    | None => Some (404, "Order not found")
    | Some order =>
        match stores db !! order_storeId order with
        | None => Some (500, "Authorization failed")
        | Some store =>
            let isBuyer := bool_decide (order_userId order = callerId) in
            let isSeller := bool_decide (store_userId store = callerId) in
            if negb isBuyer && negb isSeller
            then Some (403, "Access denied. You can only access your own orders")
            else None
        end
    end.

(** The controller runs the service method; what it throws goes to the
    error handler. *)
Definition serve {A} (m : M A) (db : Db) : Db * Outcome A :=
  let '(db', r) := m db in (db', Served r).

(** * Vocabulary of the properties *)

(** ** The transition table of the specification *)

(** The edges as the specification lists them. *)
Inductive Edge : OrderStatus → OrderStatus → Prop :=
  | Edge_PENDING_CONFIRMED : Edge PENDING CONFIRMED
  | Edge_PENDING_CANCELLED : Edge PENDING CANCELLED
  | Edge_CONFIRMED_PROCESSING : Edge CONFIRMED PROCESSING
  | Edge_CONFIRMED_CANCELLED : Edge CONFIRMED CANCELLED
  | Edge_PROCESSING_SHIPPED : Edge PROCESSING SHIPPED
  | Edge_PROCESSING_CANCELLED : Edge PROCESSING CANCELLED
  | Edge_SHIPPED_DELIVERED : Edge SHIPPED DELIVERED
  | Edge_DELIVERED_REFUNDED : Edge DELIVERED REFUNDED.

(** A row after an operation: untouched, or moved along one edge with every
    other column kept. *)
Definition rowFollows (o o' : Order) : Prop :=
  o' = o ∨ (Edge (order_status o) (order_status o')
            ∧ o' = withStatus o (order_status o')).

(** The store after an operation: every table but [orders] is the same, and
    every order row follows the table. *)
Definition followsTable (db db' : Db) : Prop :=
  users db' = users db ∧ stores db' = stores db ∧ products db' = products db
  ∧ coupons db' = coupons db ∧ orderItems db' = orderItems db
  ∧ Forall2 rowFollows (orders db) (orders db').

(** An operation respects the table: a throw leaves the store as it was,
    a return moved rows along edges only. *)
Definition respectsTable {A} (m : M A) : Prop :=
  ∀ db, match m db with
        | (db', inl _) => db' = db
        | (db', inr _) => followsTable db db'
        end.

(** ** One store group, step by step *)

(** The three ways the coupon block of a group can end. *)
Inductive CouponOutcome :=
  | NotApplied
  | LimitExceeded
  | Applied (code : string) (coupon : Coupon).

(** Which way the coupon block of lines 189-217 ends in the store [db]. *)
Definition couponOutcome (genv : GroupEnv) (data : CreateOrderRequest)
    (db : Db) : CouponOutcome :=
  match couponCode data with
  | None => NotApplied
  | Some code =>
      if negb (truthy code) then NotApplied else
      match coupons db !! code with
      | None => NotApplied
      | Some coupon =>
          if coupon_isActive coupon
             && bool_decide (g_date genv < coupon_expiresAt coupon) then
            if bool_decide (0 < coupon_usageLimit coupon)
               && bool_decide (coupon_usageLimit coupon ≤ coupon_usageCount coupon)
            then LimitExceeded
            else Applied code coupon
          else NotApplied
      end
  end.

(** The error of line 199. *)
Definition limitError : Thrown := AppError "Coupon usage limit exceeded" 400.

(** The store after the order row and the item rows of a group are in. *)
Definition committed (o : Order) (storeItems : list StoreItem) (db : Db) : Db :=
  mkDb (users db) (stores db) (products db) (coupons db) (orders db ++ [o])
       (orderItems db ++ (toOrderItem (order_id o) <$> storeItems)).

(** The store rejects one of the writes numbered [lo+1 .. lo+n]. *)
Definition failsIn (fail : option nat) (lo n : nat) : bool :=
  match fail with
  | Some k => bool_decide (lo < k ≤ lo + n)%nat
  | None => false
  end.

(** The store rejects one of the [1 + n] writes of a transaction. *)
Definition rejects (fail : option nat) (n : nat) : bool :=
  match fail with
  | Some k => bool_decide (k ≤ n)%nat
  | None => false
  end.

(** What the transaction of a group returns and leaves in the store. *)
Definition txResult (genv : GroupEnv) (o : Order) (storeItems : list StoreItem)
    (db : Db) : Db * (Thrown + Order) :=
  if rejects (g_fail genv) (length storeItems) then (db, inl PrismaError)
  else (committed o storeItems db, inr o).

(** ** Carts and store groups *)

(** A cart item passes the checks of lines 161-171. *)
Definition validItem (db : Db) (item : CartItem) : Prop :=
  match products db !! ci_productId item with
  | Some p => product_inStock p = true ∧ product_price p = ci_price item
  | None => False
  end.

#[global] Instance validItem_dec db item : Decision (validItem db item).
Proof. unfold validItem. destruct (products db !! ci_productId item); apply _. Defined.

(** The error an item that fails the checks is answered with. *)
Definition itemError (db : Db) (item : CartItem) : Thrown :=
  match products db !! ci_productId item with
  | None => AppError ("Product " +:+ ci_productId item +:+ " not found") 404
  | Some p =>
      if negb (product_inStock p)
      then AppError ("Product " +:+ product_name p +:+ " is out of stock") 400
      else AppError ("Price changed for product " +:+ product_name p) 400
  end.

(** The store that owns the product of a cart item. *)
Definition ownerStore (db : Db) (item : CartItem) : string :=
  match products db !! ci_productId item with
  | Some p => product_storeId p
  | None => ""
  end.

(** The cart items, each tagged with its owning store. *)
Definition tagged (db : Db) (items : list CartItem) : list StoreItem :=
  (λ item, withStore item (ownerStore db item)) <$> items.

(** The store group of [s]: the tagged items owned by [s], in cart order. *)
Definition storeGroup (db : Db) (items : list CartItem) (s : string)
  : list StoreItem :=
  filter (λ si, si_storeId si = s) (tagged db items).


(** One round of lines 173-179 on the map. *)
Definition file (m : JsMap) (si : StoreItem) : JsMap :=
  let s := si_storeId si in
  Map_push (if negb (Map_has m s) then Map_set m s [] else m) s si.

(** The map after the loop filed the tagged items [sis], starting from [m]. *)
Definition grouping (sis : list StoreItem) (m : JsMap) : JsMap :=
  fold_left file sis m.

(** [m.get(k)], with an absent key read as the empty array. *)
Fixpoint Map_get (m : JsMap) (k : string) : list StoreItem :=
  match m with
  | [] => []
  | (k', v) :: m' => if decide (k = k') then v else Map_get m' k
  end.

(** The sum of price times quantity over the lines of a group. *)
Definition lineSum (storeItems : list StoreItem) : Qc :=
  foldr (λ si acc, si_price si * num (si_quantity si) + acc)%Qc 0%Qc storeItems.

(** ** Runs of the loop *)

(** Two stores agree on the tables [createOrder] only reads. *)
Definition sameCatalog (db db' : Db) : Prop :=
  users db' = users db ∧ stores db' = stores db ∧ products db' = products db.

(** The order row the loop builds for group [g] when the coupon table is
    [cs]: the row of lines 226-234 with the group's subtotal, or with the
    discounted subtotal when the coupon block applied the coupon. *)
Definition orderOf (genv : GroupEnv) (userId : string) (data : CreateOrderRequest)
    (cs : gmap string Coupon) (g : string * list StoreItem) (o : Order) : Prop :=
  ∃ total used,
    o = newOrder genv userId data (fst g) total used
    ∧ ((used = false ∧ total = storeTotal (snd g))
       ∨ (used = true
          ∧ ∃ code c, couponCode data = Some code ∧ cs !! code = Some c
                      ∧ total = discounted c (storeTotal (snd g)))).

(** The item rows of the groups, each under the id of its group's order. *)
Definition itemRows (groups : JsMap) (created : list Order) : list OrderItem :=
  concat (zip_with (λ g o, toOrderItem (order_id o) <$> snd g) groups created).

(** Every coupon of [cs1] is in [cs] with the same discount rule. *)
Definition rulesKept (cs cs1 : gmap string Coupon) : Prop :=
  ∀ code c1, cs1 !! code = Some c1 →
    ∃ c0, cs !! code = Some c0 ∧ ∀ S, discounted c1 S = discounted c0 S.

(** The total of an order created for the store group [g]: the line sum,
    or the discounted line sum when the order is marked [isCouponUsed]. *)
Definition totalOf (data : CreateOrderRequest) (cs : gmap string Coupon)
    (g : list StoreItem) (o : Order) : Prop :=
  if order_isCouponUsed o
  then ∃ code c, couponCode data = Some code ∧ cs !! code = Some c
                 ∧ order_coupon o = Some code
                 ∧ order_total o = discounted c (lineSum g)
  else order_coupon o = None ∧ order_total o = lineSum g.

(** The orders a result carries. *)
Definition ordersOf (r : OrderResult) : list Order :=
  match r with
  | Single o => [o]
  | Many os => os
  end.

(** The clock reading and the random suffix drawn for group [j]. *)
Definition draw (env : Env) (j : nat) : N * string :=
  (g_now (env j), g_random (env j)).

(** A string without the separator of the order number. *)
Fixpoint noDash (s : string) : Prop :=
  match s with
  | EmptyString => True
  | String c s' => c ≠ "-"%char ∧ noDash s'
  end.

(** The coupon after [n] more uses. *)
Definition bump (n : Z) (c : Coupon) : Coupon :=
  mkCoupon (coupon_discount c) (coupon_discountType c) (coupon_isActive c)
           (coupon_expiresAt c) (coupon_usageLimit c) (coupon_usageCount c + n).

(** No coupon with a limit has been used more often than its limit. *)
Definition withinLimits (db : Db) : Prop :=
  ∀ code c, coupons db !! code = Some c →
    0 < coupon_usageLimit c → coupon_usageCount c ≤ coupon_usageLimit c.

(** A call of [createOrder]: its environment and its arguments. *)
Record Call := mkCall {
  call_env : Env;
  call_userId : string;
  call_data : CreateOrderRequest }.

(** The store after a sequence of calls, whatever each returned. *)
Definition runCalls (calls : list Call) (db : Db) : Db :=
  fold_left (λ db c, fst (createOrder (call_env c) (call_userId c) (call_data c) db))
            calls db.



(** ** Scenarios *)

(** A store with one delivered order of store "S1", operated by "seller". *)
Definition deliveredOrder : Order :=
  mkOrder "o1" "ORD-1-a" (num 250) DELIVERED "buyer" "S1" "GOPAY" false None.

Definition deliveredDb : Db :=
  mkDb {["buyer" := mkUser USER None]} {["S1" := mkStore "seller"]} ∅ ∅
       [deliveredOrder] [].

(** A pending order of store "S1" (operated by "seller"), bought by
    "buyer"; "root" is an administrator. *)
Definition pendingOrder : Order :=
  mkOrder "o1" "ORD-1-a" (num 250) PENDING "buyer" "S1" "GOPAY" false None.

Definition rootUser : User := mkUser ADMIN None.

Definition pendingDb : Db :=
  mkDb (<["buyer" := mkUser USER None]>
          (<["seller" := mkUser SELLER None]> {["root" := rootUser]}))
       {["S1" := mkStore "seller"]} ∅ ∅ [pendingOrder] [].

(** The cart of the specification's scenario: two of product A at 100 and
    one of product B at 50. *)
Definition cartAB : Cart :=
  mkCart [mkCartItem "productA" 2 (num 100); mkCartItem "productB" 1 (num 50)]
         (num 250).

(** The buyer "u1" holds that cart. *)
Definition buyerAB : User := mkUser USER (Some cartAB).

(** SAVE10: ten percent, active, expiring at time 2000. *)
Definition save10 (usageLimit usageCount : Z) : Coupon :=
  mkCoupon (num 10) PERCENTAGE true 2000 usageLimit usageCount.

(** Product A belongs to store S1, product B to store S2. *)
Definition shopWith (priceB : Qc) (coupon : Coupon) : Db :=
  mkDb {["u1" := buyerAB]}
       (<["S1" := mkStore "seller1"]> {["S2" := mkStore "seller2"]})
       (<["productA" := mkProduct "S1" (num 100) true "A"]>
          {["productB" := mkProduct "S2" priceB true "B"]})
       {["SAVE10" := coupon]} [] [].

(** The shop of the scenario: catalog prices as in the cart, SAVE10 unused
    with a limit of 1000. *)
Definition shopDb : Db := shopWith (num 50) (save10 1000 0).


(** The same shop after the price of product B went up to 60. *)
Definition repricedDb : Db := shopWith (num 60) (save10 1000 0).

(** The shop with a SAVE10 that was used five times out of five. *)
Definition spentDb : Db := shopWith (num 50) (save10 5 5).


(** A clock at 1000 for the expiry test, one millisecond per group for the
    order number, a store that accepts every write. *)
Definition calmEnv : Env :=
  λ i, mkGroupEnv 1000 (1700000000000 + N.of_nat i) "k3j9x2m1q"
                  ("order" +:+ decimal (N.of_nat i)) None.

(** The clock always reads the same millisecond and the generator always
    returns the same suffix. *)
Definition stuckEnv : Env :=
  λ i, mkGroupEnv 1000 1700000000000 "k3j9x2m1q"
                  ("order" +:+ decimal (N.of_nat i)) None.

(** The store rejects the first item row of the second group. *)
Definition breakEnv : Env :=
  λ i, mkGroupEnv 1000 (1700000000000 + N.of_nat i) "k3j9x2m1q"
                  ("order" +:+ decimal (N.of_nat i))
                  (if decide (i = 1%nat) then Some 1%nat else None).

(** The checkout request, with and without the coupon code. *)
Definition withCoupon : CreateOrderRequest := mkRequest "GOPAY" (Some "SAVE10").

Definition withoutCoupon : CreateOrderRequest := mkRequest "GOPAY" None.

(** The two orders of the scenario without a coupon. *)
Definition plainOrders (env : Env) : list Order :=
  [newOrder (env 0%nat) "u1" withoutCoupon "S1"
     (storeTotal (storeGroup shopDb (cart_items cartAB) "S1")) false;
   newOrder (env 1%nat) "u1" withoutCoupon "S2"
     (storeTotal (storeGroup shopDb (cart_items cartAB) "S2")) false].

(** * Properties *)

(** ** Running a computation *)

Lemma bind_inr {A B} (m : M A) (k : A → M B) db db' a :
  m db = (db', inr a) → bind m k db = k a db'.
Proof. intros H. unfold bind. by rewrite H. Qed.

Lemma bind_inl {A B} (m : M A) (k : A → M B) db db' e :
  m db = (db', inl e) → bind m k db = (db', inl e).
Proof. intros H. unfold bind. by rewrite H. Qed.

Lemma bind_get {B} (k : Db → M B) db : bind get k db = k db db.
Proof. reflexivity. Qed.

Lemma bind_ret {A B} (a : A) (k : A → M B) db : bind (ret a) k db = k a db.
Proof. reflexivity. Qed.

Lemma bind_throw {A B} (e : Thrown) (k : A → M B) db :
  bind (throw e) k db = (db, inl e).
Proof. reflexivity. Qed.

Lemma bind_modify {B} (f : Db → Db) (k : unit → M B) db :
  bind (modify f) k db = k tt (f db).
Proof. reflexivity. Qed.

Lemma orderLoop_cons env userId data s g groups i acc db :
  orderLoop env i userId data ((s, g) :: groups) acc db =
    match processGroup (env i) userId data s g db with
    | (db1, inl e) => (db1, inl e)
    | (db1, inr o) => orderLoop env (S i) userId data groups (acc ++ [o]) db1
    end.
Proof. reflexivity. Qed.

(** [createOrder], stage by stage. *)
Lemma createOrder_stages env userId data db :
  createOrder env userId data db =
    match users db !! userId with
    | None => (db, inl (AppError "User not found" 404))
    | Some user =>
        match cart_items (default emptyCart (user_cart user)) with
        | [] => (db, inl (AppError "Cart is empty" 400))
        | items =>
            match groupItems items [] db with
            | (db1, inl e) => (db1, inl e)
            | (db1, inr groups) =>
                match orderLoop env 0 userId data groups [] db1 with
                | (db2, inl e) => (db2, inl e)
                | (db2, inr created) =>
                    (setCart userId emptyCart db2,
                     inr (match created with
                          | [o] => Single o
                          | _ => Many created
                          end))
                end
            end
        end
    end.
Proof.
  unfold createOrder. rewrite bind_get.
  destruct (users db !! userId) as [user|]; [|done].
  change (match user_cart user with Some c => c | None => emptyCart end)
    with (default emptyCart (user_cart user)).
  destruct (cart_items (default emptyCart (user_cart user))) as [|item items];
    [done|].
  unfold bind at 1.
  destruct (groupItems (item :: items) [] db) as [db1 [e1|groups]]; [done|].
  unfold bind at 1.
  by destruct (orderLoop env 0 userId data groups [] db1) as [db2 [e2|created]].
Qed.

(** ** Status changes follow the table *)

Lemma validTransitions_Edge s t : t ∈ validTransitions s ↔ Edge s t.
Proof.
  split.
  - destruct s; simpl; intros H;
      repeat (apply elem_of_cons in H as [->|H]; [constructor|]);
      by apply elem_of_nil in H.
  - destruct 1; simpl; repeat constructor.
Qed.

Lemma findOrder_status_update orderId os o t :
  findOrder orderId os = Some o →
  Edge (order_status o) t →
  Forall2 rowFollows os (updateOrder orderId (λ o, withStatus o t) os).
Proof.
  induction os as [|x os IH]; simpl; [done|].
  intros Hf He. destruct (decide (order_id x = orderId)).
  - injection Hf as ->. constructor.
    + right. simpl. done.
    + apply Forall2_same_length_lookup_2; [done|].
      intros i a b Ha Hb. left. congruence.
  - constructor; [by left | by apply IH].
Qed.

Lemma setStatus_follows orderId db o t :
  findOrder orderId (orders db) = Some o →
  Edge (order_status o) t →
  followsTable db (setStatus orderId t db).
Proof.
  intros Hf He. repeat split; simpl. by eapply findOrder_status_update.
Qed.

Lemma updateOrderStatus_respects orderId status userId :
  respectsTable (updateOrderStatus orderId status userId).
Proof.
  intros db. unfold updateOrderStatus, storeOf. rewrite bind_get.
  destruct (findOrder orderId (orders db)) as [o|] eqn:Hf; [|done].
  unfold bind at 1. rewrite bind_get.
  destruct (stores db !! order_storeId o) as [st|]; [|done]. simpl.
  destruct (bool_decide (store_userId st = userId)); [|done]. simpl.
  destruct (bool_decide (status ∈ validTransitions (order_status o))) eqn:Hv; [|done].
  simpl. apply bool_decide_eq_true in Hv.
  apply (setStatus_follows _ _ o); [done | by apply validTransitions_Edge].
Qed.

Lemma cancelOrder_respects orderId userId :
  respectsTable (cancelOrder orderId userId).
Proof.
  intros db. unfold cancelOrder, storeOf. rewrite bind_get.
  destruct (findOrder orderId (orders db)) as [o|] eqn:Hf; [|done].
  unfold bind at 1. rewrite bind_get.
  destruct (stores db !! order_storeId o) as [st|]; [|done]. simpl.
  destruct (bool_decide (order_userId o = userId) || bool_decide (store_userId st = userId));
    [|done]. simpl.
  destruct (bool_decide (order_status o ∈ [PENDING; CONFIRMED; PROCESSING])) eqn:Hv;
    [|done].
  simpl. apply bool_decide_eq_true in Hv.
  apply (setStatus_follows _ _ o); [done|].
  repeat (apply elem_of_cons in Hv as [->|Hv]; [constructor|]).
  by apply elem_of_nil in Hv.
Qed.

Lemma refundOrder_respects orderId : respectsTable (refundOrder orderId).
Proof.
  intros db. unfold refundOrder. rewrite bind_get.
  destruct (findOrder orderId (orders db)) as [o|] eqn:Hf; [|done].
  destruct (bool_decide (order_status o = DELIVERED)) eqn:Hv; [|done].
  simpl. apply bool_decide_eq_true in Hv.
  apply (setStatus_follows _ _ o); [done|]. rewrite Hv. constructor.
Qed.

(** The branch of [updateOrderStatus] behind the ownership test. *)
Lemma updateOrderStatus_owner orderId status userId db o st :
  findOrder orderId (orders db) = Some o →
  stores db !! order_storeId o = Some st →
  store_userId st = userId →
  updateOrderStatus orderId status userId db =
    if bool_decide (status ∈ validTransitions (order_status o))
    then (setStatus orderId status db, inr (withStatus o status))
    else (db, inl (createError ("Cannot change status from "
                                +:+ statusName (order_status o)
                                +:+ " to " +:+ statusName status) 400)).
Proof.
  intros Hf Hs Hu. unfold updateOrderStatus, storeOf. rewrite bind_get, Hf.
  unfold bind at 1. rewrite bind_get, Hs. simpl.
  rewrite bool_decide_eq_true_2 by done. simpl.
  by destruct (bool_decide (status ∈ validTransitions (order_status o))).
Qed.

(** A caller who does not operate the order's store is turned away. *)
Lemma updateOrderStatus_not_owner orderId status userId db o st :
  findOrder orderId (orders db) = Some o →
  stores db !! order_storeId o = Some st →
  store_userId st ≠ userId →
  updateOrderStatus orderId status userId db =
    (db, inl (AppError "Access denied" 403)).
Proof.
  intros Hf Hs Hu. unfold updateOrderStatus, storeOf. rewrite bind_get, Hf.
  unfold bind at 1. rewrite bind_get, Hs. simpl.
  by rewrite bool_decide_eq_false_2.
Qed.

(** [updateOrderStatus], branch by branch. *)
Lemma updateOrderStatus_run orderId status userId db :
  updateOrderStatus orderId status userId db =
    match findOrder orderId (orders db) with
    | None => (db, inl (AppError "Order not found" 404))
    | Some o =>
        match stores db !! order_storeId o with
        | None => (db, inl PrismaError)
        | Some st =>
            if bool_decide (store_userId st = userId)
            then
              if bool_decide (status ∈ validTransitions (order_status o))
              then (setStatus orderId status db, inr (withStatus o status))
              else (db, inl (AppError ("Cannot change status from "
                                       +:+ statusName (order_status o)
                                       +:+ " to " +:+ statusName status) 400))
            else (db, inl (AppError "Access denied" 403))
        end
    end.
Proof.
  destruct (findOrder orderId (orders db)) as [o|] eqn:Hf;
    [|by unfold updateOrderStatus; rewrite bind_get, Hf].
  destruct (stores db !! order_storeId o) as [st|] eqn:Hs.
  - destruct (decide (store_userId st = userId)) as [Hu|Hu].
    + rewrite bool_decide_eq_true_2 by done.
      by apply (updateOrderStatus_owner _ _ _ _ o st).
    + rewrite bool_decide_eq_false_2 by done.
      by apply (updateOrderStatus_not_owner _ _ _ _ o st).
  - unfold updateOrderStatus, storeOf. rewrite bind_get, Hf.
    unfold bind at 1. by rewrite bind_get, Hs.
Qed.

(** [cancelOrder], branch by branch. *)
Lemma cancelOrder_run orderId userId db :
  cancelOrder orderId userId db =
    match findOrder orderId (orders db) with
    | None => (db, inl (AppError "Order not found" 404))
    | Some o =>
        match stores db !! order_storeId o with
        | None => (db, inl PrismaError)
        | Some st =>
            if bool_decide (order_userId o = userId)
               || bool_decide (store_userId st = userId)
            then
              if bool_decide (order_status o ∈ [PENDING; CONFIRMED; PROCESSING])
              then (setStatus orderId CANCELLED db, inr (withStatus o CANCELLED))
              else (db, inl (AppError "Order cannot be cancelled at this stage" 400))
            else (db, inl (AppError "Access denied" 403))
        end
    end.
Proof.
  unfold cancelOrder, storeOf. rewrite bind_get.
  destruct (findOrder orderId (orders db)) as [o|]; [|done].
  unfold bind at 1. rewrite bind_get.
  destruct (stores db !! order_storeId o) as [st|]; [|done]. simpl.
  destruct (bool_decide (order_userId o = userId) || bool_decide (store_userId st = userId));
    [|done]. simpl.
  by destruct (bool_decide (order_status o ∈ [PENDING; CONFIRMED; PROCESSING])).
Qed.

(** [refundOrder], branch by branch. *)
Lemma refundOrder_run orderId db :
  refundOrder orderId db =
    match findOrder orderId (orders db) with
    | None => (db, inl (AppError "Order not found" 404))
    | Some o =>
        if bool_decide (order_status o = DELIVERED)
        then (setStatus orderId REFUNDED db, inr (withStatus o REFUNDED))
        else (db, inl (AppError "Only delivered orders can be refunded" 400))
    end.
Proof.
  unfold refundOrder. rewrite bind_get.
  destruct (findOrder orderId (orders db)) as [o|]; [|done].
  by destruct (bool_decide (order_status o = DELIVERED)).
Qed.

Lemma cancellable_Edge s : s ∈ [PENDING; CONFIRMED; PROCESSING] ↔ Edge s CANCELLED.
Proof.
  split.
  - intros H. repeat (apply elem_of_cons in H as [->|H]; [constructor|]).
    by apply elem_of_nil in H.
  - intros H. inversion H; repeat constructor.
Qed.

Lemma refundable_Edge s : s = DELIVERED ↔ Edge s REFUNDED.
Proof. split; [intros ->; constructor | by inversion 1]. Qed.

(** ** What a status change writes *)

(** The row [o'] has the columns of [o], the status apart. *)
Definition sameButStatus (o o' : Order) : Prop :=
  order_id o' = order_id o
  ∧ order_orderNumber o' = order_orderNumber o
  ∧ order_total o' = order_total o
  ∧ order_userId o' = order_userId o
  ∧ order_storeId o' = order_storeId o
  ∧ order_paymentMethod o' = order_paymentMethod o
  ∧ order_isCouponUsed o' = order_isCouponUsed o
  ∧ order_coupon o' = order_coupon o.

(** The store [db'] is the store [db] with the status of the row [o] of
    order [orderId] set to [t]: the row [ret] that replaces [o] has status
    [t] and the other columns of [o], it is the row a lookup of [orderId]
    finds in [db'], no other order row is touched, and the other tables are
    the same. *)
Definition statusWritten (orderId : string) (t : OrderStatus) (o ret : Order)
    (db db' : Db) : Prop :=
  users db' = users db ∧ stores db' = stores db ∧ products db' = products db
  ∧ coupons db' = coupons db ∧ orderItems db' = orderItems db
  ∧ order_status ret = t
  ∧ sameButStatus o ret
  ∧ findOrder orderId (orders db') = Some ret
  ∧ ∃ i, orders db !! i = Some o ∧ orders db' = <[i := ret]> (orders db).

Lemma findOrder_id orderId os o : findOrder orderId os = Some o → order_id o = orderId.
Proof.
  induction os as [|x os IH]; [done|]. simpl.
  destruct (decide (order_id x = orderId)); [by intros [= <-] | done].
Qed.

Lemma updateOrder_insert orderId f os o :
  findOrder orderId os = Some o →
  order_id (f o) = order_id o →
  findOrder orderId (updateOrder orderId f os) = Some (f o)
  ∧ ∃ i, os !! i = Some o ∧ updateOrder orderId f os = <[i := f o]> os.
Proof.
  intros Hf Hid. induction os as [|x os IH]; [done|]. simpl in Hf |- *.
  destruct (decide (order_id x = orderId)) as [Hx|Hx].
  - injection Hf as ->. simpl. rewrite Hid, decide_True by done.
    split; [done|]. by exists 0%nat.
  - simpl. rewrite decide_False by done.
    destruct (IH Hf) as (Hfind & i & Hi & Hup). split; [done|].
    exists (S i). split; [done|]. simpl. by rewrite Hup.
Qed.

Lemma setStatus_written orderId t db o :
  findOrder orderId (orders db) = Some o →
  statusWritten orderId t o (withStatus o t) db (setStatus orderId t db).
Proof.
  intros Hf.
  destruct (updateOrder_insert orderId (λ o, withStatus o t) (orders db) o Hf eq_refl)
    as (Hfind & i & Hi & Hup).
  repeat split; try done. by exists i.
Qed.

(** C5.  Every status change made by [updateOrderStatus], [cancelOrder] or
    [refundOrder] follows an edge of the transition table of the
    specification: a call that returns has set the status of the one order
    row it was asked about to the new status, along an edge, and has written
    nothing else; a call that throws has written nothing.  A transition that
    is not in the table is refused.  [updateOrderStatus] called by the
    operator of the order's store throws the 400 "Cannot change status from
    <current> to <requested>"; called by anyone else it throws the 403
    "Access denied" before it looks at the table.  [cancelOrder] throws the
    403 "Access denied" for a caller who is neither the buyer nor the
    operator and otherwise the 400 "Order cannot be cancelled at this
    stage"; [refundOrder] throws the 400 "Only delivered orders can be
    refunded".  A transition that is in the table is made.  DELIVERED to
    REFUNDED succeeds and DELIVERED to CONFIRMED fails. *)
Theorem status_changes_follow_table :
  (∀ orderId status userId db db' r,
     updateOrderStatus orderId status userId db = (db', r) →
     match r with
     | inl _ => db' = db
     | inr ret => ∃ o, findOrder orderId (orders db) = Some o
                       ∧ Edge (order_status o) status
                       ∧ statusWritten orderId status o ret db db'
     end)
  ∧ (∀ orderId userId db db' r,
       cancelOrder orderId userId db = (db', r) →
       match r with
       | inl _ => db' = db
       | inr ret => ∃ o, findOrder orderId (orders db) = Some o
                         ∧ Edge (order_status o) CANCELLED
                         ∧ statusWritten orderId CANCELLED o ret db db'
       end)
  ∧ (∀ orderId db db' r,
       refundOrder orderId db = (db', r) →
       match r with
       | inl _ => db' = db
       | inr ret => ∃ o, findOrder orderId (orders db) = Some o
                         ∧ Edge (order_status o) REFUNDED
                         ∧ statusWritten orderId REFUNDED o ret db db'
       end)
  ∧ (∀ orderId status userId db o st,
       findOrder orderId (orders db) = Some o →
       stores db !! order_storeId o = Some st →
       (store_userId st ≠ userId →
          updateOrderStatus orderId status userId db
          = (db, inl (AppError "Access denied" 403)))
       ∧ (store_userId st = userId → ¬ Edge (order_status o) status →
          updateOrderStatus orderId status userId db
          = (db, inl (AppError ("Cannot change status from "
                                +:+ statusName (order_status o)
                                +:+ " to " +:+ statusName status) 400)))
       ∧ (store_userId st = userId → Edge (order_status o) status →
          ∃ db' ret,
            updateOrderStatus orderId status userId db = (db', inr ret)
            ∧ statusWritten orderId status o ret db db'))
  ∧ (∀ orderId userId db o st,
       findOrder orderId (orders db) = Some o →
       stores db !! order_storeId o = Some st →
       (order_userId o ≠ userId → store_userId st ≠ userId →
          cancelOrder orderId userId db
          = (db, inl (AppError "Access denied" 403)))
       ∧ (order_userId o = userId ∨ store_userId st = userId →
          ¬ Edge (order_status o) CANCELLED →
          cancelOrder orderId userId db
          = (db, inl (AppError "Order cannot be cancelled at this stage" 400)))
       ∧ (order_userId o = userId ∨ store_userId st = userId →
          Edge (order_status o) CANCELLED →
          ∃ db' ret,
            cancelOrder orderId userId db = (db', inr ret)
            ∧ statusWritten orderId CANCELLED o ret db db'))
  ∧ (∀ orderId db o,
       findOrder orderId (orders db) = Some o →
       (¬ Edge (order_status o) REFUNDED →
          refundOrder orderId db
          = (db, inl (AppError "Only delivered orders can be refunded" 400)))
       ∧ (Edge (order_status o) REFUNDED →
          ∃ db' ret,
            refundOrder orderId db = (db', inr ret)
            ∧ statusWritten orderId REFUNDED o ret db db'))
  ∧ (∀ orderId userId db o st,
       findOrder orderId (orders db) = Some o →
       stores db !! order_storeId o = Some st →
       store_userId st = userId →
       order_status o = DELIVERED →
       (∃ db' ret,
          updateOrderStatus orderId REFUNDED userId db = (db', inr ret)
          ∧ statusWritten orderId REFUNDED o ret db db')
       ∧ updateOrderStatus orderId CONFIRMED userId db =
         (db, inl (AppError "Cannot change status from DELIVERED to CONFIRMED" 400))).
Proof.
  split; [|split; [|split; [|split; [|split; [|split]]]]].
  - intros orderId status userId db db' r. rewrite updateOrderStatus_run.
    destruct (findOrder orderId (orders db)) as [o|] eqn:Hf; [|by intros [= <- <-]].
    destruct (stores db !! order_storeId o) as [st|]; [|by intros [= <- <-]].
    destruct (bool_decide (store_userId st = userId)); [|by intros [= <- <-]].
    destruct (bool_decide (status ∈ _)) eqn:Hv; [|by intros [= <- <-]].
    intros [= <- <-]. exists o. split; [done|].
    apply bool_decide_eq_true in Hv. split; [by apply validTransitions_Edge|].
    by apply setStatus_written.
  - intros orderId userId db db' r. rewrite cancelOrder_run.
    destruct (findOrder orderId (orders db)) as [o|] eqn:Hf; [|by intros [= <- <-]].
    destruct (stores db !! order_storeId o) as [st|]; [|by intros [= <- <-]].
    destruct (_ || _); [|by intros [= <- <-]].
    destruct (bool_decide (order_status o ∈ _)) eqn:Hv; [|by intros [= <- <-]].
    intros [= <- <-]. exists o. split; [done|].
    apply bool_decide_eq_true in Hv. split; [by apply cancellable_Edge|].
    by apply setStatus_written.
  - intros orderId db db' r. rewrite refundOrder_run.
    destruct (findOrder orderId (orders db)) as [o|] eqn:Hf; [|by intros [= <- <-]].
    destruct (bool_decide (order_status o = DELIVERED)) eqn:Hv; [|by intros [= <- <-]].
    intros [= <- <-]. exists o. split; [done|].
    apply bool_decide_eq_true in Hv. split; [by apply refundable_Edge|].
    by apply setStatus_written.
  - intros orderId status userId db o st Hf Hs.
    rewrite updateOrderStatus_run, Hf, Hs. split; [|split].
    + intros Hu. by rewrite bool_decide_eq_false_2.
    + intros Hu Hn. rewrite bool_decide_eq_true_2 by done.
      rewrite bool_decide_eq_false_2; [done|]. by rewrite validTransitions_Edge.
    + intros Hu He. rewrite bool_decide_eq_true_2 by done.
      rewrite bool_decide_eq_true_2 by (by apply validTransitions_Edge).
      eexists _, _. split; [done|]. by apply setStatus_written.
  - intros orderId userId db o st Hf Hs.
    rewrite cancelOrder_run, Hf, Hs. split; [|split].
    + intros Hb Hu. rewrite !bool_decide_eq_false_2 by done. reflexivity.
    + intros Hwho Hn.
      assert (bool_decide (order_userId o = userId)
              || bool_decide (store_userId st = userId) = true) as ->.
      { destruct Hwho as [H|H]; rewrite (bool_decide_eq_true_2 _ H);
          [done | apply orb_true_r]. }
      rewrite bool_decide_eq_false_2; [done|]. by rewrite cancellable_Edge.
    + intros Hwho He.
      assert (bool_decide (order_userId o = userId)
              || bool_decide (store_userId st = userId) = true) as ->.
      { destruct Hwho as [H|H]; rewrite (bool_decide_eq_true_2 _ H);
          [done | apply orb_true_r]. }
      rewrite bool_decide_eq_true_2 by (by apply cancellable_Edge).
      eexists _, _. split; [done|]. by apply setStatus_written.
  - intros orderId db o Hf. rewrite refundOrder_run, Hf. split.
    + intros Hn. rewrite bool_decide_eq_false_2; [done|]. by rewrite refundable_Edge.
    + intros He. rewrite bool_decide_eq_true_2 by (by apply refundable_Edge).
      eexists _, _. split; [done|]. by apply setStatus_written.
  - intros orderId userId db o st Hf Hs Hu Hd.
    rewrite !updateOrderStatus_run, Hf, Hs.
    rewrite bool_decide_eq_true_2 by done. rewrite Hd. split.
    + eexists _, _. split; [reflexivity|]. by apply setStatus_written.
    + reflexivity.
Qed.

Lemma status_changes_follow_table_witness :
  (∃ db' ret,
     updateOrderStatus "o1" REFUNDED "seller" deliveredDb = (db', inr ret)
     ∧ statusWritten "o1" REFUNDED deliveredOrder ret deliveredDb db')
  ∧ updateOrderStatus "o1" CONFIRMED "seller" deliveredDb =
    (deliveredDb, inl (AppError "Cannot change status from DELIVERED to CONFIRMED" 400)).
Proof.
  destruct status_changes_follow_table as (_ & _ & _ & _ & _ & _ & H).
  apply (H "o1" "seller" deliveredDb deliveredOrder (mkStore "seller"));
    reflexivity.
Defined.

(** C5 as stated fails in its error clause.  The buyer asks to cancel a
    delivered order, a transition that is not in the table: [cancelOrder]
    throws a 400 whose message names neither the current nor the requested
    status.  [refundOrder] on a pending order does the same with its own
    message.  A caller who does not operate the store asks
    [updateOrderStatus] for DELIVERED to CONFIRMED, not in the table either:
    the error is the 403 "Access denied", not the 400 that names the two
    statuses. *)
Lemma status_changes_counterexample :
  ¬ Edge (order_status deliveredOrder) CANCELLED
  ∧ cancelOrder "o1" "buyer" deliveredDb
    = (deliveredDb, inl (AppError "Order cannot be cancelled at this stage" 400))
  ∧ ¬ Edge (order_status pendingOrder) REFUNDED
  ∧ refundOrder "o1" pendingDb
    = (pendingDb, inl (AppError "Only delivered orders can be refunded" 400))
  ∧ ¬ Edge (order_status deliveredOrder) CONFIRMED
  ∧ updateOrderStatus "o1" CONFIRMED "buyer" deliveredDb
    = (deliveredDb, inl (AppError "Access denied" 403)).
Proof.
  split; [by inversion 1|]. split; [reflexivity|].
  split; [by inversion 1|]. split; [reflexivity|].
  split; [by inversion 1|]. reflexivity.
Qed.

(** ** One store group, step by step *)

Lemma applyCoupon_outcome genv data total db :
  applyCoupon genv data total db =
    match couponOutcome genv data db with
    | NotApplied => (db, inr (total, false))
    | LimitExceeded => (db, inl limitError)
    | Applied code coupon =>
        (setCoupons (alter incrementUsage code) db,
         inr (discounted coupon total, true))
    end.
Proof.
  unfold applyCoupon, couponOutcome.
  destruct (couponCode data) as [code|]; [|done].
  destruct (negb (truthy code)); [done|]. rewrite bind_get.
  destruct (coupons db !! code) as [c|]; [|done].
  destruct (coupon_isActive c && bool_decide (g_date genv < coupon_expiresAt c));
    [|done].
  by destruct (bool_decide (0 < coupon_usageLimit c)
               && bool_decide (coupon_usageLimit c ≤ coupon_usageCount c)).
Qed.

Lemma createItems_run fail k orderId storeItems db :
  if failsIn fail k (length storeItems)
  then ∃ db', createItems fail k orderId storeItems db = (db', inl PrismaError)
  else createItems fail k orderId storeItems db =
         (mkDb (users db) (stores db) (products db) (coupons db) (orders db)
               (orderItems db ++ (toOrderItem orderId <$> storeItems)), inr tt).
Proof.
  revert k db. induction storeItems as [|item rest IH]; intros k db.
  - replace (failsIn fail k (length [])) with false.
    + simpl. destruct db; simpl. by rewrite app_nil_r.
    + destruct fail as [j|]; simpl; [|done]. symmetry.
      apply bool_decide_eq_false. lia.
  - cbn [createItems]. unfold write.
    destruct (decide (fail = Some (S k))) as [->|Hne].
    + replace (failsIn (Some (S k)) k (length (item :: rest))) with true.
      * by eexists.
      * simpl. symmetry. apply bool_decide_eq_true. lia.
    + rewrite bind_modify. specialize (IH (S k) (addOrderItem (toOrderItem orderId item) db)).
      replace (failsIn fail k (length (item :: rest)))
        with (failsIn fail (S k) (length rest)).
      * destruct (failsIn fail (S k) (length rest)); [done|].
        rewrite IH. simpl. by rewrite <- app_assoc.
      * destruct fail as [j|]; simpl; [|done].
        apply bool_decide_ext. split; [lia|]. intros H.
        assert (j ≠ S k) by congruence. lia.
Qed.

Lemma transaction_run genv o storeItems db :
  transaction (
    write (g_fail genv) 0 (addOrder o);;;
    createItems (g_fail genv) 0 (order_id o) storeItems;;;
    ret o) db = txResult genv o storeItems db.
Proof.
  unfold transaction, txResult, write.
  destruct (decide (g_fail genv = Some 0%nat)) as [Hz|Hnz].
  { rewrite Hz. unfold rejects. rewrite bool_decide_eq_true_2 by lia. done. }
  rewrite bind_modify.
  pose proof (createItems_run (g_fail genv) 0 (order_id o) storeItems
                (addOrder o db)) as Hrun.
  replace (rejects (g_fail genv) (length storeItems))
    with (failsIn (g_fail genv) 0 (length storeItems)).
  - destruct (failsIn (g_fail genv) 0 (length storeItems)).
    + destruct Hrun as [db' Hrun]. by rewrite (bind_inl _ _ _ _ _ Hrun).
    + by rewrite (bind_inr _ _ _ _ _ Hrun).
  - destruct (g_fail genv) as [j|]; simpl; [|done].
    apply bool_decide_ext. split; [lia|]. intros H.
    assert (j ≠ 0%nat) by congruence. lia.
Qed.

(** What [processGroup] does, case by case. *)
Lemma processGroup_run genv userId data storeId storeItems db :
  processGroup genv userId data storeId storeItems db =
    match couponOutcome genv data db with
    | NotApplied =>
        txResult genv
          (newOrder genv userId data storeId (storeTotal storeItems) false)
          storeItems db
    | LimitExceeded => (db, inl limitError)
    | Applied code coupon =>
        txResult genv
          (newOrder genv userId data storeId
             (discounted coupon (storeTotal storeItems)) true)
          storeItems (setCoupons (alter incrementUsage code) db)
    end.
Proof.
  unfold processGroup, bind at 1. rewrite applyCoupon_outcome.
  destruct (couponOutcome genv data db); [|done|]; apply transaction_run.
Qed.

Lemma txResult_cases genv o storeItems db :
  txResult genv o storeItems db =
    if rejects (g_fail genv) (length storeItems)
    then (db, inl PrismaError) else (committed o storeItems db, inr o).
Proof. reflexivity. Qed.

Lemma truthy_nonempty code : code ≠ "" → truthy code = true.
Proof. intros H. unfold truthy. by rewrite bool_decide_eq_false_2. Qed.

Lemma couponOutcome_Applied genv data db code c :
  couponOutcome genv data db = Applied code c →
  couponCode data = Some code ∧ coupons db !! code = Some c.
Proof.
  unfold couponOutcome. destruct (couponCode data) as [k|]; [|done].
  destruct (negb (truthy k)); [done|].
  destruct (coupons db !! k) as [c0|] eqn:Hc; [|done].
  destruct (coupon_isActive c0 && _); [|done].
  destruct (bool_decide _ && _); [done|]. by intros [= <- <-].
Qed.


Lemma couponOutcome_exhausted genv data db code c :
  couponCode data = Some code → code ≠ "" →
  coupons db !! code = Some c →
  coupon_isActive c = true →
  g_date genv < coupon_expiresAt c →
  0 < coupon_usageLimit c → coupon_usageLimit c ≤ coupon_usageCount c →
  couponOutcome genv data db = LimitExceeded.
Proof.
  intros Hcode Hne Hc Hact Hdate H0 Hlim. unfold couponOutcome.
  rewrite Hcode, truthy_nonempty, Hc, Hact by done. simpl.
  by rewrite !bool_decide_eq_true_2.
Qed.

Lemma couponOutcome_room genv data db code c :
  couponOutcome genv data db = Applied code c →
  coupon_usageLimit c ≤ 0 ∨ coupon_usageCount c < coupon_usageLimit c.
Proof.
  unfold couponOutcome. destruct (couponCode data) as [k|]; [|done].
  destruct (negb (truthy k)); [done|].
  destruct (coupons db !! k) as [c0|]; [|done].
  destruct (coupon_isActive c0 && _); [|done].
  destruct (bool_decide (0 < coupon_usageLimit c0)) eqn:H1;
    destruct (bool_decide (coupon_usageLimit c0 ≤ coupon_usageCount c0)) eqn:H2;
    simpl; try done; intros [= _ <-].
  - apply bool_decide_eq_false in H2. right. lia.
  - apply bool_decide_eq_false in H1. left. lia.
  - apply bool_decide_eq_false in H1. left. lia.
Qed.

Lemma couponOutcome_LimitExceeded genv data db :
  couponOutcome genv data db = LimitExceeded →
  ∃ code c,
    couponCode data = Some code ∧ coupons db !! code = Some c
    ∧ coupon_isActive c = true ∧ g_date genv < coupon_expiresAt c
    ∧ 0 < coupon_usageLimit c ∧ coupon_usageLimit c ≤ coupon_usageCount c.
Proof.
  unfold couponOutcome. destruct (couponCode data) as [code|]; [|done].
  destruct (negb (truthy code)); [done|].
  destruct (coupons db !! code) as [c|] eqn:Hc; [|done].
  destruct (coupon_isActive c) eqn:Hact; [|done].
  destruct (bool_decide (g_date genv < coupon_expiresAt c)) eqn:Hd; [|done].
  destruct (bool_decide (0 < coupon_usageLimit c)) eqn:H0; [|done].
  destruct (bool_decide (coupon_usageLimit c ≤ coupon_usageCount c)) eqn:H1;
    [|done].
  intros _. exists code, c.
  apply bool_decide_eq_true in Hd. apply bool_decide_eq_true in H0.
  apply bool_decide_eq_true in H1. by repeat split.
Qed.

Lemma processGroup_coupons genv userId data s g db :
  coupons (fst (processGroup genv userId data s g db)) =
    match couponOutcome genv data db with
    | Applied code _ => alter incrementUsage code (coupons db)
    | _ => coupons db
    end.
Proof.
  rewrite processGroup_run.
  destruct (couponOutcome genv data db); rewrite ?txResult_cases;
    try destruct (rejects _ _); done.
Qed.

(** A group with a rejected write leaves no row behind, and the coupon use
    counted before its transaction stays counted. *)
Lemma processGroup_rejected genv userId data s g db :
  rejects (g_fail genv) (length g) = true →
  (∃ e, snd (processGroup genv userId data s g db) = inl e)
  ∧ orders (fst (processGroup genv userId data s g db)) = orders db
  ∧ orderItems (fst (processGroup genv userId data s g db)) = orderItems db
  ∧ coupons (fst (processGroup genv userId data s g db)) =
      match couponOutcome genv data db with
      | Applied code _ => alter incrementUsage code (coupons db)
      | _ => coupons db
      end.
Proof.
  intros Hrej. rewrite processGroup_run.
  destruct (couponOutcome genv data db); rewrite ?txResult_cases, ?Hrej;
    (split; [by eexists | done]).
Qed.

(** ** The discount *)

Lemma Math_max_l (a b : Qc) : (b ≤ a)%Qc → Math_max a b = a.
Proof.
  intros H. unfold Math_max. destruct (decide (a ≤ b)%Qc); [|done].
  by apply Qcle_antisym.
Qed.

Lemma Math_max_r (a b : Qc) : (a ≤ b)%Qc → Math_max a b = b.
Proof. intros H. unfold Math_max. by destruct (decide (a ≤ b)%Qc). Qed.

Lemma num_0 : num 0 = 0%Qc.
Proof. apply Z2Qc_inj_0. Qed.

Lemma num_le (a b : Z) : a ≤ b → (num a ≤ num b)%Qc.
Proof. intros H. exact (proj1 (Z2Qc_inj_le a b) H). Qed.

Lemma num_lt (a b : Z) : a < b → (num a < num b)%Qc.
Proof. intros H. exact (proj1 (Z2Qc_inj_lt a b) H). Qed.

Lemma storeTotal_from acc storeItems :
  (0 ≤ acc)%Qc →
  Forall (λ si, (0 ≤ si_price si)%Qc ∧ 0 ≤ si_quantity si) storeItems →
  (0 ≤ fold_left (λ sum item, sum + si_price item * num (si_quantity item))%Qc
         storeItems acc)%Qc.
Proof.
  intros Hacc Hall. revert acc Hacc.
  induction Hall as [|si l [Hp Hq] _ IH]; intros acc Hacc; simpl; [done|].
  apply IH. apply Qcplus_nonneg_nonneg; [done|].
  apply Qcmult_nonneg_nonneg; [done|].
  rewrite <- num_0. by apply num_le.
Qed.

Lemma storeTotal_nonneg storeItems :
  Forall (λ si, (0 ≤ si_price si)%Qc ∧ 0 ≤ si_quantity si) storeItems →
  (0 ≤ storeTotal storeItems)%Qc.
Proof. apply storeTotal_from. by rewrite num_0. Qed.

Lemma percentage_nonneg (S d : Qc) :
  (0 ≤ S)%Qc → (d ≤ num 100)%Qc → (0 ≤ S * (1 - d / num 100))%Qc.
Proof.
  intros HS Hd. apply Qcmult_nonneg_nonneg; [done|].
  assert (Hpos : (0 < num 100)%Qc) by (rewrite <- num_0; by apply num_lt).
  assert (Hle : (d / num 100 ≤ 1)%Qc).
  { apply (Qcmult_le_mono_pos_r _ _ (num 100) Hpos).
    rewrite Qcmult_1_l. unfold Qcdiv. rewrite <- Qcmult_assoc.
    rewrite (Qcmult_comm (/ num 100)), Qcmult_inv_r, Qcmult_1_r; [done|].
    intros E. rewrite E in Hpos. by apply Qclt_not_eq in Hpos. }
  apply Qcle_minus_iff in Hle. exact Hle.
Qed.

Lemma storeTotal_lineSum storeItems : storeTotal storeItems = lineSum storeItems.
Proof.
  unfold storeTotal. rewrite num_0.
  assert (H : ∀ acc,
    fold_left (λ sum item, sum + si_price item * num (si_quantity item))%Qc
              storeItems acc = (acc + lineSum storeItems)%Qc).
  { induction storeItems as [|si l IH]; intros acc; simpl.
    - by rewrite Qcplus_0_r.
    - rewrite IH. ring. }
  rewrite H. by rewrite Qcplus_0_l.
Qed.

(** C3.  When the coupon block of a store group applies a coupon (the order
    of the group is marked [isCouponUsed]), the order's total is computed
    from the group's pre-discount subtotal S: S*(1 - d/100) for a
    PERCENTAGE coupon of discount d, which is not negative when d <= 100
    (the subtotal of items with non-negative price and quantity is not
    negative), and max(0, S - f) for a FIXED coupon of discount f. *)
Theorem coupon_discount_formula genv userId data storeId storeItems db db' o :
  processGroup genv userId data storeId storeItems db = (db', inr o) →
  order_isCouponUsed o = true →
  ∃ code coupon,
    couponCode data = Some code ∧ coupons db !! code = Some coupon ∧
    let S := storeTotal storeItems in
    let d := coupon_discount coupon in
    match coupon_discountType coupon with
    | PERCENTAGE =>
        order_total o = (S * (1 - d / num 100))%Qc
        ∧ (Forall (λ si, (0 ≤ si_price si)%Qc ∧ 0 ≤ si_quantity si) storeItems →
           (d ≤ num 100)%Qc → (0 ≤ order_total o)%Qc)
    | FIXED =>
        ((d ≤ S)%Qc → order_total o = (S - d)%Qc)
        ∧ ((S ≤ d)%Qc → order_total o = 0%Qc)
        ∧ (0 ≤ order_total o)%Qc
    end.
Proof.
  intros Hrun Hused. rewrite processGroup_run in Hrun.
  unfold couponOutcome in Hrun.
  destruct (couponCode data) as [code|] eqn:Hcode.
  2:{ unfold txResult in Hrun. destruct (rejects _ _); [done|].
      injection Hrun as _ <-. done. }
  destruct (negb (truthy code)).
  { unfold txResult in Hrun. destruct (rejects _ _); [done|].
    injection Hrun as _ <-. done. }
  destruct (coupons db !! code) as [c|] eqn:Hc.
  2:{ unfold txResult in Hrun. destruct (rejects _ _); [done|].
      injection Hrun as _ <-. done. }
  destruct (coupon_isActive c && bool_decide (g_date genv < coupon_expiresAt c)).
  2:{ unfold txResult in Hrun. destruct (rejects _ _); [done|].
      injection Hrun as _ <-. done. }
  destruct (bool_decide (0 < coupon_usageLimit c)
            && bool_decide (coupon_usageLimit c ≤ coupon_usageCount c)); [done|].
  unfold txResult in Hrun. destruct (rejects _ _); [done|].
  injection Hrun as _ <-. exists code, c. split; [done|]. split; [done|].
  simpl. unfold discounted. destruct (coupon_discountType c).
  - split; [done|]. intros Hall Hd.
    apply percentage_nonneg; [by apply storeTotal_nonneg | done].
  - rewrite num_0. split; [|split].
    + intros Hle. apply Math_max_r. by apply Qcle_minus_iff in Hle.
    + intros Hle. apply Math_max_l.
      apply Qcle_minus_iff. apply Qcle_minus_iff in Hle.
      replace (0 + - (storeTotal storeItems - coupon_discount c))%Qc
        with (coupon_discount c + - storeTotal storeItems)%Qc by ring.
      done.
    + unfold Math_max. destruct (decide _) as [H|H]; [done|by apply Qcle_refl].
Qed.

Lemma coupon_discount_formula_witness :
  ∃ code coupon,
    couponCode withCoupon = Some code ∧ coupons shopDb !! code = Some coupon ∧
    let S := storeTotal [mkStoreItem "productA" 2 (num 100) "S1"] in
    let d := coupon_discount coupon in
    let o := newOrder (calmEnv 0%nat) "u1" withCoupon "S1"
               (discounted (save10 1000 0) S) true in
    match coupon_discountType coupon with
    | PERCENTAGE =>
        order_total o = (S * (1 - d / num 100))%Qc
        ∧ (Forall (λ si, (0 ≤ si_price si)%Qc ∧ 0 ≤ si_quantity si)
                  [mkStoreItem "productA" 2 (num 100) "S1"] →
           (d ≤ num 100)%Qc → (0 ≤ order_total o)%Qc)
    | FIXED =>
        ((d ≤ S)%Qc → order_total o = (S - d)%Qc)
        ∧ ((S ≤ d)%Qc → order_total o = 0%Qc)
        ∧ (0 ≤ order_total o)%Qc
    end.
Proof.
  apply (coupon_discount_formula (calmEnv 0%nat) "u1" withCoupon "S1"
           [mkStoreItem "productA" 2 (num 100) "S1"] shopDb
           (fst (processGroup (calmEnv 0%nat) "u1" withCoupon "S1"
                   [mkStoreItem "productA" 2 (num 100) "S1"] shopDb)));
    [by vm_compute | reflexivity].
Defined.

(** ** Validation and grouping of the cart *)

Lemma groupItems_valid items m db :
  Forall (validItem db) items →
  groupItems items m db = (db, inr (grouping (tagged db items) m)).
Proof.
  intros Hall. revert m. induction Hall as [|item rest Hv _ IH]; intros m; [done|].
  cbn [groupItems]. rewrite bind_get. unfold validItem in Hv.
  unfold tagged, ownerStore at 1. simpl.
  destruct (products db !! ci_productId item) as [p|]; [|done].
  destruct Hv as [-> Hp]. simpl. rewrite bool_decide_eq_true_2 by done. simpl.
  rewrite IH. reflexivity.
Qed.

Lemma groupItems_first_invalid good bad rest m db :
  Forall (validItem db) good → ¬ validItem db bad →
  groupItems (good ++ bad :: rest) m db = (db, inl (itemError db bad)).
Proof.
  intros Hall Hbad. revert m. induction Hall as [|item l Hv _ IH]; intros m.
  - cbn [app groupItems]. rewrite bind_get. unfold validItem in Hbad.
    unfold itemError.
    destruct (products db !! ci_productId bad) as [p|]; [|done].
    destruct (product_inStock p); simpl; [|done].
    rewrite bool_decide_eq_false_2; [done|]. intros E. by apply Hbad.
  - cbn [app groupItems]. rewrite bind_get. unfold validItem in Hv.
    destruct (products db !! ci_productId item) as [p|]; [|done].
    destruct Hv as [-> Hp]. simpl. rewrite bool_decide_eq_true_2 by done. simpl.
    apply IH.
Qed.

(** The validation loop only reads. *)
Lemma groupItems_pure items m db : fst (groupItems items m db) = db.
Proof.
  revert m. induction items as [|item rest IH]; intros m; [done|].
  cbn [groupItems]. rewrite bind_get.
  destruct (products db !! ci_productId item) as [p|]; [|done].
  destruct (negb (product_inStock p)); [done|].
  destruct (negb (bool_decide (product_price p = ci_price item))); [done|].
  apply IH.
Qed.

Lemma groupItems_throws_AppError items m db db1 e :
  groupItems items m db = (db1, inl e) → e ≠ PrismaError.
Proof.
  revert m. induction items as [|item rest IH]; intros m; [done|].
  cbn [groupItems]. rewrite bind_get.
  destruct (products db !! ci_productId item) as [p|]; [|by intros [= _ <-]].
  destruct (negb (product_inStock p)); [by intros [= _ <-]|].
  destruct (negb (bool_decide (product_price p = ci_price item)));
    [by intros [= _ <-]|].
  apply IH.
Qed.

Lemma first_invalid db items :
  Exists (λ item, ¬ validItem db item) items →
  ∃ good bad rest,
    items = good ++ bad :: rest ∧ Forall (validItem db) good ∧ ¬ validItem db bad.
Proof.
  induction items as [|item items IH]; intros Hex.
  - by apply Exists_nil in Hex.
  - destruct (decide (validItem db item)) as [Hv|Hv].
    + apply Exists_cons in Hex as [Hex|Hex]; [done|].
      destruct (IH Hex) as (good & bad & rest & -> & Hg & Hb).
      exists (item :: good), bad, rest. split; [done|]. split; [|done].
      by constructor.
    + exists [], item, items. by repeat split.
Qed.

(** Keys and values of the map after one round. *)
Lemma elem_of_cons_ne {A} (x y : A) (l : list A) : x ≠ y → x ∈ y :: l ↔ x ∈ l.
Proof.
  intros Hne. rewrite elem_of_cons. split; [|by right].
  intros [E|H]; [by destruct Hne | done].
Qed.

Lemma Map_has_elem m k : Map_has m k = bool_decide (k ∈ fst <$> m).
Proof.
  induction m as [|[k' v] m IH]; cbn [Map_has fmap list_fmap fst].
  - symmetry. apply bool_decide_eq_false. apply not_elem_of_nil.
  - destruct (decide (k = k')) as [->|Hne].
    + symmetry. apply bool_decide_eq_true. apply elem_of_cons. by left.
    + rewrite IH. apply bool_decide_ext. by rewrite elem_of_cons_ne.
Qed.

Lemma file_keys m si :
  fst <$> (file m si) =
    (fst <$> m) ++ (if bool_decide (si_storeId si ∈ fst <$> m)
                  then [] else [si_storeId si]).
Proof.
  unfold file. rewrite Map_has_elem.
  induction m as [|[k v] m IH].
  - rewrite bool_decide_eq_false_2 by apply not_elem_of_nil. cbn.
    by rewrite decide_True.
  - destruct (decide (si_storeId si = k)) as [E|Hne].
    + rewrite bool_decide_eq_true_2 by (cbn; rewrite E; apply elem_of_cons; by left).
      cbn. rewrite decide_True by done. cbn. by rewrite app_nil_r.
    + assert (Hiff : bool_decide (si_storeId si ∈ fst <$> ((k, v) :: m))
                     = bool_decide (si_storeId si ∈ fst <$> m)).
      { apply bool_decide_ext. cbn. by rewrite elem_of_cons_ne. }
      rewrite Hiff. revert IH.
      destruct (bool_decide (si_storeId si ∈ fst <$> m)); intros IH; cbn in *;
        repeat (rewrite decide_False by done; cbn); by rewrite IH.
Qed.

Lemma file_get m si k :
  Map_get (file m si) k =
    Map_get m k ++ (if decide (si_storeId si = k) then [si] else []).
Proof.
  unfold file. rewrite Map_has_elem.
  induction m as [|[k' v] m IH].
  - rewrite bool_decide_eq_false_2 by apply not_elem_of_nil. cbn.
    rewrite (decide_True (P := si_storeId si = si_storeId si)) by done. cbn.
    destruct (decide (k = si_storeId si)) as [->|Hne].
    + by rewrite decide_True.
    + by rewrite decide_False.
  - destruct (decide (si_storeId si = k')) as [E|Hne].
    + rewrite bool_decide_eq_true_2 by (cbn; rewrite E; apply elem_of_cons; by left).
      cbn. rewrite (decide_True (P := si_storeId si = k')) by done. cbn.
      destruct (decide (k = k')) as [->|Hk].
      * by rewrite decide_True.
      * rewrite decide_False by congruence. by rewrite app_nil_r.
    + assert (Hiff : bool_decide (si_storeId si ∈ fst <$> ((k', v) :: m))
                     = bool_decide (si_storeId si ∈ fst <$> m)).
      { apply bool_decide_ext. cbn. by rewrite elem_of_cons_ne. }
      rewrite Hiff. revert IH.
      destruct (bool_decide (si_storeId si ∈ fst <$> m)); intros IH; cbn in *;
        repeat (rewrite (decide_False (P := si_storeId si = k')) by done; cbn);
        destruct (decide (k = k')) as [->|Hk].
      * rewrite decide_False by done. by rewrite app_nil_r.
      * apply IH.
      * rewrite decide_False by done. by rewrite app_nil_r.
      * apply IH.
Qed.

Lemma grouping_keys_NoDup sis m :
  NoDup (fst <$> m) → NoDup (fst <$> (grouping sis m)).
Proof.
  revert m. induction sis as [|si sis IH]; intros m Hm; [done|].
  apply IH. rewrite file_keys.
  destruct (bool_decide (si_storeId si ∈ fst <$> m)) eqn:Hb.
  - by rewrite app_nil_r.
  - apply bool_decide_eq_false in Hb. apply NoDup_app. split; [done|].
    split; [|apply NoDup_singleton].
    intros x Hx Hx'. apply list_elem_of_singleton in Hx'. by subst.
Qed.

Lemma grouping_keys sis m s :
  s ∈ fst <$> (grouping sis m) ↔
  s ∈ fst <$> m ∨ ∃ si, si ∈ sis ∧ si_storeId si = s.
Proof.
  revert m. induction sis as [|si sis IH]; intros m.
  - simpl. split; [by left|]. intros [H|(si & H & _)]; [done|].
    by apply elem_of_nil in H.
  - cbn [grouping fold_left]. fold (grouping sis (file m si)).
    rewrite IH, file_keys, elem_of_app. split.
    + intros [[H|H]|(x & Hx & Hs)].
      * by left.
      * right. exists si. split; [apply elem_of_cons; by left|].
        destruct (bool_decide _); [by apply elem_of_nil in H|].
        by apply list_elem_of_singleton in H.
      * right. exists x. split; [apply elem_of_cons; by right | done].
    + intros [H|(x & Hx & Hs)]; [by left; left|].
      apply elem_of_cons in Hx as [->|Hx].
      * left. destruct (bool_decide (si_storeId si ∈ fst <$> m)) eqn:Hb.
        -- left. apply bool_decide_eq_true in Hb. by rewrite <- Hs.
        -- right. apply list_elem_of_singleton. done.
      * right. by exists x.
Qed.

Lemma grouping_get sis m s :
  Map_get (grouping sis m) s =
  Map_get m s ++ filter (λ si, si_storeId si = s) sis.
Proof.
  revert m. induction sis as [|si sis IH]; intros m.
  - simpl. by rewrite app_nil_r.
  - cbn [grouping fold_left]. fold (grouping sis (file m si)).
    rewrite IH, file_get, filter_cons, <- app_assoc.
    by destruct (decide (si_storeId si = s)).
Qed.

Lemma Map_get_elem m s g :
  NoDup (fst <$> m) → (s, g) ∈ m → Map_get m s = g.
Proof.
  induction m as [|[k v] m IH]; intros Hnd Hin.
  - by apply elem_of_nil in Hin.
  - simpl in Hnd. apply NoDup_cons in Hnd as [Hk Hnd]. simpl.
    apply elem_of_cons in Hin as [E|Hin].
    + injection E as -> ->. by rewrite decide_True.
    + rewrite decide_False; [by apply IH|].
      intros ->. apply Hk. apply list_elem_of_fmap. by exists (k, g).
Qed.

(** The groups of a cart: one entry per store represented, holding the
    cart's items of that store. *)
Lemma grouping_spec db items :
  let groups := grouping (tagged db items) [] in
  NoDup (fst <$> groups)
  ∧ (∀ s, s ∈ fst <$> groups ↔ ∃ item, item ∈ items ∧ ownerStore db item = s)
  ∧ (∀ s g, (s, g) ∈ groups → g = storeGroup db items s).
Proof.
  intros groups. assert (Hnd : NoDup (fst <$> groups)).
  { apply grouping_keys_NoDup. constructor. }
  split; [done|]. split.
  - intros s. unfold groups. rewrite grouping_keys. split.
    + intros [H|(si & Hsi & Hs)]; [by apply elem_of_nil in H|].
      unfold tagged in Hsi. apply list_elem_of_fmap in Hsi as (item & -> & Hin).
      by exists item.
    + intros (item & Hin & Hs). right.
      exists (withStore item (ownerStore db item)). split; [|done].
      unfold tagged. apply list_elem_of_fmap. by exists item.
  - intros s g Hin. rewrite <- (Map_get_elem groups s g Hnd Hin).
    unfold groups. by rewrite grouping_get.
Qed.

Lemma grouping_nonempty si sis : grouping (si :: sis) [] ≠ [].
Proof.
  intros E. assert (H : si_storeId si ∈ fst <$> (grouping (si :: sis) [])).
  { apply grouping_keys. right. exists si. split; [|done].
    apply elem_of_cons. by left. }
  rewrite E in H. by apply elem_of_nil in H.
Qed.


(** [createOrder] on a valid, non-empty cart: the loop over the groups of
    the cart, then the cart reset. *)
Lemma createOrder_valid_cart env userId data db user cart :
  users db !! userId = Some user →
  user_cart user = Some cart →
  cart_items cart ≠ [] →
  Forall (validItem db) (cart_items cart) →
  createOrder env userId data db =
    match orderLoop env 0 userId data
            (grouping (tagged db (cart_items cart)) []) [] db with
    | (db2, inl e) => (db2, inl e)
    | (db2, inr created) =>
        (setCart userId emptyCart db2,
         inr (match created with [o] => Single o | _ => Many created end))
    end.
Proof.
  intros Hu Hc Hne Hvalid. rewrite createOrder_stages, Hu, Hc.
  change (default emptyCart (Some cart)) with cart.
  destruct (cart_items cart) as [|item items] eqn:Hitems; [done|].
  rewrite <- Hitems in Hvalid |- *. by rewrite groupItems_valid.
Qed.


(** ** What a run of the loop leaves alone *)

Lemma sameCatalog_refl db : sameCatalog db db.
Proof. done. Qed.

Lemma sameCatalog_trans db1 db2 db3 :
  sameCatalog db1 db2 → sameCatalog db2 db3 → sameCatalog db1 db3.
Proof. intros (?&?&?) (?&?&?). repeat split; congruence. Qed.

Lemma processGroup_catalog genv userId data storeId storeItems db :
  sameCatalog db (fst (processGroup genv userId data storeId storeItems db)).
Proof.
  rewrite processGroup_run.
  destruct (couponOutcome genv data db); rewrite ?txResult_cases;
    try destruct (rejects _ _); done.
Qed.

Lemma orderLoop_catalog env userId data groups i acc db :
  sameCatalog db (fst (orderLoop env i userId data groups acc db)).
Proof.
  revert i acc db. induction groups as [|[s g] groups IH]; intros i acc db; [done|].
  cbn [orderLoop]. unfold bind at 1.
  pose proof (processGroup_catalog (env i) userId data s g db) as Hc.
  destruct (processGroup (env i) userId data s g db) as [db1 [e|o]]; [done|].
  eapply sameCatalog_trans; [exact Hc | apply IH].
Qed.

(** A failed [createOrder] leaves the [users] table, the cart with it,
    as it was. *)
Lemma createOrder_fail_users env userId data db db' e :
  createOrder env userId data db = (db', inl e) → users db' = users db.
Proof.
  unfold createOrder. rewrite bind_get.
  destruct (users db !! userId) as [user|]; [|by intros [= <- _]].
  destruct (cart_items _) as [|item items] eqn:Hitems; [by intros [= <- _]|].
  unfold bind at 1.
  pose proof (groupItems_pure (item :: items) [] db) as Hp.
  destruct (groupItems (item :: items) [] db) as [db1 [e1|groups]].
  { intros [= <- _]. by rewrite <- Hp. }
  simpl in Hp. subst db1. unfold bind at 1.
  pose proof (orderLoop_catalog env userId data groups 0 [] db) as (Hu & _).
  destruct (orderLoop env 0 userId data groups [] db) as [db2 [e2|created]].
  - intros [= <- _]. exact Hu.
  - rewrite bind_modify. intros [= _ ?].
Qed.

(** C2.  When the cart holds an item whose product is missing, out of
    stock, or priced differently from the cart, [createOrder] throws the
    error of the first such item (404 for a missing product, 400 otherwise)
    and the store is exactly as before: no order, no order item, the same
    cart.  Whenever [createOrder] throws, for any reason, the stored cart
    is as it was: the cart is emptied only on the path that processed
    every group. *)
Theorem invalid_cart_rejected :
  (∀ env userId data db user cart,
     users db !! userId = Some user →
     user_cart user = Some cart →
     Exists (λ item, ¬ validItem db item) (cart_items cart) →
     ∃ bad,
       bad ∈ cart_items cart ∧ ¬ validItem db bad
       ∧ createOrder env userId data db = (db, inl (itemError db bad))
       ∧ match products db !! ci_productId bad with
         | None => itemError db bad =
                     AppError ("Product " +:+ ci_productId bad +:+ " not found") 404
         | Some _ => ∃ msg, itemError db bad = AppError msg 400
         end)
  ∧ (∀ env userId data db db' e,
       createOrder env userId data db = (db', inl e) → users db' = users db).
Proof.
  split; [|apply createOrder_fail_users].
  intros env userId data db user cart Hu Hc Hex.
  destruct (first_invalid db _ Hex) as (good & bad & rest & Hitems & Hg & Hb).
  exists bad. split; [rewrite Hitems; apply elem_of_app; right; apply elem_of_cons; by left|].
  split; [done|]. split.
  - unfold createOrder. rewrite bind_get, Hu, Hc. 
    destruct (cart_items cart) as [|i0 l0] eqn:E; [by destruct good|].
    rewrite Hitems. unfold bind at 1.
    by rewrite groupItems_first_invalid.
  - unfold itemError. destruct (products db !! ci_productId bad) as [p|]; [|done].
    destruct (negb (product_inStock p)); by eexists.
Qed.

Lemma invalid_cart_rejected_witness :
  ∃ bad,
    bad ∈ cart_items cartAB ∧ ¬ validItem repricedDb bad
    ∧ createOrder calmEnv "u1" withCoupon repricedDb =
        (repricedDb, inl (itemError repricedDb bad))
    ∧ match products repricedDb !! ci_productId bad with
      | None => itemError repricedDb bad =
                  AppError ("Product " +:+ ci_productId bad +:+ " not found") 404
      | Some _ => ∃ msg, itemError repricedDb bad = AppError msg 400
      end.
Proof.
  apply (proj1 invalid_cart_rejected calmEnv "u1" withCoupon repricedDb
           buyerAB cartAB); [reflexivity | reflexivity |].
  apply Exists_cons_tl, Exists_cons_hd. intros [_ H]. by vm_compute in H.
Defined.

(** ** A run of the loop that returns *)

Lemma rulesKept_refl cs : rulesKept cs cs.
Proof. intros code c H. by exists c. Qed.

Lemma rulesKept_increment cs code :
  rulesKept cs (alter incrementUsage code cs).
Proof.
  intros k c1 H. rewrite lookup_alter in H.
  destruct (decide (code = k)) as [->|Hne].
  - destruct (cs !! k) as [c0|] eqn:Hc; [|done]. simpl in H.
    injection H as <-. by exists c0.
  - by exists c1.
Qed.

Lemma rulesKept_trans cs1 cs2 cs3 :
  rulesKept cs1 cs2 → rulesKept cs2 cs3 → rulesKept cs1 cs3.
Proof.
  intros H12 H23 code c3 Hc3.
  destruct (H23 code c3 Hc3) as (c2 & Hc2 & Hd2).
  destruct (H12 code c2 Hc2) as (c1 & Hc1 & Hd1).
  exists c1. split; [done|]. intros S. by rewrite Hd2.
Qed.

Lemma processGroup_success genv userId data s g db db1 o :
  processGroup genv userId data s g db = (db1, inr o) →
  orderOf genv userId data (coupons db) (s, g) o
  ∧ sameCatalog db db1
  ∧ orders db1 = orders db ++ [o]
  ∧ orderItems db1 = orderItems db ++ (toOrderItem (order_id o) <$> g)
  ∧ rulesKept (coupons db) (coupons db1).
Proof.
  rewrite processGroup_run.
  destruct (couponOutcome genv data db) as [| |code c] eqn:Hout; [|done|];
    rewrite txResult_cases; destruct (rejects _ _); try done;
    intros [= <- <-].
  - split; [|repeat split; by try apply rulesKept_refl].
    eexists _, false. split; [reflexivity|]. by left.
  - apply couponOutcome_Applied in Hout as [Hcode Hc].
    split; [|repeat split; by try apply rulesKept_increment].
    eexists _, true. split; [reflexivity|]. right. split; [done|].
    by exists code, c.
Qed.

Lemma orderOf_rules genv userId data cs cs1 g o :
  rulesKept cs cs1 →
  orderOf genv userId data cs1 g o → orderOf genv userId data cs g o.
Proof.
  intros Hk (total & used & -> & [[-> ->]|(-> & code & c1 & Hcode & Hc & ->)]).
  - eexists _, false. split; [done|]. by left.
  - destruct (Hk code c1 Hc) as (c0 & Hc0 & Hd).
    eexists _, true. split; [reflexivity|]. right. split; [done|].
    exists code, c0. by rewrite Hd.
Qed.

Lemma orderLoop_success env userId data groups i acc db db' out :
  orderLoop env i userId data groups acc db = (db', inr out) →
  ∃ created,
    out = acc ++ created
    ∧ length created = length groups
    ∧ orders db' = orders db ++ created
    ∧ orderItems db' = orderItems db ++ itemRows groups created
    ∧ rulesKept (coupons db) (coupons db')
    ∧ (∀ j g o, groups !! j = Some g → created !! j = Some o →
                orderOf (env (i + j)%nat) userId data (coupons db) g o).
Proof.
  revert i acc db. induction groups as [|[s g] groups IH]; intros i acc db Hrun.
  - injection Hrun as <- <-. exists []. rewrite !app_nil_r.
    repeat split; try done. apply rulesKept_refl.
  - cbn [orderLoop] in Hrun. unfold bind at 1 in Hrun.
    destruct (processGroup (env i) userId data s g db) as [db1 [e|o]] eqn:Hg;
      [done|].
    apply processGroup_success in Hg as (Ho & _ & Hos & His & Hk).
    apply IH in Hrun as (created & -> & Hlen & Hos' & His' & Hk' & Hall).
    exists (o :: created). rewrite <- app_assoc. split; [done|].
    split; [simpl; by rewrite Hlen|].
    split; [by rewrite Hos', Hos, <- app_assoc|].
    split; [rewrite His', His, <- app_assoc; done|].
    split; [by eapply rulesKept_trans|].
    intros [|j] g' o' Hg' Ho'; simpl in Hg', Ho'.
    + injection Hg' as <-. injection Ho' as <-. by rewrite Nat.add_0_r.
    + replace (i + S j)%nat with (S i + j)%nat by lia.
      eapply orderOf_rules; [exact Hk|]. by eapply Hall.
Qed.

Lemma orderOf_totalOf genv userId data cs g o :
  orderOf genv userId data cs g o →
  order_storeId o = fst g ∧ order_userId o = userId
  ∧ order_status o = PENDING ∧ totalOf data cs (snd g) o.
Proof.
  intros (total & used & -> & [[-> ->]|(-> & code & c & Hcode & Hc & ->)]);
    unfold totalOf; simpl; rewrite storeTotal_lineSum; repeat split; try done.
  exists code, c. by repeat split.
Qed.

(** Orders that sit, index by index, on the groups of a cart. *)
Lemma orders_on_groups db items (groups : JsMap) (created : list Order) :
  length created = length groups →
  (∀ s g, (s, g) ∈ groups → g = storeGroup db items s) →
  (∀ j g o, groups !! j = Some g → created !! j = Some o → order_storeId o = fst g) →
  order_storeId <$> created = fst <$> groups
  ∧ itemRows groups created =
      concat ((λ o, toOrderItem (order_id o)
                      <$> storeGroup db items (order_storeId o)) <$> created).
Proof.
  revert groups. induction created as [|o created IH]; intros [|[s g] groups] Hlen Hg Hs;
    try done.
  simpl in Hlen. injection Hlen as Hlen.
  destruct (IH groups Hlen) as [IH1 IH2].
  { intros s' g' Hin. apply Hg. apply elem_of_cons. by right. }
  { intros j g' o' Hj Ho'. by apply (Hs (S j)). }
  pose proof (Hs 0%nat (s, g) o eq_refl eq_refl) as Hso. simpl in Hso.
  pose proof (Hg s g ltac:(apply elem_of_cons; by left)) as Hgs.
  split.
  - cbn. by rewrite IH1, Hso.
  - unfold itemRows in *. cbn. rewrite IH2, Hso. by rewrite <- Hgs.
Qed.

(** The orders of a completed loop over the groups of a cart. *)
Lemma valid_run_shape env userId data db items db2 created :
  orderLoop env 0 userId data (grouping (tagged db items) []) [] db
    = (db2, inr created) →
  orders db2 = orders db ++ created
  ∧ NoDup (order_storeId <$> created)
  ∧ (∀ s, s ∈ order_storeId <$> created ↔
          ∃ item, item ∈ items ∧ ownerStore db item = s)
  ∧ orderItems db2 = orderItems db ++
      concat ((λ o, toOrderItem (order_id o)
                      <$> storeGroup db items (order_storeId o)) <$> created)
  ∧ Forall (λ o, totalOf data (coupons db)
                   (storeGroup db items (order_storeId o)) o) created.
Proof.
  intros Hloop.
  destruct (grouping_spec db items) as (Hnd & Hkeys & Hgroups).
  set (groups := grouping (tagged db items) []) in *.
  apply orderLoop_success in Hloop
    as (created' & Heq & Hlen & Hos & His & _ & Hall).
  simpl in Heq. subst created'.
  assert (Hfacts : ∀ j g o, groups !! j = Some g → created !! j = Some o →
            order_storeId o = fst g ∧ totalOf data (coupons db) (snd g) o).
  { intros j g o Hj Ho. destruct (orderOf_totalOf _ _ _ _ _ _ (Hall j g o Hj Ho))
      as (H1 & _ & _ & H2). done. }
  destruct (orders_on_groups db items groups created Hlen Hgroups)
    as [Hstores Hrows].
  { intros j g o Hj Ho. by destruct (Hfacts j g o Hj Ho). }
  split; [done|]. split; [by rewrite Hstores|].
  split; [intros s; by rewrite Hstores|].
  split; [by rewrite His, Hrows|].
  apply Forall_lookup. intros j o Ho.
  destruct (lookup_lt_is_Some_2 groups j) as [[s g] Hj].
  { rewrite <- Hlen. by eapply lookup_lt_Some. }
  destruct (Hfacts j (s, g) o Hj Ho) as [Hs Ht]. simpl in Hs, Ht.
  rewrite Hs. rewrite <- (Hgroups s g); [done|].
  by eapply list_elem_of_lookup_2.
Qed.

(** Why the loop throws, with the state of the coupon when it is the
    coupon. *)
Lemma orderLoop_failure_cases env userId data groups i acc db db' e :
  orderLoop env i userId data groups acc db = (db', inl e) →
  (e = limitError
   ∧ ∃ code c j,
       couponCode data = Some code ∧ coupons db' !! code = Some c
       ∧ coupon_isActive c = true ∧ g_date (env j) < coupon_expiresAt c
       ∧ 0 < coupon_usageLimit c ∧ coupon_usageLimit c ≤ coupon_usageCount c)
  ∨ (e = PrismaError
     ∧ ∃ j g, groups !! j = Some g
              ∧ rejects (g_fail (env (i + j)%nat)) (length (snd g)) = true).
Proof.
  revert i acc db. induction groups as [|[s g] groups IH]; intros i acc db Hrun;
    [done|].
  rewrite orderLoop_cons in Hrun.
  destruct (processGroup (env i) userId data s g db) as [db1 [e1|o]] eqn:Hg.
  - injection Hrun as <- <-. rewrite processGroup_run in Hg.
    destruct (couponOutcome (env i) data db) eqn:Hout;
      rewrite ?txResult_cases in Hg;
      try (destruct (rejects _ _) eqn:Hrej; [|done]);
      injection Hg as <- <-.
    + right. split; [done|]. exists 0%nat, (s, g). by rewrite Nat.add_0_r.
    + left. split; [done|].
      apply couponOutcome_LimitExceeded in Hout as (code & c & H).
      by exists code, c, i.
    + right. split; [done|]. exists 0%nat, (s, g). by rewrite Nat.add_0_r.
  - apply IH in Hrun as [H|(-> & j & g' & Hj & Hrej)]; [by left|].
    right. split; [done|]. exists (S j), g'. split; [done|].
    by replace (i + S j)%nat with (S i + j)%nat by lia.
Qed.




(** ** A coupon that applies to every group *)

Lemma bump_0 c : bump 0 c = c.
Proof. destruct c. unfold bump. simpl. f_equal. lia. Qed.





(** ** The usage limit *)

Lemma processGroup_withinLimits genv userId data s g db :
  withinLimits db → withinLimits (fst (processGroup genv userId data s g db)).
Proof.
  intros Hin code c. rewrite processGroup_coupons.
  destruct (couponOutcome genv data db) as [| |k ck] eqn:Hout; try apply Hin.
  rewrite lookup_alter. destruct (decide (k = code)) as [->|Hne]; [|apply Hin].
  destruct (couponOutcome_Applied _ _ _ _ _ Hout) as [_ Hk].
  apply couponOutcome_room in Hout. rewrite Hk. simpl. intros [= <-]. simpl.
  lia.
Qed.

Lemma orderLoop_withinLimits env userId data groups i acc db :
  withinLimits db →
  withinLimits (fst (orderLoop env i userId data groups acc db)).
Proof.
  revert i acc db. induction groups as [|[s g] groups IH]; intros i acc db Hin;
    [done|].
  cbn [orderLoop]. unfold bind at 1.
  pose proof (processGroup_withinLimits (env i) userId data s g db Hin) as H1.
  destruct (processGroup (env i) userId data s g db) as [db1 [e|o]]; [done|].
  by apply IH.
Qed.

Lemma createOrder_withinLimits env userId data db :
  withinLimits db → withinLimits (fst (createOrder env userId data db)).
Proof.
  intros Hin. unfold createOrder. rewrite bind_get.
  destruct (users db !! userId) as [user|]; [|done].
  destruct (cart_items _) as [|item items]; [done|].
  unfold bind at 1.
  pose proof (groupItems_pure (item :: items) [] db) as Hp.
  destruct (groupItems (item :: items) [] db) as [db1 [e1|groups]];
    simpl in Hp; subst db1; [done|].
  unfold bind at 1.
  pose proof (orderLoop_withinLimits env userId data groups 0 [] db Hin) as H2.
  destruct (orderLoop env 0 userId data groups [] db) as [db2 [e2|created]];
    [done|].
  rewrite bind_modify. exact H2.
Qed.

(** C4.  When the coupon named in the request is active and unexpired but
    has a limit that is reached ([usageLimit > 0] and [usageCount >=
    usageLimit]), [createOrder] throws and the store is exactly as before:
    no group got the discount and the counter did not move; for an existing
    user with a non-empty valid cart the error is the 400 "Coupon usage
    limit exceeded".  Consequently, over any sequence of [createOrder]
    calls, no coupon with [usageLimit > 0] gets a [usageCount] above its
    limit. *)
Theorem exhausted_coupon_rejected :
  (∀ env userId data db code c,
     couponCode data = Some code → code ≠ "" →
     coupons db !! code = Some c →
     coupon_isActive c = true →
     g_date (env 0%nat) < coupon_expiresAt c →
     0 < coupon_usageLimit c → coupon_usageLimit c ≤ coupon_usageCount c →
     ∃ e, createOrder env userId data db = (db, inl e)
          ∧ (∀ user cart,
               users db !! userId = Some user → user_cart user = Some cart →
               cart_items cart ≠ [] → Forall (validItem db) (cart_items cart) →
               e = AppError "Coupon usage limit exceeded" 400))
  ∧ (∀ calls db, withinLimits db → withinLimits (runCalls calls db)).
Proof.
  split.
  - intros env userId data db code c Hcode Hne Hc Hact Hdate H0 Hlim.
    unfold createOrder. rewrite bind_get.
    destruct (users db !! userId) as [user|] eqn:Hu.
    2:{ eexists. split; [done|]. intros; congruence. }
    destruct (user_cart user) as [cart|] eqn:Hcart.
    2:{ eexists. split; [done|]. intros; congruence. }
    destruct (cart_items cart) as [|item items] eqn:Hitems.
    { eexists. split; [done|]. intros; congruence. }
    rewrite <- Hitems. unfold bind at 1.
    destruct (decide (Forall (validItem db) (cart_items cart))) as [Hv|Hv].
    + rewrite groupItems_valid by done.
      destruct (grouping (tagged db (cart_items cart)) []) as [|[s g] groups]
        eqn:Hgr.
      { rewrite Hitems in Hgr. by apply grouping_nonempty in Hgr. }
      cbn [orderLoop]. unfold bind at 1 2. rewrite processGroup_run.
      rewrite (couponOutcome_exhausted _ _ _ code c) by done.
      eexists. split; [done|]. done.
    + apply not_Forall_Exists in Hv; [|apply _].
      destruct (first_invalid db _ Hv) as (good & bad & rest & Hsplit & Hg & Hb).
      rewrite Hsplit, groupItems_first_invalid by done.
      eexists. split; [done|]. intros user' cart' Hu' Hc' _ Hall.
      assert (cart' = cart) as -> by congruence.
      rewrite Hsplit in Hall. apply Forall_app in Hall as [_ Hall].
      apply Forall_cons in Hall as [Hbad _]. done.
  - intros calls. induction calls as [|call calls IH]; intros db Hin; [done|].
    simpl. apply IH. by apply createOrder_withinLimits.
Qed.

Lemma exhausted_coupon_rejected_witness :
  ∃ e, createOrder calmEnv "u1" withCoupon spentDb = (spentDb, inl e)
       ∧ (∀ user cart,
            users spentDb !! "u1" = Some user → user_cart user = Some cart →
            cart_items cart ≠ [] → Forall (validItem spentDb) (cart_items cart) →
            e = AppError "Coupon usage limit exceeded" 400).
Proof.
  apply (proj1 exhausted_coupon_rejected calmEnv "u1" withCoupon spentDb
           "SAVE10" (save10 5 5)); try reflexivity; try discriminate.
Defined.

(** ** Order numbers *)

Lemma string_of_uint_noDash d : noDash (NilEmpty.string_of_uint d).
Proof. induction d; simpl; (split; [discriminate | assumption]) || exact I. Qed.

Lemma decimal_noDash n : noDash (decimal n).
Proof. apply string_of_uint_noDash. Qed.

Lemma decimal_inj n n' : decimal n = decimal n' → n = n'.
Proof.
  unfold decimal. intros H. apply DecimalN.Unsigned.to_uint_inj.
  pose proof (NilEmpty.usu (N.to_uint n)) as H1.
  pose proof (NilEmpty.usu (N.to_uint n')) as H2.
  rewrite H in H1. congruence.
Qed.

(** Two strings without a dash, each followed by a dash and a suffix, are
    equal only part by part. *)
Lemma append_empty s : "" +:+ s = s.
Proof. reflexivity. Qed.

Lemma append_String c a s : String c a +:+ s = String c (a +:+ s).
Proof. reflexivity. Qed.

Lemma split_at_dash a b r r' :
  noDash a → noDash b →
  a +:+ "-" +:+ r = b +:+ "-" +:+ r' → a = b ∧ r = r'.
Proof.
  revert b. induction a as [|c a IH]; intros [|c' b] Ha Hb H;
    rewrite ?append_empty, ?append_String, ?append_empty in H; simpl in Ha, Hb.
  - by injection H as ->.
  - injection H as <- _. by destruct Hb.
  - injection H as -> _. by destruct Ha.
  - injection H as -> H. destruct Ha as [_ Ha], Hb as [_ Hb].
    destruct (IH b Ha Hb H) as [-> ->]. done.
Qed.

Lemma append_cancel p a b : p +:+ a = p +:+ b → a = b.
Proof.
  induction p as [|c p IH]; rewrite ?append_empty, ?append_String; [done|].
  intros H. injection H as H. by apply IH.
Qed.

Lemma orderNumber_inj now random now' random' :
  orderNumber now random = orderNumber now' random' →
  now = now' ∧ random = random'.
Proof.
  unfold orderNumber. intros H. apply append_cancel in H.
  apply split_at_dash in H as [Hd ->]; try apply decimal_noDash.
  split; [by apply decimal_inj | done].
Qed.

Lemma ordersOf_result created :
  ordersOf (match created with [o] => Single o | _ => Many created end) = created.
Proof. by destruct created as [|o [|o' l]]. Qed.

#[global] Instance orderNumber_uncurry_inj :
  Inj (=) (=) (λ d : N * string, orderNumber d.1 d.2).
Proof.
  intros [n r] [n' r'] H. simpl in H.
  by destruct (orderNumber_inj _ _ _ _ H) as [-> ->].
Qed.

(** A successful [createOrder]: the orders it returns, with the number of
    each written out. *)
Lemma createOrder_numbers env userId data db db' r :
  createOrder env userId data db = (db', inr r) →
  order_orderNumber <$> ordersOf r =
    (λ j, orderNumber (g_now (env j)) (g_random (env j)))
      <$> seq 0 (length (ordersOf r)).
Proof.
  unfold createOrder. rewrite bind_get.
  destruct (users db !! userId) as [user|]; [|done].
  destruct (cart_items _) as [|item items]; [done|].
  unfold bind at 1.
  destruct (groupItems (item :: items) [] db) as [db1 [e1|groups]]; [done|].
  unfold bind at 1.
  destruct (orderLoop env 0 userId data groups [] db1) as [db2 [e2|out]] eqn:Hloop;
    [done|].
  rewrite bind_modify. intros [= _ <-]. rewrite ordersOf_result.
  apply orderLoop_success in Hloop as (created & -> & Hlen & _ & _ & _ & Hall).
  simpl. apply list_eq. intros j. rewrite !list_lookup_fmap.
  destruct (created !! j) as [o|] eqn:Ho; simpl.
  - destruct (lookup_lt_is_Some_2 groups j) as [g Hg].
    { rewrite <- Hlen. by eapply lookup_lt_Some. }
    destruct (Hall j g o Hg Ho) as (total & used & -> & _).
    rewrite lookup_seq_lt by (by eapply lookup_lt_Some). done.
  - apply lookup_ge_None in Ho. by rewrite lookup_seq_ge.
Qed.

(** C8 as stated fails.  Nothing in [createOrder] compares an order number
    with another: when the two groups of one call read the same
    millisecond and draw the same suffix, the two orders of the call, for
    different stores, carry the same order number. *)
Lemma order_numbers_counterexample :
  orderNumber (g_now (stuckEnv 0%nat)) (g_random (stuckEnv 0%nat))
    = orderNumber (g_now (stuckEnv 1%nat)) (g_random (stuckEnv 1%nat))
  ∧ ∃ o1 o2,
      snd (createOrder stuckEnv "u1" withoutCoupon shopDb) = inr (Many [o1; o2])
      ∧ order_storeId o1 ≠ order_storeId o2
      ∧ order_orderNumber o1 = order_orderNumber o2.
Proof.
  split; [reflexivity|]. eexists _, _. split; [by vm_compute|].
  split; [discriminate | reflexivity].
Qed.

(** C8, as the code has it.  The order number of a group is "ORD-", the
    millisecond clock reading, "-", and the random suffix; it is determined
    by nothing else and determines both.  So the order numbers of the
    groups of a successful call are pairwise distinct exactly when the
    (clock reading, suffix) pairs drawn for the groups are pairwise
    distinct. *)
Theorem order_numbers_follow_draws env userId data db db' r :
  createOrder env userId data db = (db', inr r) →
  (∀ now random now' random',
     orderNumber now random = orderNumber now' random'
     ↔ now = now' ∧ random = random')
  ∧ order_orderNumber <$> ordersOf r =
      (λ j, orderNumber (g_now (env j)) (g_random (env j)))
        <$> seq 0 (length (ordersOf r))
  ∧ (NoDup (order_orderNumber <$> ordersOf r)
     ↔ NoDup (draw env <$> seq 0 (length (ordersOf r)))).
Proof.
  intros Hrun. split; [|split].
  - intros now random now' random'. split; [apply orderNumber_inj|].
    by intros [-> ->].
  - by eapply createOrder_numbers.
  - rewrite (createOrder_numbers _ _ _ _ _ _ Hrun).
    change (λ j, orderNumber (g_now (env j)) (g_random (env j)))
      with ((λ d : N * string, orderNumber d.1 d.2) ∘ draw env).
    rewrite list_fmap_compose. apply NoDup_fmap. apply _.
Qed.

Lemma order_numbers_follow_draws_witness :
  (∀ now random now' random',
     orderNumber now random = orderNumber now' random'
     ↔ now = now' ∧ random = random')
  ∧ order_orderNumber <$> plainOrders calmEnv =
      (λ j, orderNumber (g_now (calmEnv j)) (g_random (calmEnv j))) <$> seq 0 2
  ∧ (NoDup (order_orderNumber <$> plainOrders calmEnv)
     ↔ NoDup (draw calmEnv <$> seq 0 2)).
Proof.
  apply (order_numbers_follow_draws calmEnv "u1" withoutCoupon shopDb
           (fst (createOrder calmEnv "u1" withoutCoupon shopDb))
           (Many (plainOrders calmEnv))).
  by vm_compute.
Defined.

(** ** A write the store rejects *)

(** The loop stopped by a rejected write: the groups before it are in the
    store, the group of the rejected write is not. *)
Lemma orderLoop_store_error env userId data groups i acc db db' :
  orderLoop env i userId data groups acc db = (db', inl PrismaError) →
  ∃ k g created,
    groups !! k = Some g
    ∧ rejects (g_fail (env (i + k)%nat)) (length (snd g)) = true
    ∧ length created = k
    ∧ orders db' = orders db ++ created
    ∧ orderItems db' = orderItems db ++ itemRows groups created
    ∧ order_storeId <$> created = take k (fst <$> groups).
Proof.
  revert i acc db. induction groups as [|[s g] groups IH]; intros i acc db Hrun;
    [done|].
  cbn [orderLoop] in Hrun. unfold bind at 1 in Hrun.
  destruct (processGroup (env i) userId data s g db) as [db1 [e1|o]] eqn:Hg.
  - injection Hrun as <- ->. exists 0%nat, (s, g), [].
    rewrite processGroup_run in Hg.
    destruct (couponOutcome (env i) data db); rewrite ?txResult_cases in Hg;
      try done; destruct (rejects _ _) eqn:Hrej; try done;
      injection Hg as <-; rewrite Nat.add_0_r, !app_nil_r; by repeat split.
  - pose proof Hg as Hg'.
    apply processGroup_success in Hg as (Ho & _ & Hos & His & _).
    apply IH in Hrun as (k & g' & created & Hk & Hrej & Hlen & Hos' & His' & Hst).
    exists (S k), g', (o :: created). split; [done|].
    split; [by replace (i + S k)%nat with (S i + k)%nat by lia|].
    split; [simpl; by rewrite Hlen|].
    split; [by rewrite Hos', Hos, <- app_assoc|].
    split; [by rewrite His', His, <- app_assoc|].
    destruct Ho as (total & used & -> & _). cbn. by rewrite Hst.
Qed.

(** C9.  The order row and the item rows of a store group are written in
    one transaction: when the store rejects any of these writes the group
    leaves no order and no item row, while the coupon use counted for
    the group before the transaction started stays counted; when the
    transaction returns, the order and all its items are in.  When
    [createOrder] is stopped by a rejected write, the orders and items of
    the groups processed before are in the store, those of the rejected
    group are not, and the cart is as it was.  In the two-store scenario
    with the first item row of the second group rejected: the order of
    store S1 and its item stay, store S2 gets nothing, SAVE10 has been
    counted twice, the cart is kept. *)
Theorem group_transaction_atomic :
  (∀ genv userId data s g db,
     rejects (g_fail genv) (length g) = true →
     (∃ e, snd (processGroup genv userId data s g db) = inl e)
     ∧ orders (fst (processGroup genv userId data s g db)) = orders db
     ∧ orderItems (fst (processGroup genv userId data s g db)) = orderItems db
     ∧ coupons (fst (processGroup genv userId data s g db)) =
         match couponOutcome genv data db with
         | Applied code _ => alter incrementUsage code (coupons db)
         | _ => coupons db
         end)
  ∧ (∀ genv userId data s g db db1 o,
       processGroup genv userId data s g db = (db1, inr o) →
       orders db1 = orders db ++ [o]
       ∧ orderItems db1 = orderItems db ++ (toOrderItem (order_id o) <$> g))
  ∧ (∀ env userId data db db',
       createOrder env userId data db = (db', inl PrismaError) →
       ∃ user groups k g created,
         users db !! userId = Some user
         ∧ groupItems (cart_items (default emptyCart (user_cart user))) [] db
             = (db, inr groups)
         ∧ groups !! k = Some g
         ∧ rejects (g_fail (env k)) (length (snd g)) = true
         ∧ length created = k
         ∧ orders db' = orders db ++ created
         ∧ orderItems db' = orderItems db ++ itemRows groups created
         ∧ order_storeId <$> created = take k (fst <$> groups)
         ∧ users db' = users db)
  ∧ (let db' := fst (createOrder breakEnv "u1" withCoupon shopDb) in
     snd (createOrder breakEnv "u1" withCoupon shopDb) = inl PrismaError
     ∧ order_storeId <$> orders db' = ["S1"]
     ∧ oi_productId <$> orderItems db' = ["productA"]
     ∧ coupon_usageCount <$> coupons db' !! "SAVE10" = Some 2
     ∧ users db' = users shopDb).
Proof.
  split; [apply processGroup_rejected|].
  split.
  { intros genv userId data s g db db1 o Hrun.
    by apply processGroup_success in Hrun as (_ & _ & ? & ? & _). }
  split.
  - intros env userId data db db' Hrun.
    pose proof (createOrder_fail_users _ _ _ _ _ _ Hrun) as Husers.
    unfold createOrder in Hrun. rewrite bind_get in Hrun.
    destruct (users db !! userId) as [user|] eqn:Hu; [|done].
    change (match user_cart user with Some c => c | None => emptyCart end)
      with (default emptyCart (user_cart user)) in Hrun.
    destruct (cart_items (default emptyCart (user_cart user)))
      as [|item items] eqn:Hitems; [done|].
    unfold bind at 1 in Hrun.
    pose proof (groupItems_pure (item :: items) [] db) as Hp.
    destruct (groupItems (item :: items) [] db) as [db1 [e1|groups]] eqn:Hg.
    { injection Hrun as _ ->. by apply groupItems_throws_AppError in Hg. }
    simpl in Hp. subst db1. unfold bind at 1 in Hrun.
    destruct (orderLoop env 0 userId data groups [] db) as [db2 [e2|out]] eqn:Hloop;
      [|by rewrite bind_modify in Hrun].
    injection Hrun as <- ->.
    apply orderLoop_store_error in Hloop
      as (k & g & created & Hk & Hrej & Hlen & Hos & His & Hst).
    exists user, groups, k, g, created. rewrite Hitems.
    by repeat split.
  - cbv zeta. split; [by vm_compute|]. repeat split; by vm_compute.
Qed.

Lemma group_transaction_atomic_witness :
  (∃ e, snd (processGroup (breakEnv 1%nat) "u1" withCoupon "S2"
               (storeGroup shopDb (cart_items cartAB) "S2") shopDb) = inl e)
  ∧ orders (fst (processGroup (breakEnv 1%nat) "u1" withCoupon "S2"
                   (storeGroup shopDb (cart_items cartAB) "S2") shopDb))
      = orders shopDb
  ∧ orderItems (fst (processGroup (breakEnv 1%nat) "u1" withCoupon "S2"
                       (storeGroup shopDb (cart_items cartAB) "S2") shopDb))
      = orderItems shopDb
  ∧ coupons (fst (processGroup (breakEnv 1%nat) "u1" withCoupon "S2"
                    (storeGroup shopDb (cart_items cartAB) "S2") shopDb)) =
      match couponOutcome (breakEnv 1%nat) withCoupon shopDb with
      | Applied code _ => alter incrementUsage code (coupons shopDb)
      | _ => coupons shopDb
      end.
Proof.
  apply (proj1 group_transaction_atomic (breakEnv 1%nat) "u1" withCoupon "S2"
           (storeGroup shopDb (cart_items cartAB) "S2") shopDb).
  reflexivity.
Defined.

(** ** A coupon that cannot apply *)










(** * The cart service and the cache *)

(** ** The cache *)

(** The Redis store, by key family.  Cart entries are written under
    ["cart:<userId>"] with a time to live; rate-limit counters under
    ["<prefix>:<identifier>:<windowStart>"].  The two families never meet:
    no limiter prefix is ["cart"].  A cart entry holds the JSON text of a
    cart and the instant (in milliseconds) at which it expires; a counter
    holds the integer INCR keeps and the instant its EXPIRE set, when one
    was set. *)
Record Redis := mkRedis {
  cartEntries : gmap string (Cart * Z);
  counters : gmap string (Z * option Z) }.

(** [cacheKeys.userCart]. *)
Definition userCartKey (userId : string) : string := "cart:" +:+ userId.

(** [cacheTTL.cart], in seconds. *)
Definition cartTTL : Z := 86400.

(** [cache.get(key)] at time [now]; [up] says whether the Redis call goes
    through (connected, no error).  [None] is [null]. *)
Definition cache_get (up : bool) (now : Z) (key : string) (r : Redis)
  : option Cart :=
  if up then
    match cartEntries r !! key with
    | Some (v, expiresAt) => if bool_decide (now < expiresAt) then Some v else None
    | None => None
    end
  else None.

(** [cache.set(key, value, ttl)]: [setEx] with [ttl] seconds. *)
Definition cache_set (up : bool) (now : Z) (key : string) (v : Cart) (ttl : Z)
    (r : Redis) : Redis :=
  if up then mkRedis (<[key := (v, now + ttl * 1000)]> (cartEntries r)) (counters r)
  else r.

(** [cache.del(key)]. *)
Definition cache_del (up : bool) (key : string) (r : Redis) : Redis :=
  if up then mkRedis (delete key (cartEntries r)) (counters r) else r.

(** What a call of the cart service meets at the cache: whether each Redis
    call goes through, and when it is made. *)
Record CacheEnv := mkCacheEnv {
  getUp : bool;
  getAt : Z;
  setUp : bool;
  setAt : Z;
  delUp : bool }.

(** ** UserService: the cart *)

(** The database and the cache. *)
Definition Sys : Type := Db * Redis.

(** Lines 100-117 of the user service: [updateCart] checks every item
    against the catalog. *)
Fixpoint checkItems (items : list CartItem) : M unit :=
  match items with
  | [] => ret tt
  | item :: rest =>
      db <- get;;
      match products db !! ci_productId item with
      | None =>
          throw (createError ("Product " +:+ ci_productId item +:+ " not found") 404)
      | Some product =>
          if negb (product_inStock product) then
            throw (createError
                     ("Product " +:+ ci_productId item +:+ " is out of stock") 400)
          else if negb (bool_decide (ci_price item = product_price product)) then
            throw (createError
                     ("Price mismatch for product " +:+ ci_productId item) 400)
          else checkItems rest
      end
  end.

(** Line 120: [cartData.items.reduce((sum, item) => sum + item.price * item.quantity, 0)]. *)
Definition cartTotal (items : list CartItem) : Qc :=
  fold_left (λ sum item, sum + ci_price item * num (ci_quantity item))%Qc
            items (num 0).

(** [UserService.updateCart].  [prisma.user.update] on a missing user is an
    error of the data store. *)
Definition updateCart (cenv : CacheEnv) (userId : string) (items : list CartItem)
    (sys : Sys) : Sys * (Thrown + Cart) :=
  let '(db, r) := sys in
  match checkItems items db with
  | (_, inl e) => (sys, inl e)
  | (_, inr _) =>
      let cart := mkCart items (cartTotal items) in
      match users db !! userId with
      | None => (sys, inl PrismaError)
      | Some _ =>
          ((setCart userId cart db,
            cache_set (setUp cenv) (setAt cenv) (userCartKey userId) cart cartTTL r),
           inr cart)
      end
  end.

(** [UserService.getCart]: the cache first, the database otherwise. *)
Definition getCart (cenv : CacheEnv) (userId : string) (sys : Sys)
  : Sys * (Thrown + Cart) :=
  let '(db, r) := sys in
  match cache_get (getUp cenv) (getAt cenv) (userCartKey userId) r with
  | Some cached => (sys, inr cached)
  | None =>
      match users db !! userId with
      | None => (sys, inl (createError "User not found" 404))
      | Some user =>
          let cart := default emptyCart (user_cart user) in
          ((db, cache_set (setUp cenv) (setAt cenv) (userCartKey userId) cart cartTTL r),
           inr cart)
      end
  end.

(** [UserService.clearCart]. *)
Definition clearCart (cenv : CacheEnv) (userId : string) (sys : Sys)
  : Sys * (Thrown + unit) :=
  let '(db, r) := sys in
  match users db !! userId with
  | None => (sys, inl PrismaError)
  | Some _ =>
      ((setCart userId emptyCart db, cache_del (delUp cenv) (userCartKey userId) r),
       inr tt)
  end.

(** [OrderController.createOrder]: the service call; the cache is not
    touched on this path. *)
Definition checkout (env : Env) (userId : string) (data : CreateOrderRequest)
    (sys : Sys) : Sys * (Thrown + OrderResult) :=
  let '(db, r) := sys in
  let '(db', res) := createOrder env userId data db in
  ((db', r), res).

(** ** Properties of the cart service *)

(** The error [updateCart] answers an item that fails its checks with. *)
Definition cartItemError (db : Db) (item : CartItem) : Thrown :=
  match products db !! ci_productId item with
  | None => AppError ("Product " +:+ ci_productId item +:+ " not found") 404
  | Some p =>
      if negb (product_inStock p)
      then AppError ("Product " +:+ ci_productId item +:+ " is out of stock") 400
      else AppError ("Price mismatch for product " +:+ ci_productId item) 400
  end.

Lemma checkItems_valid items db :
  Forall (validItem db) items → checkItems items db = (db, inr tt).
Proof.
  induction 1 as [|item rest Hv _ IH]; [done|].
  cbn [checkItems]. rewrite bind_get. unfold validItem in Hv.
  destruct (products db !! ci_productId item) as [p|]; [|done].
  destruct Hv as [-> Hp]. simpl. by rewrite bool_decide_eq_true_2.
Qed.

Lemma checkItems_first_invalid good bad rest db :
  Forall (validItem db) good → ¬ validItem db bad →
  checkItems (good ++ bad :: rest) db = (db, inl (cartItemError db bad)).
Proof.
  intros Hall Hbad. induction Hall as [|item l Hv _ IH].
  - cbn [app checkItems]. rewrite bind_get. unfold validItem in Hbad.
    unfold cartItemError.
    destruct (products db !! ci_productId bad) as [p|]; [|done].
    destruct (product_inStock p); simpl; [|done].
    rewrite bool_decide_eq_false_2; [done|]. intros E. by apply Hbad.
  - cbn [app checkItems]. rewrite bind_get. unfold validItem in Hv.
    destruct (products db !! ci_productId item) as [p|]; [|done].
    destruct Hv as [-> Hp]. simpl. by rewrite bool_decide_eq_true_2.
Qed.

(** X1.  [updateCart] stores a cart exactly when the user exists and every
    item names an existing, in-stock product at its catalog price, the
    checks [createOrder] makes at checkout.  Otherwise it throws and leaves
    the database and the cache as they were; the error is the one of the
    first item that fails (404 for a missing product, 400 otherwise), or a
    data-store error when only the user is missing. *)
Theorem updateCart_accepts_valid_carts cenv userId items db r :
  (Forall (validItem db) items ∧ is_Some (users db !! userId) →
     updateCart cenv userId items (db, r) =
       ((setCart userId (mkCart items (cartTotal items)) db,
         cache_set (setUp cenv) (setAt cenv) (userCartKey userId)
                   (mkCart items (cartTotal items)) cartTTL r),
        inr (mkCart items (cartTotal items))))
  ∧ (Forall (validItem db) items → users db !! userId = None →
     updateCart cenv userId items (db, r) = ((db, r), inl PrismaError))
  ∧ (∀ good bad rest,
       items = good ++ bad :: rest →
       Forall (validItem db) good → ¬ validItem db bad →
       updateCart cenv userId items (db, r) = ((db, r), inl (cartItemError db bad))
       ∧ match products db !! ci_productId bad with
         | None => cartItemError db bad =
                     AppError ("Product " +:+ ci_productId bad +:+ " not found") 404
         | Some _ => ∃ msg, cartItemError db bad = AppError msg 400
         end).
Proof.
  split; [|split].
  - intros [Hv [u Hu]]. unfold updateCart. by rewrite checkItems_valid, Hu.
  - intros Hv Hu. unfold updateCart. by rewrite checkItems_valid, Hu.
  - intros good bad rest -> Hg Hb. split.
    + unfold updateCart. by rewrite checkItems_first_invalid.
    + unfold cartItemError. destruct (products db !! ci_productId bad) as [p|];
        [|done]. destruct (negb (product_inStock p)); by eexists.
Qed.

Lemma updateCart_accepts_valid_carts_witness :
  updateCart (mkCacheEnv true 0 true 0 true) "u1"
             [mkCartItem "productA" 1 (num 100)] (shopDb, mkRedis ∅ ∅) =
    ((setCart "u1" (mkCart [mkCartItem "productA" 1 (num 100)]
                           (cartTotal [mkCartItem "productA" 1 (num 100)])) shopDb,
      cache_set true 0 (userCartKey "u1")
                (mkCart [mkCartItem "productA" 1 (num 100)]
                        (cartTotal [mkCartItem "productA" 1 (num 100)]))
                cartTTL (mkRedis ∅ ∅)),
     inr (mkCart [mkCartItem "productA" 1 (num 100)]
                 (cartTotal [mkCartItem "productA" 1 (num 100)]))).
Proof.
  apply (proj1 (updateCart_accepts_valid_carts (mkCacheEnv true 0 true 0 true)
                  "u1" [mkCartItem "productA" 1 (num 100)] shopDb (mkRedis ∅ ∅))).
  split; [repeat constructor | by eexists].
Defined.

Lemma validItem_catalog db db' item :
  products db' = products db → validItem db' item ↔ validItem db item.
Proof. intros H. unfold validItem. by rewrite H. Qed.

(** What a successful [updateCart] leaves in the database. *)
Lemma updateCart_success cenv userId items db r db' r' cart :
  updateCart cenv userId items (db, r) = ((db', r'), inr cart) →
  Forall (validItem db) items
  ∧ cart = mkCart items (cartTotal items)
  ∧ db' = setCart userId cart db
  ∧ r' = cache_set (setUp cenv) (setAt cenv) (userCartKey userId) cart cartTTL r
  ∧ ∃ u, users db !! userId = Some u
         ∧ users db' !! userId = Some (mkUser (user_role u) (Some cart)).
Proof.
  unfold updateCart.
  destruct (decide (Forall (validItem db) items)) as [Hv|Hv].
  - rewrite checkItems_valid by done.
    destruct (users db !! userId) as [u|] eqn:Hu; [|done].
    intros [= <- <- <-]. repeat split; try done.
    exists u. split; [done|]. simpl. by rewrite lookup_alter, decide_True, Hu.
  - apply not_Forall_Exists in Hv; [|apply _].
    destruct (first_invalid db _ Hv) as (good & bad & rest & -> & Hg & Hb).
    by rewrite checkItems_first_invalid.
Qed.

(** X2.  A non-empty cart that [updateCart] accepted is not rejected at
    checkout for its items, as long as the catalog is the same: [createOrder]
    on the store [updateCart] left returns, or throws "Coupon usage limit
    exceeded", or is stopped by a write the data store rejects; it never
    throws "Cart is empty", "not found", "out of stock" or "Price
    changed". *)
Theorem accepted_cart_passes_checkout cenv userId items db r db' r' cart
    env data db2 res :
  updateCart cenv userId items (db, r) = ((db', r'), inr cart) →
  items ≠ [] →
  createOrder env userId data db' = (db2, res) →
  (∃ out, res = inr out) ∨ res = inl limitError ∨ res = inl PrismaError.
Proof.
  intros Hup Hne Hrun.
  apply updateCart_success in Hup as (Hv & -> & -> & _ & u & _ & Hu').
  rewrite (createOrder_valid_cart _ _ _ _ _ (mkCart items (cartTotal items)) Hu')
    in Hrun; try done.
  destruct (orderLoop _ _ _ _ _ _ _) as [db3 [e|created]] eqn:Hloop.
  - injection Hrun as _ <-. right.
    apply orderLoop_failure_cases in Hloop as [[-> _]|[-> _]]; [by left|by right].
  - injection Hrun as _ <-. left. by eexists.
Qed.

Lemma accepted_cart_passes_checkout_witness :
  (∃ out, snd (createOrder calmEnv "u1" withCoupon
                 (setCart "u1" (mkCart [mkCartItem "productA" 1 (num 100)]
                    (cartTotal [mkCartItem "productA" 1 (num 100)])) shopDb))
          = inr out)
  ∨ snd (createOrder calmEnv "u1" withCoupon
           (setCart "u1" (mkCart [mkCartItem "productA" 1 (num 100)]
              (cartTotal [mkCartItem "productA" 1 (num 100)])) shopDb))
    = inl limitError
  ∨ snd (createOrder calmEnv "u1" withCoupon
           (setCart "u1" (mkCart [mkCartItem "productA" 1 (num 100)]
              (cartTotal [mkCartItem "productA" 1 (num 100)])) shopDb))
    = inl PrismaError.
Proof.
  eapply (accepted_cart_passes_checkout (mkCacheEnv true 0 true 0 true) "u1"
            [mkCartItem "productA" 1 (num 100)] shopDb (mkRedis ∅ ∅)).
  - reflexivity.
  - discriminate.
  - apply surjective_pairing.
Defined.

(** What a [createOrder] that returns has gone through. *)
Lemma createOrder_success env userId data db db' out :
  createOrder env userId data db = (db', inr out) →
  ∃ user cart db2 created,
    users db !! userId = Some user ∧ user_cart user = Some cart
    ∧ cart_items cart ≠ [] ∧ Forall (validItem db) (cart_items cart)
    ∧ orderLoop env 0 userId data (grouping (tagged db (cart_items cart)) []) [] db
        = (db2, inr created)
    ∧ db' = setCart userId emptyCart db2
    ∧ ordersOf out = created.
Proof.
  intros Hrun.
  destruct (users db !! userId) as [user|] eqn:Hu;
    [|by rewrite createOrder_stages, Hu in Hrun].
  destruct (user_cart user) as [cart|] eqn:Hc;
    [|by rewrite createOrder_stages, Hu, Hc in Hrun].
  destruct (decide (cart_items cart = [])) as [He|Hne];
    [by rewrite createOrder_stages, Hu, Hc in Hrun; simpl in Hrun; rewrite He in Hrun|].
  destruct (decide (Forall (validItem db) (cart_items cart))) as [Hv|Hv].
  - rewrite (createOrder_valid_cart _ _ _ _ _ _ Hu Hc Hne Hv) in Hrun.
    destruct (orderLoop _ _ _ _ _ _ _) as [db2 [e|created]] eqn:Hloop; [done|].
    injection Hrun as <- <-. exists user, cart, db2, created.
    by rewrite ordersOf_result.
  - apply not_Forall_Exists in Hv; [|apply _].
    destruct (first_invalid db _ Hv) as (good & bad & rest & Heq & Hg & Hb).
    rewrite createOrder_stages, Hu, Hc in Hrun. cbn [default] in Hrun.
    unfold id in Hrun.
    destruct (cart_items cart) as [|i l] eqn:Hitems; [done|].
    by rewrite Heq, groupItems_first_invalid in Hrun.
Qed.

Lemma createOrder_empties_cart env userId data db db' out :
  createOrder env userId data db = (db', inr out) →
  ∃ user, users db !! userId = Some user
          ∧ users db' !! userId = Some (mkUser (user_role user) (Some emptyCart)).
Proof.
  intros (user & cart & db2 & created & Hu & _ & _ & _ & Hloop & -> & _)%createOrder_success.
  exists user. split; [done|].
  pose proof (orderLoop_catalog env userId data
                (grouping (tagged db (cart_items cart)) []) 0%nat [] db) as (Hus & _).
  rewrite Hloop in Hus. simpl in Hus. simpl.
  by rewrite lookup_alter, decide_True, Hus, Hu.
Qed.

Lemma createOrder_on_empty_cart env userId data db role :
  users db !! userId = Some (mkUser role (Some emptyCart)) →
  createOrder env userId data db = (db, inl (AppError "Cart is empty" 400)).
Proof. intros Hu. by rewrite createOrder_stages, Hu. Qed.

(** X3.  A second [createOrder] for the same user right after one that
    returned, whatever its request and environment, throws "Cart is empty"
    (400) and writes nothing: the cart reset of lines 262-265 is what keeps
    a repeated submission from ordering twice. *)
Theorem createOrder_twice env userId data db db' out :
  createOrder env userId data db = (db', inr out) →
  ∀ env' data',
    createOrder env' userId data' db' = (db', inl (AppError "Cart is empty" 400)).
Proof.
  intros (user & _ & Hu')%createOrder_empties_cart env' data'.
  by eapply createOrder_on_empty_cart.
Qed.

Lemma createOrder_twice_witness :
  createOrder calmEnv "u1" withCoupon
              (fst (createOrder calmEnv "u1" withoutCoupon shopDb))
  = (fst (createOrder calmEnv "u1" withoutCoupon shopDb),
     inl (AppError "Cart is empty" 400)).
Proof.
  eapply (createOrder_twice calmEnv "u1" withoutCoupon shopDb).
  by vm_compute.
Defined.

(** X4.  [getCart] after an accepted [updateCart] returns the cart just
    stored when the cache write went through, or when the cache holds no
    live entry for the user at the time of the read (Redis down, no entry,
    or entry expired).  When the cache write was lost (Redis down during
    [updateCart]) and an older entry is still live, [getCart] returns that
    older entry, not the cart in the database. *)
Theorem getCart_after_updateCart c1 c2 userId items db r sys1 cart :
  updateCart c1 userId items (db, r) = (sys1, inr cart) →
  (setUp c1 = true ∨ cache_get (getUp c2) (getAt c2) (userCartKey userId) r = None →
     snd (getCart c2 userId sys1) = inr cart)
  ∧ (∀ old, setUp c1 = false →
       cache_get (getUp c2) (getAt c2) (userCartKey userId) r = Some old →
       getCart c2 userId sys1 = (sys1, inr old)).
Proof.
  destruct sys1 as [db1 r1]. intros Hup.
  apply updateCart_success in Hup as (_ & Hcart & -> & -> & u & _ & Hu').
  split.
  - intros Hc. unfold getCart.
    destruct (cache_get (getUp c2) (getAt c2) (userCartKey userId)
                (cache_set (setUp c1) (setAt c1) (userCartKey userId) cart cartTTL r))
      as [cached|] eqn:Hget.
    + simpl. f_equal. unfold cache_get in Hget.
      destruct (getUp c2) eqn:Hg2; [|done]. unfold cache_set in Hget.
      destruct (setUp c1) eqn:Hs1.
      * simpl in Hget. rewrite lookup_insert_eq in Hget.
        destruct (bool_decide _); by simplify_eq.
      * destruct Hc as [?|Hc]; [done|]. unfold cache_get in Hc. by rewrite Hc in Hget.
    + by rewrite Hu'.
  - intros old Hs1 Hold. unfold getCart, cache_set. rewrite Hs1. by rewrite Hold.
Qed.

Lemma getCart_after_updateCart_witness :
  snd (getCart (mkCacheEnv true 5 true 5 true) "u1"
         (fst (updateCart (mkCacheEnv true 0 true 0 true) "u1"
                 [mkCartItem "productA" 1 (num 100)] (shopDb, mkRedis ∅ ∅))))
  = inr (mkCart [mkCartItem "productA" 1 (num 100)]
                (cartTotal [mkCartItem "productA" 1 (num 100)])).
Proof.
  apply (proj1 (getCart_after_updateCart (mkCacheEnv true 0 true 0 true)
                  (mkCacheEnv true 5 true 5 true) "u1"
                  [mkCartItem "productA" 1 (num 100)] shopDb (mkRedis ∅ ∅) _ _
                  eq_refl)).
  by left.
Defined.

(** X5.  The cart cache is not told about a checkout.  After an accepted
    [updateCart] whose cache write went through, a [createOrder] that returns
    empties the cart in the database, yet a [getCart] that reaches Redis
    within the entry's 24 hours is answered from the cache with the cart as
    it was before the checkout, a non-empty cart whose items have just been
    ordered. *)
Theorem getCart_stale_after_checkout c1 c2 env userId items data db r sys1 cart
    sys2 out :
  updateCart c1 userId items (db, r) = (sys1, inr cart) →
  items ≠ [] →
  setUp c1 = true →
  checkout env userId data sys1 = (sys2, inr out) →
  getUp c2 = true →
  getAt c2 < setAt c1 + 86400 * 1000 →
  getCart c2 userId sys2 = (sys2, inr cart)
  ∧ cart_items cart ≠ []
  ∧ ∃ role, users (fst sys2) !! userId = Some (mkUser role (Some emptyCart)).
Proof.
  destruct sys1 as [db1 r1], sys2 as [db2 r2]. intros Hup Hne Hs1 Hco Hg2 Ht.
  apply updateCart_success in Hup as (_ & Hcart & _ & -> & _).
  unfold checkout in Hco.
  destruct (createOrder env userId data db1) as [db' res] eqn:Hrun.
  injection Hco as -> <- ->.
  apply createOrder_empties_cart in Hrun as (user & _ & Hu2).
  split; [|split].
  - unfold getCart, cache_get, cache_set. rewrite Hg2, Hs1. simpl.
    rewrite lookup_insert_eq. by rewrite bool_decide_eq_true_2.
  - by rewrite Hcart.
  - by eexists.
Qed.

Lemma getCart_stale_after_checkout_witness :
  getCart (mkCacheEnv true 5 true 5 true) "u1"
    (fst (checkout calmEnv "u1" withoutCoupon
            (fst (updateCart (mkCacheEnv true 0 true 0 true) "u1"
                    [mkCartItem "productA" 1 (num 100)] (shopDb, mkRedis ∅ ∅)))))
  = (fst (checkout calmEnv "u1" withoutCoupon
            (fst (updateCart (mkCacheEnv true 0 true 0 true) "u1"
                    [mkCartItem "productA" 1 (num 100)] (shopDb, mkRedis ∅ ∅)))),
     inr (mkCart [mkCartItem "productA" 1 (num 100)]
                (cartTotal [mkCartItem "productA" 1 (num 100)]))).
Proof.
  eapply (proj1 (getCart_stale_after_checkout (mkCacheEnv true 0 true 0 true)
            (mkCacheEnv true 5 true 5 true) calmEnv "u1"
            [mkCartItem "productA" 1 (num 100)] withoutCoupon shopDb (mkRedis ∅ ∅)
            _ _ _ _ eq_refl ltac:(discriminate) eq_refl
            ltac:(by vm_compute) eq_refl ltac:(by vm_compute))).
Defined.

(** X6.  After a [clearCart] that reached the database, [createOrder] for
    that user throws "Cart is empty" (400) and writes nothing, and [getCart]
    returns the empty cart provided the cache entry was deleted or is not
    live at the time of the read. *)
Theorem clearCart_empties c1 userId db r sys1 :
  clearCart c1 userId (db, r) = (sys1, inr tt) →
  (∀ env data,
     createOrder env userId data (fst sys1)
       = (fst sys1, inl (AppError "Cart is empty" 400)))
  ∧ (∀ c2, delUp c1 = true
           ∨ cache_get (getUp c2) (getAt c2) (userCartKey userId) r = None →
       snd (getCart c2 userId sys1) = inr emptyCart).
Proof.
  unfold clearCart. destruct (users db !! userId) as [u|] eqn:Hu; [|done].
  intros [= <-]. cbn [fst].
  assert (Hu' : users (setCart userId emptyCart db) !! userId
                = Some (mkUser (user_role u) (Some emptyCart))).
  { simpl. by rewrite lookup_alter, decide_True, Hu. }
  split.
  - intros env data. by eapply createOrder_on_empty_cart.
  - intros c2 Hc. unfold getCart.
    destruct (cache_get (getUp c2) (getAt c2) (userCartKey userId)
                (cache_del (delUp c1) (userCartKey userId) r))
      as [cached|] eqn:Hget.
    + exfalso. unfold cache_get in Hget. destruct (getUp c2); [|done].
      unfold cache_del in Hget. destruct (delUp c1).
      * simpl in Hget. by rewrite lookup_delete_eq in Hget.
      * destruct Hc as [?|Hc]; [done|]. unfold cache_get in Hc. by rewrite Hc in Hget.
    + by rewrite Hu'.
Qed.

Lemma clearCart_empties_witness :
  createOrder calmEnv "u1" withoutCoupon (fst (shopDb, mkRedis ∅ ∅)) <>
    (shopDb, inl (AppError "Cart is empty" 400))
  ∧ createOrder calmEnv "u1" withoutCoupon
      (fst (fst (clearCart (mkCacheEnv true 0 true 0 true) "u1" (shopDb, mkRedis ∅ ∅))))
    = (fst (fst (clearCart (mkCacheEnv true 0 true 0 true) "u1" (shopDb, mkRedis ∅ ∅))),
       inl (AppError "Cart is empty" 400)).
Proof.
  split; [by vm_compute|].
  apply (proj1 (clearCart_empties (mkCacheEnv true 0 true 0 true) "u1" shopDb
                  (mkRedis ∅ ∅) _ eq_refl)).
Defined.

(** ** Totals *)

(** The sum of the totals of a list of orders. *)
Definition orderTotals (os : list Order) : Qc :=
  foldr (λ o acc, order_total o + acc)%Qc 0%Qc os.

Lemma cartTotal_lineSum db items : cartTotal items = lineSum (tagged db items).
Proof.
  unfold cartTotal. rewrite num_0.
  assert (H : ∀ acc,
    fold_left (λ sum item, sum + ci_price item * num (ci_quantity item))%Qc
              items acc = (acc + lineSum (tagged db items))%Qc).
  { unfold tagged, lineSum. induction items as [|item l IH]; intros acc; cbn.
    - by rewrite Qcplus_0_r.
    - rewrite IH. ring. }
  rewrite H. by rewrite Qcplus_0_l.
Qed.

Lemma lineSum_one_store (ks : list string) (s : string) (x : Qc) :
  NoDup ks → s ∈ ks →
  foldr (λ k acc, (if decide (s = k) then x else 0) + acc)%Qc 0%Qc ks = x.
Proof.
  induction 1 as [|k ks Hk Hnd IH]; intros Hin; [by apply elem_of_nil in Hin|].
  cbn. destruct (decide (s = k)) as [->|Hne].
  - assert (H0 : foldr (λ k0 acc, (if decide (k = k0) then x else 0) + acc)%Qc
                   0%Qc ks = 0%Qc).
    { clear IH Hnd Hin. induction ks as [|k' ks IH]; [done|]. cbn.
      rewrite decide_False by (intros ->; apply Hk; left).
      rewrite IH; [ring|]. intros H. apply Hk. by right. }
    rewrite H0. ring.
  - apply elem_of_cons in Hin as [?|Hin]; [done|]. rewrite IH by done. ring.
Qed.

Lemma lineSum_partition (ks : list string) (sis : list StoreItem) :
  NoDup ks → (∀ si, si ∈ sis → si_storeId si ∈ ks) →
  foldr (λ s acc, lineSum (filter (λ si, si_storeId si = s) sis) + acc)%Qc 0%Qc ks
  = lineSum sis.
Proof.
  intros Hnd. induction sis as [|x sis IH]; intros Hcov.
  - clear Hnd Hcov. induction ks as [|k ks IH]; [done|]. cbn [foldr].
    rewrite IH, filter_nil. apply Qcplus_0_l.
  - change (lineSum (x :: sis))
      with (si_price x * num (si_quantity x) + lineSum sis)%Qc.
    rewrite <- IH by (intros si Hsi; apply Hcov; by right).
    rewrite <- (lineSum_one_store ks (si_storeId x)
                  (si_price x * num (si_quantity x))%Qc Hnd)
      by (apply Hcov; left).
    clear. induction ks as [|k ks IH]; [by rewrite Qcplus_0_l|]. cbn [foldr].
    rewrite IH. rewrite filter_cons.
    destruct (decide (si_storeId x = k)); [|ring].
    change (lineSum (x :: filter (λ si, si_storeId si = k) sis))
      with (si_price x * num (si_quantity x)
            + lineSum (filter (λ si, si_storeId si = k) sis))%Qc.
    ring.
Qed.

(** The amounts of a cart are whole: every price is a whole number that is
    not negative, no quantity is negative, and price times quantity summed
    over the cart is at most 2^53.  On such a cart every product and every
    sum of line amounts the code makes in double precision is exact, in
    whatever order the lines are added, so the rational totals of this
    development are the numbers the code computes. *)
Definition wholeAmounts (items : list CartItem) : Prop :=
  Forall (λ item, (∃ z, 0 ≤ z ∧ ci_price item = num z) ∧ 0 ≤ ci_quantity item)
         items
  ∧ (cartTotal items ≤ num (2 ^ 53))%Qc.

Lemma wholeAmounts_nonneg items :
  wholeAmounts items →
  Forall (λ item, (0 ≤ ci_price item)%Qc ∧ 0 ≤ ci_quantity item) items.
Proof.
  intros [Hall _]. eapply Forall_impl; [exact Hall|].
  intros item [(z & Hz & ->) Hq]. split; [|done].
  rewrite <- num_0. by apply num_le.
Qed.

(** X7.  When no coupon takes part in a [createOrder] that returns, and the
    amounts of the cart are whole, the totals of the created orders add up
    to the sum of price times quantity over the whole cart, which is the
    [total] that [updateCart] computes for the cart: splitting a cart by
    store loses and adds nothing.  No created order is marked
    [isCouponUsed] when the request has no coupon code. *)
Theorem order_totals_add_up env userId data db db' out user cart :
  createOrder env userId data db = (db', inr out) →
  users db !! userId = Some user →
  user_cart user = Some cart →
  wholeAmounts (cart_items cart) →
  (couponCode data = None →
     Forall (λ o, order_isCouponUsed o = false) (ordersOf out))
  ∧ (Forall (λ o, order_isCouponUsed o = false) (ordersOf out) →
     orderTotals (ordersOf out) = cartTotal (cart_items cart)).
Proof.
  intros (user' & cart' & db2 & created & Hu' & Hc' & _ & _ & Hloop & _ & ->)
    %createOrder_success Hu Hc _.
  assert (user' = user) as -> by congruence.
  assert (cart' = cart) as -> by congruence.
  apply valid_run_shape in Hloop as (_ & Hnd & Hkeys & _ & Htot).
  split.
  - intros Hno. eapply Forall_impl; [exact Htot|]. intros o Ho. unfold totalOf in Ho.
    destruct (order_isCouponUsed o); [|done].
    destruct Ho as (code & c & Hcode & _). congruence.
  - intros Hunused.
    rewrite (cartTotal_lineSum db).
    rewrite <- (lineSum_partition (order_storeId <$> created)
                  (tagged db (cart_items cart)) Hnd).
    + clear Hnd Hkeys. induction created as [|o os IH]; [done|].
      apply Forall_cons in Htot as [Ho Htot].
      apply Forall_cons in Hunused as [Hu0 Hunused].
      change (orderTotals (o :: os)) with (order_total o + orderTotals os)%Qc.
      rewrite IH by done. unfold totalOf in Ho. rewrite Hu0 in Ho.
      destruct Ho as [_ ->]. reflexivity.
    + intros si (item & -> & Hitem)%list_elem_of_fmap. apply Hkeys.
      by exists item.
Qed.

Lemma cartAB_whole : wholeAmounts (cart_items cartAB).
Proof.
  split.
  - repeat constructor; try (by eexists; split; [|reflexivity]); done.
  - by apply (bool_decide_unpack _).
Qed.

Lemma order_totals_add_up_witness :
  orderTotals (ordersOf (Many (plainOrders calmEnv))) = cartTotal (cart_items cartAB).
Proof.
  apply (proj2 (order_totals_add_up calmEnv "u1" withoutCoupon shopDb
                  (fst (createOrder calmEnv "u1" withoutCoupon shopDb))
                  (Many (plainOrders calmEnv)) buyerAB cartAB
                  ltac:(by vm_compute) eq_refl eq_refl cartAB_whole)).
  repeat constructor.
Defined.

Lemma discounted_bounds c (S : Qc) :
  (0 ≤ S)%Qc → (0 ≤ coupon_discount c)%Qc →
  (coupon_discountType c = PERCENTAGE → (coupon_discount c ≤ num 100)%Qc) →
  (0 ≤ discounted c S)%Qc ∧ (discounted c S ≤ S)%Qc.
Proof.
  intros HS Hd Hpct. unfold discounted.
  destruct (coupon_discountType c).
  - split; [apply percentage_nonneg; auto|].
    assert (Hpos : (0 < num 100)%Qc) by (rewrite <- num_0; by apply num_lt).
    assert (Hfrac : (0 ≤ coupon_discount c / num 100)%Qc).
    { apply (Qcmult_le_mono_pos_r _ _ (num 100) Hpos).
      rewrite Qcmult_0_l. unfold Qcdiv. rewrite <- Qcmult_assoc.
      rewrite (Qcmult_comm (/ num 100)), Qcmult_inv_r, Qcmult_1_r; [done|].
      intros E. rewrite E in Hpos. by apply Qclt_not_eq in Hpos. }
    apply Qcle_minus_iff.
    replace (S + - (S * (1 - coupon_discount c / num 100)))%Qc
      with (S * (coupon_discount c / num 100))%Qc by ring.
    by apply Qcmult_nonneg_nonneg.
  - rewrite num_0. unfold Math_max.
    destruct (decide (0 ≤ S - coupon_discount c)%Qc) as [H|H]; split; try done.
    apply Qcle_minus_iff.
    replace (S + - (S - coupon_discount c))%Qc with (coupon_discount c) by ring.
    done.
Qed.

Lemma lineSum_nonneg sis :
  Forall (λ si, (0 ≤ si_price si)%Qc ∧ 0 ≤ si_quantity si) sis →
  (0 ≤ lineSum sis)%Qc.
Proof. rewrite <- storeTotal_lineSum. apply storeTotal_nonneg. Qed.

(** The two orders of the scenario with SAVE10. *)
Definition couponOrders (env : Env) : list Order :=
  [newOrder (env 0%nat) "u1" withCoupon "S1"
     (discounted (save10 1000 0)
        (storeTotal (storeGroup shopDb (cart_items cartAB) "S1"))) true;
   newOrder (env 1%nat) "u1" withCoupon "S2"
     (discounted (save10 1000 0)
        (storeTotal (storeGroup shopDb (cart_items cartAB) "S2"))) true].

(** X8.  A coupon never raises what is charged and never makes it negative:
    when the amounts of the cart are whole and the coupon named by the
    request, if there is one, has a discount that is not negative and, for
    a percentage, not above 100, the totals of the orders a [createOrder]
    returns add up to at least zero and at most the sum of price times
    quantity over the cart. *)
Theorem coupon_never_raises_total env userId data db db' out user cart :
  createOrder env userId data db = (db', inr out) →
  users db !! userId = Some user →
  user_cart user = Some cart →
  wholeAmounts (cart_items cart) →
  (∀ code c, couponCode data = Some code → coupons db !! code = Some c →
     (0 ≤ coupon_discount c)%Qc
     ∧ (coupon_discountType c = PERCENTAGE → (coupon_discount c ≤ num 100)%Qc)) →
  (0 ≤ orderTotals (ordersOf out))%Qc
  ∧ (orderTotals (ordersOf out) ≤ cartTotal (cart_items cart))%Qc.
Proof.
  intros (user' & cart' & db2 & created & Hu' & Hc' & _ & _ & Hloop & _ & ->)
    %createOrder_success Hu Hc Hpos%wholeAmounts_nonneg Hcoupon.
  assert (user' = user) as -> by congruence.
  assert (cart' = cart) as -> by congruence.
  apply valid_run_shape in Hloop as (_ & Hnd & Hkeys & _ & Htot).
  assert (Hgroup : ∀ s, (0 ≤ lineSum (storeGroup db (cart_items cart) s))%Qc).
  { intros s. apply lineSum_nonneg. unfold storeGroup.
    apply Forall_forall. intros si [_ (item & -> & Hitem)%list_elem_of_fmap]%list_elem_of_filter.
    by apply (proj1 (Forall_forall _ _) Hpos). }
  assert (Heach : Forall (λ o,
            (0 ≤ order_total o)%Qc
            ∧ (order_total o ≤ lineSum (storeGroup db (cart_items cart)
                                                   (order_storeId o)))%Qc) created).
  { eapply Forall_impl; [exact Htot|]. intros o Ho. unfold totalOf in Ho.
    destruct (order_isCouponUsed o).
    - destruct Ho as (code & c & Hcode & Hlook & _ & ->).
      destruct (Hcoupon code c Hcode Hlook) as [Hd Hp].
      by apply discounted_bounds.
    - destruct Ho as [_ ->]. split; [apply Hgroup | apply Qcle_refl]. }
  rewrite (cartTotal_lineSum db).
  rewrite <- (lineSum_partition (order_storeId <$> created)
                (tagged db (cart_items cart)) Hnd).
  - clear Hnd Hkeys Htot. induction Heach as [|o os [Ho1 Ho2] _ [IH1 IH2]];
      [split; apply Qcle_refl|].
    change (orderTotals (o :: os)) with (order_total o + orderTotals os)%Qc.
    split; [by apply Qcplus_nonneg_nonneg|].
    cbn [fmap list_fmap foldr]. by apply Qcplus_le_compat.
  - intros si (item & -> & Hitem)%list_elem_of_fmap. apply Hkeys. by exists item.
Qed.

Lemma coupon_never_raises_total_witness :
  (0 ≤ orderTotals (ordersOf (Many (couponOrders calmEnv))))%Qc
  ∧ (orderTotals (ordersOf (Many (couponOrders calmEnv)))
     ≤ cartTotal (cart_items cartAB))%Qc.
Proof.
  apply (coupon_never_raises_total calmEnv "u1" withCoupon shopDb
           (fst (createOrder calmEnv "u1" withCoupon shopDb))
           (Many (couponOrders calmEnv)) buyerAB cartAB).
  - by vm_compute.
  - reflexivity.
  - reflexivity.
  - apply cartAB_whole.
  - intros code c [= <-] Hc. vm_compute in Hc. injection Hc as <-. simpl.
    split; [rewrite <- num_0|intros _]; by apply num_le.
Defined.

(** * Orders over time *)

(** The operations of the order service that write. *)
Inductive Op :=
  | CreateOrder (env : Env) (userId : string) (data : CreateOrderRequest)
  | UpdateOrderStatus (orderId : string) (status : OrderStatus) (userId : string)
  | CancelOrder (orderId userId : string)
  | RefundOrder (orderId : string).

(** The store after an operation, whatever it returned. *)
Definition runOp (op : Op) (db : Db) : Db :=
  match op with
  | CreateOrder env userId data => fst (createOrder env userId data db)
  | UpdateOrderStatus orderId status userId =>
      fst (updateOrderStatus orderId status userId db)
  | CancelOrder orderId userId => fst (cancelOrder orderId userId db)
  | RefundOrder orderId => fst (refundOrder orderId db)
  end.

(** The store after a sequence of operations run one after another. *)
Definition runOps (ops : list Op) (db : Db) : Db :=
  fold_left (λ db op, runOp op db) ops db.

(** A row later in time: every column but [status] is what it was, and the
    status was reached along edges of the transition table. *)
Definition laterRow (o o' : Order) : Prop :=
  o' = withStatus o (order_status o')
  ∧ rtc Edge (order_status o) (order_status o').

(** Every order row of [db] is still in [db'], at its place. *)
Definition keepsOrders (db db' : Db) : Prop :=
  ∀ i o, orders db !! i = Some o →
         ∃ o', orders db' !! i = Some o' ∧ laterRow o o'.

(** How far along the table a status is. *)
Definition rank (s : OrderStatus) : Z :=
  match s with
  | PENDING => 0
  | CONFIRMED => 1
  | PROCESSING => 2
  | SHIPPED => 3
  | DELIVERED => 4
  | CANCELLED => 5
  | REFUNDED => 5
  end.

Lemma withStatus_same o : withStatus o (order_status o) = o.
Proof. by destruct o. Qed.

Lemma laterRow_refl o : laterRow o o.
Proof. split; [by rewrite withStatus_same | apply rtc_refl]. Qed.

Lemma laterRow_trans o1 o2 o3 : laterRow o1 o2 → laterRow o2 o3 → laterRow o1 o3.
Proof.
  intros [H1 R1] [H2 R2]. split; [|by etrans].
  rewrite H2 at 1. rewrite H1. reflexivity.
Qed.

Lemma rowFollows_later o o' : rowFollows o o' → laterRow o o'.
Proof.
  intros [->|[He Ho]]; [apply laterRow_refl|]. split; [done|by apply rtc_once].
Qed.

Lemma keepsOrders_refl db : keepsOrders db db.
Proof. intros i o Ho. exists o. split; [done | apply laterRow_refl]. Qed.

Lemma keepsOrders_trans db1 db2 db3 :
  keepsOrders db1 db2 → keepsOrders db2 db3 → keepsOrders db1 db3.
Proof.
  intros H12 H23 i o Ho. destruct (H12 i o Ho) as (o2 & Ho2 & L12).
  destruct (H23 i o2 Ho2) as (o3 & Ho3 & L23). exists o3.
  split; [done | by eapply laterRow_trans].
Qed.

Lemma followsTable_keeps db db' : followsTable db db' → keepsOrders db db'.
Proof.
  intros (_ & _ & _ & _ & _ & Hrows) i o Ho.
  destruct (Forall2_lookup_l _ _ _ _ _ Hrows Ho) as (o' & Ho' & Hf).
  exists o'. split; [done | by apply rowFollows_later].
Qed.

Lemma respectsTable_keeps {A} (m : M A) db :
  respectsTable m → keepsOrders db (fst (m db)).
Proof.
  intros H. specialize (H db). destruct (m db) as [db' [e|a]]; simpl.
  - subst db'. apply keepsOrders_refl.
  - by apply followsTable_keeps.
Qed.

Lemma appended_keeps db db' more :
  orders db' = orders db ++ more → keepsOrders db db'.
Proof.
  intros Heq i o Ho. exists o. split; [|apply laterRow_refl].
  rewrite Heq. by apply lookup_app_l_Some.
Qed.

(** One store group appends at most its own order row. *)
Lemma processGroup_appends genv userId data s g db :
  ∃ more, orders (fst (processGroup genv userId data s g db)) = orders db ++ more.
Proof.
  rewrite processGroup_run.
  destruct (couponOutcome genv data db); rewrite ?txResult_cases;
    try destruct (rejects _ _); simpl;
    (by exists [] ; rewrite app_nil_r) || by eexists.
Qed.

Lemma orderLoop_appends env userId data groups i acc db :
  ∃ more, orders (fst (orderLoop env i userId data groups acc db))
          = orders db ++ more.
Proof.
  revert i acc db. induction groups as [|[s g] groups IH]; intros i acc db.
  - exists []. by rewrite app_nil_r.
  - rewrite orderLoop_cons.
    destruct (processGroup_appends (env i) userId data s g db) as [m1 H1].
    destruct (processGroup (env i) userId data s g db) as [db1 [e|o]]; simpl in *.
    + by exists m1.
    + destruct (IH (S i) (acc ++ [o]) db1) as [m2 H2]. exists (m1 ++ m2).
      by rewrite H2, H1, app_assoc.
Qed.

(** [createOrder] only ever appends to the orders table. *)
Lemma createOrder_appends env userId data db :
  ∃ more, orders (fst (createOrder env userId data db)) = orders db ++ more.
Proof.
  rewrite createOrder_stages.
  destruct (users db !! userId) as [user|]; [|exists []; by rewrite app_nil_r].
  destruct (cart_items _) as [|item items]; [exists []; by rewrite app_nil_r|].
  pose proof (groupItems_pure (item :: items) [] db) as Hp.
  destruct (groupItems (item :: items) [] db) as [db1 [e|groups]]; simpl in Hp;
    subst db1; [exists []; by rewrite app_nil_r|].
  destruct (orderLoop_appends env userId data groups 0 [] db) as [more Hm].
  destruct (orderLoop env 0 userId data groups [] db) as [db2 [e|created]];
    by exists more.
Qed.

Lemma runOp_keeps op db : keepsOrders db (runOp op db).
Proof.
  destruct op as [env userId data|orderId status userId|orderId userId|orderId];
    simpl.
  - destruct (createOrder_appends env userId data db) as [more Hm].
    by eapply appended_keeps.
  - apply respectsTable_keeps, updateOrderStatus_respects.
  - apply respectsTable_keeps, cancelOrder_respects.
  - apply respectsTable_keeps, refundOrder_respects.
Qed.

Lemma runOps_keeps ops db : keepsOrders db (runOps ops db).
Proof.
  revert db. induction ops as [|op ops IH]; intros db; [apply keepsOrders_refl|].
  simpl. eapply keepsOrders_trans; [apply runOp_keeps | apply IH].
Qed.

Lemma Edge_rank s t : Edge s t → rank s < rank t.
Proof. destruct 1; simpl; lia. Qed.

Lemma rtc_Edge_rank s t : rtc Edge s t → s = t ∨ rank s < rank t.
Proof.
  induction 1 as [|s u t He _ IH]; [by left|]. right.
  apply Edge_rank in He. destruct IH as [->|IH]; lia.
Qed.

Lemma rtc_Edge_cancelled s :
  rtc Edge s CANCELLED → s ∈ [PENDING; CONFIRMED; PROCESSING; CANCELLED].
Proof.
  intros H. remember CANCELLED as t eqn:Ht. induction H as [|s u t He _ IH].
  - subst. repeat constructor.
  - specialize (IH Ht). subst t.
    destruct He; (by repeat constructor)
      || (exfalso; repeat (apply elem_of_cons in IH as [?|IH]; [done|]);
          by apply elem_of_nil in IH).
Qed.

(** X9.  Whatever sequence of [createOrder], [updateOrderStatus],
    [cancelOrder] and [refundOrder] calls runs, and whatever each of them
    returns or throws, an order row once in the table is never removed or
    moved, keeps its id, order number, total, buyer, store, payment method
    and coupon columns, and its [status] has moved only along edges of the
    transition table. *)
Theorem orders_keep_history ops db i o :
  orders db !! i = Some o →
  ∃ o', orders (runOps ops db) !! i = Some o'
        ∧ order_id o' = order_id o
        ∧ order_orderNumber o' = order_orderNumber o
        ∧ order_total o' = order_total o
        ∧ order_userId o' = order_userId o
        ∧ order_storeId o' = order_storeId o
        ∧ order_paymentMethod o' = order_paymentMethod o
        ∧ order_isCouponUsed o' = order_isCouponUsed o
        ∧ order_coupon o' = order_coupon o
        ∧ rtc Edge (order_status o) (order_status o').
Proof.
  intros Ho. destruct (runOps_keeps ops db i o Ho) as (o' & Ho' & Heq & Hr).
  exists o'. split; [done|]. rewrite Heq. by simpl.
Qed.

Lemma orders_keep_history_witness :
  ∃ o', orders (runOps [CancelOrder "o1" "buyer"; RefundOrder "o1";
                        UpdateOrderStatus "o1" CONFIRMED "seller"] pendingDb)
          !! 0%nat = Some o'
        ∧ order_id o' = order_id pendingOrder
        ∧ order_orderNumber o' = order_orderNumber pendingOrder
        ∧ order_total o' = order_total pendingOrder
        ∧ order_userId o' = order_userId pendingOrder
        ∧ order_storeId o' = order_storeId pendingOrder
        ∧ order_paymentMethod o' = order_paymentMethod pendingOrder
        ∧ order_isCouponUsed o' = order_isCouponUsed pendingOrder
        ∧ order_coupon o' = order_coupon pendingOrder
        ∧ rtc Edge (order_status pendingOrder) (order_status o').
Proof.
  apply (orders_keep_history
           [CancelOrder "o1" "buyer"; RefundOrder "o1";
            UpdateOrderStatus "o1" CONFIRMED "seller"] pendingDb 0 pendingOrder).
  reflexivity.
Defined.

(** X10.  Over any such sequence of calls a status never goes back: the
    rank of an order's status (PENDING, CONFIRMED, PROCESSING, SHIPPED,
    DELIVERED in this order, then CANCELLED or REFUNDED) does not decrease;
    an order that is CANCELLED or REFUNDED stays exactly as it is; and an
    order found CANCELLED afterwards was PENDING, CONFIRMED, PROCESSING or
    already CANCELLED before, so an order that was shipped is never
    cancelled and a cancelled order is never refunded. *)
Theorem status_never_goes_back ops db i o :
  orders db !! i = Some o →
  ∃ o', orders (runOps ops db) !! i = Some o'
        ∧ rank (order_status o) ≤ rank (order_status o')
        ∧ (order_status o ∈ [CANCELLED; REFUNDED] → o' = o)
        ∧ (order_status o' = CANCELLED →
           order_status o ∈ [PENDING; CONFIRMED; PROCESSING; CANCELLED]).
Proof.
  intros Ho. destruct (runOps_keeps ops db i o Ho) as (o' & Ho' & Heq & Hr).
  exists o'. split; [done|]. split; [|split].
  - destruct (rtc_Edge_rank _ _ Hr) as [->|?]; lia.
  - intros Hterm. destruct (rtc_Edge_rank _ _ Hr) as [Hs|Hlt].
    + by rewrite Heq, <- Hs, withStatus_same.
    + exfalso. assert (rank (order_status o) = 5) as Hfive
        by (repeat (apply elem_of_cons in Hterm as [->|Hterm]; [done|]);
            by apply elem_of_nil in Hterm).
      destruct (order_status o'); simpl in Hlt; lia.
  - intros Hc. rewrite Hc in Hr. by apply rtc_Edge_cancelled.
Qed.

Lemma status_never_goes_back_witness :
  ∃ o', orders (runOps [RefundOrder "o1"; CancelOrder "o1" "buyer"] deliveredDb)
          !! 0%nat = Some o'
        ∧ rank (order_status deliveredOrder) ≤ rank (order_status o')
        ∧ (order_status deliveredOrder ∈ [CANCELLED; REFUNDED] → o' = deliveredOrder)
        ∧ (order_status o' = CANCELLED →
           order_status deliveredOrder ∈ [PENDING; CONFIRMED; PROCESSING; CANCELLED]).
Proof.
  apply (status_never_goes_back [RefundOrder "o1"; CancelOrder "o1" "buyer"]
           deliveredDb 0 deliveredOrder).
  reflexivity.
Defined.

(** ** Coupon uses over time *)

(** Every coupon of [cs] is in [cs'] with the same rule, and with a usage
    count that is the same or higher; [cs'] has no other coupon. *)
Definition usesGrow (cs cs' : gmap string Coupon) : Prop :=
  ∀ code, ∃ n, 0 ≤ n ∧ cs' !! code = bump n <$> cs !! code.

Lemma bump_bump n m c : bump n (bump m c) = bump (m + n) c.
Proof. unfold bump. simpl. f_equal. lia. Qed.

Lemma usesGrow_refl cs : usesGrow cs cs.
Proof.
  intros code. exists 0. split; [done|].
  destruct (cs !! code) as [c|]; [|done]. simpl. by rewrite bump_0.
Qed.

Lemma usesGrow_trans cs1 cs2 cs3 :
  usesGrow cs1 cs2 → usesGrow cs2 cs3 → usesGrow cs1 cs3.
Proof.
  intros H12 H23 code. destruct (H12 code) as (m & Hm & E12).
  destruct (H23 code) as (n & Hn & E23). exists (m + n). split; [lia|].
  rewrite E23, E12. destruct (cs1 !! code) as [c|]; [|done]. simpl.
  by rewrite bump_bump.
Qed.

Lemma usesGrow_increment cs code : usesGrow cs (alter incrementUsage code cs).
Proof.
  intros k. rewrite lookup_alter. destruct (decide (code = k)) as [->|Hne].
  - exists 1. split; [done|]. by destruct (cs !! k).
  - exists 0. split; [done|]. destruct (cs !! k) as [c|]; [|done]. simpl.
    by rewrite bump_0.
Qed.

Lemma processGroup_usesGrow genv userId data s g db :
  usesGrow (coupons db) (coupons (fst (processGroup genv userId data s g db))).
Proof.
  rewrite processGroup_coupons.
  destruct (couponOutcome genv data db);
    [apply usesGrow_refl | apply usesGrow_refl | apply usesGrow_increment].
Qed.

Lemma orderLoop_usesGrow env userId data groups i acc db :
  usesGrow (coupons db) (coupons (fst (orderLoop env i userId data groups acc db))).
Proof.
  revert i acc db. induction groups as [|[s g] groups IH]; intros i acc db;
    [apply usesGrow_refl|].
  rewrite orderLoop_cons.
  pose proof (processGroup_usesGrow (env i) userId data s g db) as H1.
  destruct (processGroup (env i) userId data s g db) as [db1 [e|o]]; [done|].
  eapply usesGrow_trans; [exact H1 | apply IH].
Qed.

Lemma createOrder_usesGrow env userId data db :
  usesGrow (coupons db) (coupons (fst (createOrder env userId data db))).
Proof.
  rewrite createOrder_stages.
  destruct (users db !! userId) as [user|]; [|apply usesGrow_refl].
  destruct (cart_items _) as [|item items]; [apply usesGrow_refl|].
  pose proof (groupItems_pure (item :: items) [] db) as Hp.
  destruct (groupItems (item :: items) [] db) as [db1 [e|groups]]; simpl in Hp;
    subst db1; [apply usesGrow_refl|].
  pose proof (orderLoop_usesGrow env userId data groups 0 [] db) as H.
  by destruct (orderLoop env 0 userId data groups [] db) as [db2 [e|created]].
Qed.

Lemma respectsTable_coupons {A} (m : M A) db :
  respectsTable m → coupons (fst (m db)) = coupons db.
Proof.
  intros H. specialize (H db). destruct (m db) as [db' [e|a]]; simpl.
  - by subst.
  - by destruct H as (_ & _ & _ & ? & _).
Qed.

(** The operation writes order statuses only. *)
Definition statusOp (op : Op) : Prop :=
  match op with
  | CreateOrder _ _ _ => False
  | _ => True
  end.

Lemma runOp_usesGrow op db :
  usesGrow (coupons db) (coupons (runOp op db))
  ∧ (statusOp op → coupons (runOp op db) = coupons db).
Proof.
  destruct op as [env userId data|orderId status userId|orderId userId|orderId];
    cbn [runOp statusOp].
  - split; [apply createOrder_usesGrow | done].
  - rewrite (respectsTable_coupons _ _ (updateOrderStatus_respects _ _ _)).
    split; [apply usesGrow_refl | done].
  - rewrite (respectsTable_coupons _ _ (cancelOrder_respects _ _)).
    split; [apply usesGrow_refl | done].
  - rewrite (respectsTable_coupons _ _ (refundOrder_respects _)).
    split; [apply usesGrow_refl | done].
Qed.

(** X11.  A coupon use is never given back.  Over any sequence of
    [createOrder], [updateOrderStatus], [cancelOrder] and [refundOrder]
    calls no coupon appears or disappears, a coupon keeps its discount,
    type, activity, expiry and limit, and its usage count is what it was
    plus a number that is not negative; a sequence without [createOrder]
    leaves the coupon table as it is, so cancelling or refunding an order
    that used a coupon does not lower the coupon's count. *)
Theorem coupon_uses_never_return ops db :
  (∀ code, ∃ n, 0 ≤ n
     ∧ coupons (runOps ops db) !! code = bump n <$> coupons db !! code)
  ∧ (Forall statusOp ops → coupons (runOps ops db) = coupons db).
Proof.
  revert db. induction ops as [|op ops IH]; intros db.
  { split; [apply usesGrow_refl | done]. }
  cbn [runOps fold_left]. destruct (runOp_usesGrow op db) as [H1 H2].
  destruct (IH (runOp op db)) as [IH1 IH2]. split.
  - exact (usesGrow_trans _ _ _ H1 IH1).
  - intros [Hop Hops]%Forall_cons. unfold runOps in IH2. rewrite IH2 by done.
    by apply H2.
Qed.

Lemma coupon_uses_never_return_witness :
  coupons (runOps [CancelOrder "o1" "buyer"; RefundOrder "o1"] deliveredDb)
  = coupons deliveredDb.
Proof.
  apply (proj2 (coupon_uses_never_return
                  [CancelOrder "o1" "buyer"; RefundOrder "o1"] deliveredDb)).
  by repeat constructor.
Defined.

(** ** Orders and their items *)

(** Every item row belongs to an order row, and every order row has an
    item row. *)
Definition linked (db : Db) : Prop :=
  (∀ it, it ∈ orderItems db → ∃ o, o ∈ orders db ∧ order_id o = oi_orderId it)
  ∧ (∀ o, o ∈ orders db → ∃ it, it ∈ orderItems db ∧ oi_orderId it = order_id o).

Lemma linked_committed o g db :
  g ≠ [] → linked db → linked (committed o g db).
Proof.
  intros Hg [H1 H2]. split; cbn [committed orders orderItems].
  - intros it [Hit|Hit]%elem_of_app.
    + destruct (H1 it Hit) as (o0 & Ho0 & Hid). exists o0.
      split; [|done]. apply elem_of_app. by left.
    + apply list_elem_of_fmap in Hit as (si & -> & _). exists o.
      split; [|done]. apply elem_of_app. right. by apply list_elem_of_singleton.
  - intros o0 [Ho0|Ho0]%elem_of_app.
    + destruct (H2 o0 Ho0) as (it & Hit & Hid). exists it.
      split; [|done]. apply elem_of_app. by left.
    + apply list_elem_of_singleton in Ho0 as ->.
      destruct g as [|si g]; [done|]. exists (toOrderItem (order_id o) si).
      split; [|done]. apply elem_of_app. right. cbn. left.
Qed.

Lemma linked_setCoupons f db : linked db → linked (setCoupons f db).
Proof. done. Qed.

Lemma order_id_newOrder genv userId data s total used :
  order_id (newOrder genv userId data s total used) = g_orderId genv.
Proof. done. Qed.

Lemma processGroup_linked genv userId data s g db :
  g ≠ [] → linked db → linked (fst (processGroup genv userId data s g db)).
Proof.
  intros Hg Hl. rewrite processGroup_run.
  destruct (couponOutcome genv data db); rewrite ?txResult_cases;
    try destruct (rejects _ _); cbn [fst]; try done;
    by apply linked_committed.
Qed.

Lemma orderLoop_linked env userId data groups i acc db :
  Forall (λ g, snd g ≠ []) groups → linked db →
  linked (fst (orderLoop env i userId data groups acc db)).
Proof.
  revert i acc db. induction groups as [|[s g] groups IH]; intros i acc db Hne Hl;
    [done|].
  apply Forall_cons in Hne as [Hg Hne]. rewrite orderLoop_cons.
  pose proof (processGroup_linked (env i) userId data s g db Hg Hl) as H1.
  destruct (processGroup (env i) userId data s g db) as [db1 [e|o]]; [done|].
  by apply IH.
Qed.

Lemma grouping_groups_nonempty db items :
  Forall (λ g, snd g ≠ []) (grouping (tagged db items) []).
Proof.
  destruct (grouping_spec db items) as (_ & Hkeys & Hgroups).
  apply Forall_forall. intros [s g] Hin. cbn [snd].
  rewrite (Hgroups s g Hin).
  assert (Hs : s ∈ fst <$> grouping (tagged db items) []).
  { apply list_elem_of_fmap. by exists (s, g). }
  apply Hkeys in Hs as (item & Hitem & Hown).
  intros E. assert (Hx : withStore item (ownerStore db item) ∈ storeGroup db items s).
  { unfold storeGroup. apply list_elem_of_filter. split; [done|].
    unfold tagged. apply list_elem_of_fmap. by exists item. }
  rewrite E in Hx. by apply elem_of_nil in Hx.
Qed.

Lemma linked_setCart userId c db : linked db → linked (setCart userId c db).
Proof. done. Qed.

Lemma createOrder_linked env userId data db :
  linked db → linked (fst (createOrder env userId data db)).
Proof.
  intros Hl. rewrite createOrder_stages.
  destruct (users db !! userId) as [user|]; [|done].
  destruct (cart_items _) as [|item items] eqn:Hitems; [done|].
  destruct (decide (Forall (validItem db) (item :: items))) as [Hv|Hv].
  - rewrite groupItems_valid by done.
    pose proof (orderLoop_linked env userId data
                  (grouping (tagged db (item :: items)) []) 0 [] db
                  (grouping_groups_nonempty db (item :: items)) Hl) as H.
    destruct (orderLoop _ _ _ _ _ _ _) as [db2 [e|created]]; [done|].
    by apply linked_setCart.
  - apply not_Forall_Exists in Hv; [|apply _].
    destruct (first_invalid db _ Hv) as (good & bad & rest & Heq & Hg & Hb).
    by rewrite Heq, groupItems_first_invalid.
Qed.

Lemma followsTable_linked db db' : followsTable db db' → linked db → linked db'.
Proof.
  intros (_ & _ & _ & _ & Hitems & Hrows) [H1 H2].
  assert (Hid : ∀ o o', rowFollows o o' → order_id o' = order_id o).
  { intros o o' [->|[_ ->]]; done. }
  split; rewrite Hitems.
  - intros it Hit. destruct (H1 it Hit) as (o & Ho & Hoid).
    apply list_elem_of_lookup in Ho as [i Hi].
    destruct (Forall2_lookup_l _ _ _ _ _ Hrows Hi) as (o' & Ho' & Hf).
    exists o'. split; [by eapply list_elem_of_lookup_2|].
    by rewrite (Hid o o' Hf).
  - intros o' Ho'. apply list_elem_of_lookup in Ho' as [i Hi].
    destruct (Forall2_lookup_r _ _ _ _ _ Hrows Hi) as (o & Ho & Hf).
    destruct (H2 o (list_elem_of_lookup_2 _ _ _ Ho)) as (it & Hit & Hoid).
    exists it. split; [done|]. by rewrite (Hid o o' Hf).
Qed.

Lemma respectsTable_linked {A} (m : M A) db :
  respectsTable m → linked db → linked (fst (m db)).
Proof.
  intros H Hl. specialize (H db). destruct (m db) as [db' [e|a]]; simpl.
  - by subst.
  - by eapply followsTable_linked.
Qed.

(** X12.  Orders and items stay linked.  If every item row belongs to an
    order row and every order row has an item row, this is still so after
    any sequence of [createOrder], [updateOrderStatus], [cancelOrder] and
    [refundOrder] calls, whatever they return and whichever write the data
    store rejects: the transaction around an order and its items and the
    non-empty store groups leave neither items without an order nor an
    order without items. *)
Theorem orders_and_items_stay_linked ops db :
  linked db → linked (runOps ops db).
Proof.
  revert db. induction ops as [|op ops IH]; intros db Hl; [done|].
  cbn [runOps fold_left]. apply IH.
  destruct op as [env userId data|orderId status userId|orderId userId|orderId];
    cbn [runOp].
  - by apply createOrder_linked.
  - by apply respectsTable_linked; [apply updateOrderStatus_respects|].
  - by apply respectsTable_linked; [apply cancelOrder_respects|].
  - by apply respectsTable_linked; [apply refundOrder_respects|].
Qed.

Lemma orders_and_items_stay_linked_witness :
  linked (runOps [CreateOrder breakEnv "u1" withCoupon;
                  CreateOrder calmEnv "u1" withoutCoupon] shopDb).
Proof.
  apply (orders_and_items_stay_linked
           [CreateOrder breakEnv "u1" withCoupon;
            CreateOrder calmEnv "u1" withoutCoupon] shopDb).
  split; intros x Hx; by apply elem_of_nil in Hx.
Defined.

(** * Listing orders *)

(** [Math.ceil] on rationals. *)
Definition Math_ceil (x : Qc) : Z := Qceiling x.

(** The [pagination] object of a listing. *)
Record Pagination := mkPagination {
  pg_page : Z;
  pg_limit : Z;
  pg_total : Z;
  pg_totalPages : Z;
  pg_hasNext : bool;
  pg_hasPrev : bool }.

(** What a listing returns: [{ data, pagination }].  The rows are the order
    rows; the relations included with them are not modelled. *)
Record Listing := mkListing {
  lst_data : list Order;
  lst_pagination : Pagination }.

(** The rows of a listing that returned, none for one that threw. *)
Definition dataOf (r : Db * (Thrown + Listing)) : list Order :=
  match snd r with
  | inr l => lst_data l
  | inl _ => []
  end.

Section Listings.

(** [orderBy: { createdAt: 'desc' }]: the order rows of the model carry no
    [createdAt] column, so the sort is a parameter; it rearranges the rows
    it is given. *)
Variable byCreatedAtDesc : list Order → list Order.
Hypothesis byCreatedAtDesc_perm : ∀ os, byCreatedAtDesc os ≡ₚ os.

(** [prisma.order.findMany({ where, skip, take, orderBy })], for [skip] and
    [take] that are not negative. *)
Definition findMany (cond : Order → Prop) `{!∀ o, Decision (cond o)}
    (skip limit : Z) (db : Db) : list Order :=
  take (Z.to_nat limit)
       (drop (Z.to_nat skip) (byCreatedAtDesc (filter cond (orders db)))).

(** [prisma.order.count({ where })]. *)
Definition count (cond : Order → Prop) `{!∀ o, Decision (cond o)} (db : Db) : Z :=
  Z.of_nat (length (filter cond (orders db))).

(** Lines 331-392. *)
Definition getOrdersByUser (userId : string) (page limit : Z) : M Listing :=
  db <- get;;
  let skip := (page - 1) * limit in
  let found := findMany (λ o, order_userId o = userId) skip limit db in
  let total := count (λ o, order_userId o = userId) db in
  ret (mkListing found
         (mkPagination page limit total
            (Math_ceil (num total / num limit)%Qc)
            (bool_decide (page * limit < total))
            (bool_decide (1 < page)))).

(** Lines 394-468. *)
Definition getOrdersByStore (storeId userId : string) (page limit : Z)
  : M Listing :=
  db <- get;;
  match stores db !! storeId with
  | None => throw (createError "Store not found" 404)
  | Some store =>
      if negb (bool_decide (store_userId store = userId)) then
        throw (createError "Access denied" 403)
      else
        let skip := (page - 1) * limit in
        let found := findMany (λ o, order_storeId o = storeId) skip limit db in
        let total := count (λ o, order_storeId o = storeId) db in
        ret (mkListing found
               (mkPagination page limit total
                  (Math_ceil (num total / num limit)%Qc)
                  (bool_decide (page * limit < total))
                  (bool_decide (1 < page))))
  end.

(** Lines 575-624. *)
Definition getAllOrders (page limit : Z) : M Listing :=
  db <- get;;
  let skip := (page - 1) * limit in
  let found := findMany (λ _, True) skip limit db in
  let total := count (λ _, True) db in
  ret (mkListing found
         (mkPagination page limit total
            (Math_ceil (num total / num limit)%Qc)
            (bool_decide (page * limit < total))
            (bool_decide (1 < page)))).

(** ** Pages *)

(** The listing the three functions build for the rows matching [cond]. *)
Definition pageOf (cond : Order → Prop) `{!∀ o, Decision (cond o)}
    (page limit : Z) (db : Db) : Listing :=
  mkListing (findMany cond ((page - 1) * limit) limit db)
    (mkPagination page limit (count cond db)
       (Math_ceil (num (count cond db) / num limit)%Qc)
       (bool_decide (page * limit < count cond db))
       (bool_decide (1 < page))).

(** A listing whose fields agree with each other and with the page after
    it: [totalPages] is the least number of pages of [limit] rows that hold
    [total] rows, [hasNext] says that the page is not the last one and that
    the next page has rows, [hasPrev] that it is not the first, and the page
    holds [limit] rows or what is left of the [total]. *)
Definition consistent (l : Listing) (next : list Order) : Prop :=
  let p := lst_pagination l in
  (pg_totalPages p - 1) * pg_limit p < pg_total p ≤ pg_totalPages p * pg_limit p
  ∧ (pg_hasNext p = true ↔ pg_page p < pg_totalPages p)
  ∧ (pg_hasNext p = true ↔ next ≠ [])
  ∧ (pg_hasPrev p = true ↔ 1 < pg_page p)
  ∧ Z.of_nat (length (lst_data l))
    = Z.min (pg_limit p) (Z.max 0 (pg_total p - (pg_page p - 1) * pg_limit p))
  ∧ (lst_data l ≠ [] ↔ pg_page p ≤ pg_totalPages p).

Lemma getOrdersByUser_run userId page limit db :
  getOrdersByUser userId page limit db
  = (db, inr (pageOf (λ o, order_userId o = userId) page limit db)).
Proof. reflexivity. Qed.

Lemma getAllOrders_run page limit db :
  getAllOrders page limit db = (db, inr (pageOf (λ _, True) page limit db)).
Proof. reflexivity. Qed.

Lemma getOrdersByStore_run storeId userId page limit db :
  getOrdersByStore storeId userId page limit db =
    match stores db !! storeId with
    | None => (db, inl (AppError "Store not found" 404))
    | Some store =>
        if bool_decide (store_userId store = userId)
        then (db, inr (pageOf (λ o, order_storeId o = storeId) page limit db))
        else (db, inl (AppError "Access denied" 403))
    end.
Proof.
  unfold getOrdersByStore. rewrite bind_get.
  destruct (stores db !! storeId) as [store|]; [|done].
  by destruct (bool_decide (store_userId store = userId)).
Qed.

Lemma Math_ceil_div (a b : Z) :
  0 < b → Math_ceil (num a / num b)%Qc = - ((- a) / b).
Proof.
  intros Hb. unfold Math_ceil, Qceiling. f_equal.
  rewrite Zdiv_Qdiv. apply Qfloor_comp.
  unfold num, Qcdiv, Qcmult, Qcinv. simpl.
  rewrite !Qred_correct. rewrite inject_Z_opp. field.
  intros E. apply (inject_Z_injective b 0) in E. lia.
Qed.

Lemma Math_ceil_bounds (a b : Z) :
  0 < b →
  (Math_ceil (num a / num b)%Qc - 1) * b < a ≤ Math_ceil (num a / num b)%Qc * b.
Proof.
  intros Hb. rewrite Math_ceil_div by done.
  pose proof (Z.div_mod (- a) b ltac:(lia)) as Hdm.
  pose proof (Z.mod_pos_bound (- a) b Hb) as Hm. nia.
Qed.

Lemma count_rows (cond : Order → Prop) `{!∀ o, Decision (cond o)} db :
  count cond db = Z.of_nat (length (byCreatedAtDesc (filter cond (orders db)))).
Proof. unfold count. by rewrite byCreatedAtDesc_perm. Qed.

Lemma pageOf_consistent (cond : Order → Prop) `{!∀ o, Decision (cond o)}
    page limit db :
  1 ≤ page → 1 ≤ limit →
  consistent (pageOf cond page limit db)
             (lst_data (pageOf cond (page + 1) limit db)).
Proof.
  intros Hp Hl. unfold consistent, pageOf, findMany. cbn [lst_pagination lst_data
    pg_page pg_limit pg_total pg_totalPages pg_hasNext pg_hasPrev].
  rewrite (count_rows cond).
  set (rows := byCreatedAtDesc (filter cond (orders db))).
  pose proof (Math_ceil_bounds (Z.of_nat (length rows)) limit ltac:(lia)) as Hc.
  set (pages := Math_ceil _) in *. clearbody pages.
  assert (Hlast : ∀ q, q * limit < Z.of_nat (length rows) ↔ q < pages).
  { intros q. split; intros Hlt; [nia|].
    assert (q * limit ≤ (pages - 1) * limit)
      by (apply Z.mul_le_mono_nonneg_r; lia).
    lia. }
  pose proof (Hlast page) as Hnext. pose proof (Hlast (page - 1)) as Hthis.
  assert (0 ≤ (page - 1) * limit) by nia.
  assert (0 ≤ page * limit) by nia.
  split; [done|]. split; [by rewrite bool_decide_eq_true|].
  split; [|split; [by rewrite bool_decide_eq_true|split]].
  - rewrite bool_decide_eq_true.
    replace (page + 1 - 1) with page by lia.
    rewrite <- length_zero_iff_nil, length_take, length_drop. lia.
  - rewrite length_take, length_drop. lia.
  - rewrite <- length_zero_iff_nil, length_take, length_drop. lia.
Qed.

Lemma pages_concat (rows : list Order) (limit : Z) (k : nat) :
  1 ≤ limit →
  concat ((λ page, take (Z.to_nat limit)
                        (drop (Z.to_nat ((page - 1) * limit)) rows))
            <$> seqZ 1 (Z.of_nat k))
  = take (k * Z.to_nat limit) rows.
Proof.
  intros Hl. induction k as [|k IH]; [done|].
  rewrite seqZ_S, fmap_app, concat_app, IH. cbn [fmap list_fmap concat].
  rewrite app_nil_r.
  replace (Z.to_nat ((1 + Z.of_nat k - 1) * limit)) with (k * Z.to_nat limit)%nat
    by nia.
  rewrite take_take_drop. f_equal. lia.
Qed.

Lemma pageOf_cover (cond : Order → Prop) `{!∀ o, Decision (cond o)} limit db :
  1 ≤ limit →
  concat ((λ page, lst_data (pageOf cond page limit db))
            <$> seqZ 1 (Math_ceil (num (count cond db) / num limit)%Qc))
  = byCreatedAtDesc (filter cond (orders db)).
Proof.
  intros Hl. unfold pageOf, findMany. cbn [lst_data].
  rewrite (count_rows cond).
  set (rows := byCreatedAtDesc (filter cond (orders db))).
  pose proof (Math_ceil_bounds (Z.of_nat (length rows)) limit ltac:(lia)) as Hc.
  set (pages := Math_ceil _) in *. clearbody pages.
  assert (0 ≤ pages) by nia.
  rewrite <- (Z2Nat.id pages) by done.
  rewrite (pages_concat rows limit (Z.to_nat pages) Hl).
  apply take_ge. nia.
Qed.

(** X13.  Paging through a listing loses and repeats nothing: for a limit
    of at least 1, the pages 1 to [totalPages] of [getOrdersByUser], of
    [getOrdersByStore] asked by the store's operator, and of [getAllOrders],
    put one after the other, are the orders of that user, of that store, and
    all orders, each row once, in the order of the sort. *)
Theorem pages_cover_the_rows limit db :
  1 ≤ limit →
  (∀ userId,
     concat ((λ page, dataOf (getOrdersByUser userId page limit db))
               <$> seqZ 1 (Math_ceil
                             (num (count (λ o, order_userId o = userId) db)
                              / num limit)%Qc))
     = byCreatedAtDesc (filter (λ o, order_userId o = userId) (orders db)))
  ∧ (∀ storeId store,
       stores db !! storeId = Some store →
       concat ((λ page, dataOf (getOrdersByStore storeId (store_userId store)
                                                 page limit db))
                 <$> seqZ 1 (Math_ceil
                               (num (count (λ o, order_storeId o = storeId) db)
                                / num limit)%Qc))
       = byCreatedAtDesc (filter (λ o, order_storeId o = storeId) (orders db)))
  ∧ concat ((λ page, dataOf (getAllOrders page limit db))
              <$> seqZ 1 (Math_ceil (num (count (λ _, True) db) / num limit)%Qc))
    = byCreatedAtDesc (filter (λ _, True) (orders db)).
Proof.
  intros Hl. split; [|split].
  - intros userId. rewrite <- (pageOf_cover _ limit db Hl).
    f_equal.
  - intros storeId store Hs. rewrite <- (pageOf_cover _ limit db Hl).
    f_equal. apply list_fmap_ext. intros _ page _.
    rewrite getOrdersByStore_run, Hs. by rewrite bool_decide_eq_true_2.
  - rewrite <- (pageOf_cover _ limit db Hl). f_equal.
Qed.

(** X14.  The [pagination] object agrees with the rows: for a page and a
    limit of at least 1, in each of the three listings [totalPages] is the
    least number of pages of [limit] rows that hold [total] rows, [hasNext]
    is true exactly when the page is before the last one and exactly when
    the next page has rows, [hasPrev] exactly when the page is not the
    first, the page holds [limit] rows or what is left of the total, and it
    has rows exactly when its number is at most [totalPages]. *)
Theorem pagination_matches_rows page limit db :
  1 ≤ page → 1 ≤ limit →
  (∀ userId, ∃ l,
     getOrdersByUser userId page limit db = (db, inr l)
     ∧ consistent l (dataOf (getOrdersByUser userId (page + 1) limit db)))
  ∧ (∀ storeId store,
       stores db !! storeId = Some store → ∃ l,
       getOrdersByStore storeId (store_userId store) page limit db = (db, inr l)
       ∧ consistent l (dataOf (getOrdersByStore storeId (store_userId store)
                                                (page + 1) limit db)))
  ∧ ∃ l, getAllOrders page limit db = (db, inr l)
         ∧ consistent l (dataOf (getAllOrders (page + 1) limit db)).
Proof.
  intros Hp Hl. split; [|split].
  - intros userId. eexists. split; [apply getOrdersByUser_run|].
    by apply pageOf_consistent.
  - intros storeId store Hs. eexists. rewrite !getOrdersByStore_run, Hs.
    rewrite bool_decide_eq_true_2 by done. split; [done|].
    by apply pageOf_consistent.
  - eexists. split; [apply getAllOrders_run|]. by apply pageOf_consistent.
Qed.

End Listings.

(** The shop after the checkout of the scenario without a coupon: two
    orders, one per store. *)
Definition afterCheckoutDb : Db := fst (createOrder calmEnv "u1" withoutCoupon shopDb).

Lemma pages_cover_the_rows_witness :
  concat ((λ page, dataOf (getAllOrders reverse page 1 afterCheckoutDb))
            <$> seqZ 1 (Math_ceil (num (count (λ _, True) afterCheckoutDb) / num 1)%Qc))
  = reverse (filter (λ _, True) (orders afterCheckoutDb)).
Proof.
  apply (proj2 (proj2 (pages_cover_the_rows reverse
                         (λ os, reverse_Permutation os) 1 afterCheckoutDb
                         ltac:(lia)))).
Defined.

Lemma pagination_matches_rows_witness :
  ∃ l, getAllOrders reverse 1 1 afterCheckoutDb = (afterCheckoutDb, inr l)
       ∧ consistent l (dataOf (getAllOrders reverse (1 + 1) 1 afterCheckoutDb)).
Proof.
  apply (proj2 (proj2 (pagination_matches_rows reverse
                         (λ os, reverse_Permutation os) 1 1 afterCheckoutDb
                         ltac:(lia) ltac:(lia)))).
Defined.

(** * The order routes *)

Section Params.

(** [req.params], the named segments of the matched path, is a map from
    names to strings. *)

(** zod's [cuid()] test on a string. *)
Variable isCuid : string → bool.

(** [idParamSchema.parse]: an object with a string [id] that is a cuid; a
    key the schema does not name is dropped. *)
Definition idParamSchema (params : gmap string string)
  : option (gmap string string) :=
  match params !! "id" with
  | Some id => if isCuid id then Some {[ "id" := id ]} else None
  | None => None
  end.

(** [validateParams(schema)]: [inr] stands for [next()] with [req.params]
    replaced by the parsed object. *)
Definition validateParams (schema : gmap string string → option (gmap string string))
    (params : gmap string string) : Z * string + gmap string string :=
  match schema params with
  | Some validated => inr validated
  | None => inl (400, "Parameter validation failed")
  end.

(** The rest of a route after [authenticate]: [validateParams(idParamSchema)]
    and then the middleware and the controller behind it. *)
Definition afterIdParam {A} (params : gmap string string)
    (next : gmap string string → Db → Db * Outcome A) (db : Db) : Db * Outcome A :=
  match validateParams idParamSchema params with
  | inl (code, msg) => (db, Answered code msg)
  | inr validated => next validated db
  end.

(** [GET /api/orders/user/:userId]. *)
Definition getUserOrdersRoute {A} (userId : string)
    (next : gmap string string → Db → Db * Outcome A) : Db → Db * Outcome A :=
  afterIdParam {[ "userId" := userId ]} next.

(** [GET /api/orders/store/:storeId]. *)
Definition getStoreOrdersRoute {A} (storeId : string)
    (next : gmap string string → Db → Db * Outcome A) : Db → Db * Outcome A :=
  afterIdParam {[ "storeId" := storeId ]} next.

(** The values of the [OrderStatus] enumeration. *)
Definition orderStatuses : list OrderStatus :=
  [PENDING; CONFIRMED; PROCESSING; SHIPPED; DELIVERED; CANCELLED; REFUNDED].

(** [z.nativeEnum(OrderStatus)] on a string: the status it names. *)
Definition nativeEnum (s : string) : option OrderStatus :=
  head (filter (λ t, statusName t = s) orderStatuses).

(** [updateOrderStatusSchema.parse] on the body of the request; the body
    is read for its [status] field, [None] when it has none that is a
    string. *)
Definition updateOrderStatusSchema (status : option string) : option OrderStatus :=
  match status with
  | Some s => nativeEnum s
  | None => None
  end.

(** [validateBody(schema)]: [inr] stands for [next()] with [req.body]
    replaced by the parsed object. *)
Definition validateBody {B V} (schema : B → option V) (body : B) : Z * string + V :=
  match schema body with
  | Some validated => inr validated
  | None => inl (400, "Validation failed")
  end.

(** A controller reads [req.params.id] and runs the service method; a
    missing [id] is an error of the data store. *)
Definition withId {A} (params : gmap string string) (run : string → M A)
    (db : Db) : Db * Outcome A :=
  match params !! "id" with
  | Some id => serve (run id) db
  | None => serve (throw PrismaError) db
  end.

(** [PUT /api/orders/:id/status]: authenticate, validateParams(idParamSchema),
    validateBody(updateOrderStatusSchema), controller.  [callerId] and
    [caller] are the user [authenticate] found. *)
Definition putStatus (callerId : string) (caller : User) (orderId : string)
    (status : option string) (db : Db) : Db * Outcome Order :=
  afterIdParam {[ "id" := orderId ]}
    (λ params db,
       match validateBody updateOrderStatusSchema status with
       | inl (code, msg) => (db, Answered code msg)
       | inr status => withId params (λ id, updateOrderStatus id status callerId) db
       end) db.

(** [POST /api/orders/:id/cancel]: authenticate, authorizeOrderAccess,
    validateParams(idParamSchema), controller. *)
Definition postCancel (callerId : string) (caller : User) (orderId : string)
    (db : Db) : Db * Outcome Order :=
  match authorizeOrderAccess callerId caller orderId db with
  | Some (code, msg) => (db, Answered code msg)
  | None =>
      afterIdParam {[ "id" := orderId ]}
        (λ params, withId params (λ id, cancelOrder id callerId)) db
  end.

(** [POST /api/orders/:id/refund]: authenticate, authorize('ADMIN',
    'FOUNDER'), validateParams(idParamSchema), controller. *)
Definition postRefund (callerId : string) (caller : User) (orderId : string)
    (db : Db) : Db * Outcome Order :=
  match authorize [ADMIN; FOUNDER] caller with
  | Some (code, msg) => (db, Answered code msg)
  | None =>
      afterIdParam {[ "id" := orderId ]}
        (λ params, withId params (λ id, refundOrder id)) db
  end.

(** ** The routes behind their validation *)

Lemma afterIdParam_id {A} (orderId : string)
    (next : gmap string string → Db → Db * Outcome A) (db : Db) :
  afterIdParam {[ "id" := orderId ]} next db
  = if isCuid orderId then next {[ "id" := orderId ]} db
    else (db, Answered 400 "Parameter validation failed").
Proof.
  unfold afterIdParam, validateParams, idParamSchema.
  rewrite lookup_singleton_eq. by destruct (isCuid orderId).
Qed.

Lemma withId_id {A} (orderId : string) (run : string → M A) (db : Db) :
  withId {[ "id" := orderId ]} run db = serve (run orderId) db.
Proof. unfold withId. by rewrite lookup_singleton_eq. Qed.

Lemma nativeEnum_statusName t : nativeEnum (statusName t) = Some t.
Proof. by destruct t. Qed.

Lemma nativeEnum_Some s t : nativeEnum s = Some t → s = statusName t.
Proof.
  unfold nativeEnum. intros H. apply head_Some_elem_of in H.
  by apply list_elem_of_filter in H as [? _].
Qed.

Lemma putStatus_run callerId caller orderId status db :
  putStatus callerId caller orderId status db =
    if isCuid orderId then
      match updateOrderStatusSchema status with
      | Some t => serve (updateOrderStatus orderId t callerId) db
      | None => (db, Answered 400 "Validation failed")
      end
    else (db, Answered 400 "Parameter validation failed").
Proof.
  unfold putStatus. rewrite afterIdParam_id.
  destruct (isCuid orderId); [|done]. unfold validateBody.
  destruct (updateOrderStatusSchema status); [|done].
  unfold withId. by rewrite lookup_singleton_eq.
Qed.

Lemma postCancel_run callerId caller orderId db :
  postCancel callerId caller orderId db =
    match authorizeOrderAccess callerId caller orderId db with
    | Some (code, msg) => (db, Answered code msg)
    | None =>
        if isCuid orderId then serve (cancelOrder orderId callerId) db
        else (db, Answered 400 "Parameter validation failed")
    end.
Proof.
  unfold postCancel. destruct (authorizeOrderAccess _ _ _ _) as [[code msg]|]; [done|].
  rewrite afterIdParam_id. destruct (isCuid orderId); [|done].
  unfold withId. by rewrite lookup_singleton_eq.
Qed.

Lemma postRefund_run callerId caller orderId db :
  postRefund callerId caller orderId db =
    match authorize [ADMIN; FOUNDER] caller with
    | Some (code, msg) => (db, Answered code msg)
    | None =>
        if isCuid orderId then serve (refundOrder orderId) db
        else (db, Answered 400 "Parameter validation failed")
    end.
Proof.
  unfold postRefund. destruct (authorize _ _) as [[code msg]|]; [done|].
  rewrite afterIdParam_id. destruct (isCuid orderId); [|done].
  unfold withId. by rewrite lookup_singleton_eq.
Qed.

(** C6.  On [PUT /api/orders/:id/status], for an order id that passes the
    parameter validation and a body that names a status the order can move
    to, a caller who does not operate the order's store is answered 403
    "Access denied" by the service and nothing is written, whatever the
    caller's role, an ADMIN or FOUNDER included, although the route is
    documented "Seller or Admin"; the operator of the store gets the change.
    The buyer, when not the operator, is refused every status by
    [updateOrderStatus] and obtains CANCELLED through [cancelOrder] exactly
    while the order is PENDING, CONFIRMED or PROCESSING. *)
Theorem putStatus_rejects_administrator callerId caller orderId status db o st :
  isCuid orderId = true →
  findOrder orderId (orders db) = Some o →
  stores db !! order_storeId o = Some st →
  Edge (order_status o) status →
  (store_userId st ≠ callerId →
     putStatus callerId caller orderId (Some (statusName status)) db
     = (db, Served (inl (AppError "Access denied" 403))))
  ∧ (store_userId st = callerId →
     ∃ db' ret,
       putStatus callerId caller orderId (Some (statusName status)) db
       = (db', Served (inr ret))
       ∧ statusWritten orderId status o ret db db')
  ∧ (order_userId o = callerId → store_userId st ≠ callerId →
     (∀ t, updateOrderStatus orderId t callerId db
           = (db, inl (AppError "Access denied" 403)))
     ∧ (order_status o ∈ [PENDING; CONFIRMED; PROCESSING] →
        ∃ db' ret,
          cancelOrder orderId callerId db = (db', inr ret)
          ∧ statusWritten orderId CANCELLED o ret db db')
     ∧ (order_status o ∉ [PENDING; CONFIRMED; PROCESSING] →
        cancelOrder orderId callerId db
        = (db, inl (AppError "Order cannot be cancelled at this stage" 400)))).
Proof.
  intros Hid Hf Hs He.
  assert (Hput : putStatus callerId caller orderId (Some (statusName status)) db
                 = serve (updateOrderStatus orderId status callerId) db).
  { rewrite putStatus_run, Hid. cbn [updateOrderStatusSchema].
    by rewrite nativeEnum_statusName. }
  split; [|split].
  - intros Hu. rewrite Hput. unfold serve.
    by rewrite (updateOrderStatus_not_owner _ _ _ _ o st).
  - intros Hu. rewrite Hput. unfold serve.
    rewrite updateOrderStatus_run, Hf, Hs.
    rewrite bool_decide_eq_true_2 by done.
    rewrite bool_decide_eq_true_2 by (by apply validTransitions_Edge).
    eexists _, _. split; [reflexivity|]. by apply setStatus_written.
  - intros Hb Hu. split; [|split].
    + intros t. by apply (updateOrderStatus_not_owner _ _ _ _ o st).
    + intros Hin. rewrite cancelOrder_run, Hf, Hs.
      rewrite (bool_decide_eq_true_2 _ Hb). cbn [orb].
      rewrite bool_decide_eq_true_2 by done.
      eexists _, _. split; [reflexivity|]. by apply setStatus_written.
    + intros Hout. rewrite cancelOrder_run, Hf, Hs.
      rewrite (bool_decide_eq_true_2 _ Hb). cbn [orb].
      by rewrite bool_decide_eq_false_2.
Qed.

(** X15.  On [POST /api/orders/:id/cancel] the caller's role decides
    nothing.  For an order id that passes the parameter validation, with or
    without the administrator bypass of [authorizeOrderAccess], the store
    after the request is the store [cancelOrder] leaves for that caller and
    the request returns a cancelled order exactly when [cancelOrder] does;
    an ADMIN or FOUNDER who is neither the buyer nor the operator of the
    order's store passes the middleware and is answered 403 "Access denied"
    by the service, while the buyer and the operator get the order
    cancelled when its status can move to CANCELLED: the status of that one
    order row is set and nothing else is written.  For an order id that
    fails the parameter validation
    the service is never reached: nothing is written and no order is
    returned, whoever asks. *)
Theorem postCancel_ignores_role callerId caller orderId db :
  (isCuid orderId = true →
     fst (postCancel callerId caller orderId db)
     = fst (cancelOrder orderId callerId db)
     ∧ ∀ o, snd (postCancel callerId caller orderId db) = Served (inr o)
            ↔ snd (cancelOrder orderId callerId db) = inr o)
  ∧ (isCuid orderId = false →
     fst (postCancel callerId caller orderId db) = db
     ∧ ∃ code msg, snd (postCancel callerId caller orderId db) = Answered code msg)
  ∧ (∀ o st,
       isCuid orderId = true →
       user_role caller ∈ [ADMIN; FOUNDER] →
       findOrder orderId (orders db) = Some o →
       stores db !! order_storeId o = Some st →
       order_userId o ≠ callerId → store_userId st ≠ callerId →
       postCancel callerId caller orderId db
       = (db, Served (inl (AppError "Access denied" 403))))
  ∧ (∀ o st,
       isCuid orderId = true →
       findOrder orderId (orders db) = Some o →
       stores db !! order_storeId o = Some st →
       order_userId o = callerId ∨ store_userId st = callerId →
       Edge (order_status o) CANCELLED →
       ∃ db' ret,
         postCancel callerId caller orderId db = (db', Served (inr ret))
         ∧ statusWritten orderId CANCELLED o ret db db').
Proof.
  rewrite postCancel_run. unfold authorizeOrderAccess, serve.
  split; [|split; [|split]].
  - intros ->.
    destruct (bool_decide (user_role caller = ADMIN)
              || bool_decide (user_role caller = FOUNDER)).
    { destruct (cancelOrder orderId callerId db) as [db' res]. simpl.
      split; [done|]. intros o. split; [by intros [= ->] | by intros ->]. }
    rewrite cancelOrder_run.
    destruct (findOrder orderId (orders db)) as [o|]; [|done].
    destruct (stores db !! order_storeId o) as [st|]; [|done].
    destruct (bool_decide (order_userId o = callerId)),
             (bool_decide (store_userId st = callerId)); simpl; try done;
      destruct (bool_decide (order_status o ∈ _)); simpl;
      (split; [done|]; intros o'; split; [by intros [= ->] | by intros ->]).
  - intros ->.
    destruct (bool_decide (user_role caller = ADMIN)
              || bool_decide (user_role caller = FOUNDER)).
    { split; [done|]. by eexists _, _. }
    destruct (findOrder orderId (orders db)) as [o|]; [|split; [done|by eexists _, _]].
    destruct (stores db !! order_storeId o) as [st|]; [|split; [done|by eexists _, _]].
    destruct (negb _ && negb _); split; (done || by eexists _, _).
  - intros o st Hid Hrole Hf Hs Hb Hop. rewrite Hid.
    assert (bool_decide (user_role caller = ADMIN)
            || bool_decide (user_role caller = FOUNDER) = true) as ->.
    { apply elem_of_cons in Hrole as [->|Hrole]; [done|].
      apply list_elem_of_singleton in Hrole as ->. done. }
    rewrite cancelOrder_run, Hf, Hs.
    rewrite !bool_decide_eq_false_2 by done. reflexivity.
  - intros o st Hid Hf Hs Hwho He. rewrite Hid, Hf, Hs.
    assert (Hsome : bool_decide (order_userId o = callerId)
                    || bool_decide (store_userId st = callerId) = true).
    { destruct Hwho as [H|H]; rewrite (bool_decide_eq_true_2 _ H);
        [done | apply orb_true_r]. }
    assert (Hpass : negb (bool_decide (order_userId o = callerId))
                    && negb (bool_decide (store_userId st = callerId)) = false).
    { rewrite <- negb_orb. by rewrite Hsome. }
    assert (Hrun : cancelOrder orderId callerId db
                   = (setStatus orderId CANCELLED db, inr (withStatus o CANCELLED))).
    { rewrite cancelOrder_run, Hf, Hs, Hsome.
      by rewrite bool_decide_eq_true_2 by (by apply cancellable_Edge). }
    rewrite Hpass, Hrun.
    destruct (bool_decide (user_role caller = ADMIN)
              || bool_decide (user_role caller = FOUNDER));
      eexists _, _; (split; [reflexivity|]); by apply setStatus_written.
Qed.

(** X16.  [POST /api/orders/:id/refund] refunds exactly when the caller
    is an ADMIN or a FOUNDER, the order id passes the parameter validation,
    and the order exists and is DELIVERED; whose order it is plays no part.
    A refund sets the status of that one order row to REFUNDED and writes
    nothing else.  Every caller with another role, the buyer and the
    operator of the store included, is answered 403 "Insufficient
    permissions", and an ADMIN or FOUNDER with an order id that fails the
    validation 400 "Parameter validation failed"; nothing is written. *)
Theorem postRefund_admin_only callerId caller orderId db :
  (∀ db' o',
     postRefund callerId caller orderId db = (db', Served (inr o'))
     ↔ user_role caller ∈ [ADMIN; FOUNDER]
       ∧ isCuid orderId = true
       ∧ ∃ o, findOrder orderId (orders db) = Some o
              ∧ order_status o = DELIVERED
              ∧ db' = setStatus orderId REFUNDED db
              ∧ o' = withStatus o REFUNDED)
  ∧ (∀ db' o',
       postRefund callerId caller orderId db = (db', Served (inr o')) →
       ∃ o, findOrder orderId (orders db) = Some o
            ∧ statusWritten orderId REFUNDED o o' db db')
  ∧ (user_role caller ∉ [ADMIN; FOUNDER] →
     postRefund callerId caller orderId db
     = (db, Answered 403 "Insufficient permissions"))
  ∧ (user_role caller ∈ [ADMIN; FOUNDER] → isCuid orderId = false →
     postRefund callerId caller orderId db
     = (db, Answered 400 "Parameter validation failed")).
Proof.
  assert (Hiff : ∀ db' o',
     postRefund callerId caller orderId db = (db', Served (inr o'))
     ↔ user_role caller ∈ [ADMIN; FOUNDER]
       ∧ isCuid orderId = true
       ∧ ∃ o, findOrder orderId (orders db) = Some o
              ∧ order_status o = DELIVERED
              ∧ db' = setStatus orderId REFUNDED db
              ∧ o' = withStatus o REFUNDED).
  { intros db' o'. rewrite postRefund_run. unfold authorize, serve.
    destruct (decide (user_role caller ∈ [ADMIN; FOUNDER])) as [Hin|Hout].
    - rewrite bool_decide_eq_true_2 by done.
      destruct (isCuid orderId); [|split; [done | by intros (_ & ? & _)]].
      rewrite refundOrder_run.
      destruct (findOrder orderId (orders db)) as [o|].
      + destruct (bool_decide (order_status o = DELIVERED)) eqn:Hd.
        * apply bool_decide_eq_true in Hd. split.
          -- intros [= <- <-]. split; [done|]. split; [done|]. by exists o.
          -- intros (_ & _ & o0 & [= <-] & _ & -> & ->). done.
        * apply bool_decide_eq_false in Hd. split; [done|].
          intros (_ & _ & o0 & [= <-] & Hs & _). done.
      + split; [done|]. by intros (_ & _ & o0 & ? & _).
    - rewrite bool_decide_eq_false_2 by done. split; [done|]. by intros [? _]. }
  split; [exact Hiff|]. split; [|split].
  - intros db' o' Hrun. apply Hiff in Hrun as (_ & _ & o & Hf & _ & -> & ->).
    exists o. split; [done|]. by apply setStatus_written.
  - intros Hout. rewrite postRefund_run. unfold authorize.
    by rewrite bool_decide_eq_false_2.
  - intros Hin Hid. rewrite postRefund_run. unfold authorize.
    rewrite bool_decide_eq_true_2 by done. by rewrite Hid.
Qed.

(** X17.  The two listing routes never reach their controller.  The path
    parameters of [GET /api/orders/user/:userId] and
    [GET /api/orders/store/:storeId] are named [userId] and [storeId], the
    schema they are validated against asks for [id]: every authenticated
    request is answered 400 "Parameter validation failed", whatever the
    parameter, the query and the caller, and whatever the rest of the route
    would do.  On a route whose parameter is named [id] the same validation
    lets a cuid through to the rest of the route. *)
Theorem listing_routes_answer_400 {A}
    (next : gmap string string → Db → Db * Outcome A) (value : string) (db : Db) :
  getUserOrdersRoute value next db = (db, Answered 400 "Parameter validation failed")
  ∧ getStoreOrdersRoute value next db
    = (db, Answered 400 "Parameter validation failed")
  ∧ afterIdParam {[ "id" := value ]} next db
    = if isCuid value then next {[ "id" := value ]} db
      else (db, Answered 400 "Parameter validation failed").
Proof.
  split; [reflexivity|]. split; [reflexivity|].
  unfold afterIdParam, validateParams, idParamSchema.
  rewrite lookup_singleton_eq. by destruct (isCuid value).
Qed.

End Params.

(** ** Scenarios of the routes *)

(** The shape zod 3 tests for [cuid()]: the letter c in either case followed
    by at least eight characters, none of them white space or a hyphen.  The
    routes take the test as a parameter; this one instantiates it in the
    scenarios. *)
Definition cuidShape (s : string) : bool :=
  match s with
  | String c rest =>
      (bool_decide (c = "c"%char) || bool_decide (c = "C"%char))
      && bool_decide (8 ≤ String.length rest)%nat
      && forallb (λ a, negb (bool_decide
                               (a ∈ [" "; "-"; "009"; "010"; "011"; "012"; "013"]%char)))
                 (list_ascii_of_string rest)
  | EmptyString => false
  end.

(** An order id of that shape. *)
Definition cuidId : string := "ckz3v9x2m0000o1".

(** The stores of the status scenarios with that id for the order. *)
Definition pendingCuidOrder : Order :=
  mkOrder cuidId "ORD-1-a" (num 250) PENDING "buyer" "S1" "GOPAY" false None.

Definition pendingCuidDb : Db :=
  mkDb (users pendingDb) (stores pendingDb) ∅ ∅ [pendingCuidOrder] [].

Definition deliveredCuidOrder : Order :=
  mkOrder cuidId "ORD-1-a" (num 250) DELIVERED "buyer" "S1" "GOPAY" false None.

Definition deliveredCuidDb : Db :=
  mkDb (users deliveredDb) (stores deliveredDb) ∅ ∅ [deliveredCuidOrder] [].

Lemma putStatus_rejects_administrator_witness :
  user_role rootUser = ADMIN
  ∧ putStatus cuidShape "root" rootUser cuidId (Some "CONFIRMED") pendingCuidDb
    = (pendingCuidDb, Served (inl (AppError "Access denied" 403))).
Proof.
  split; [reflexivity|].
  apply (proj1 (putStatus_rejects_administrator cuidShape "root" rootUser cuidId
                  CONFIRMED pendingCuidDb pendingCuidOrder (mkStore "seller")
                  eq_refl eq_refl eq_refl ltac:(constructor))).
  discriminate.
Defined.

Lemma postCancel_ignores_role_witness :
  postCancel cuidShape "root" rootUser cuidId pendingCuidDb
  = (pendingCuidDb, Served (inl (AppError "Access denied" 403))).
Proof.
  apply (proj1 (proj2 (proj2 (postCancel_ignores_role cuidShape "root" rootUser
                                cuidId pendingCuidDb)))
           pendingCuidOrder (mkStore "seller")).
  - reflexivity.
  - by vm_compute; left.
  - reflexivity.
  - reflexivity.
  - discriminate.
  - discriminate.
Defined.

Lemma postRefund_admin_only_witness :
  postRefund cuidShape "buyer" (mkUser USER None) cuidId deliveredCuidDb
  = (deliveredCuidDb, Answered 403 "Insufficient permissions").
Proof.
  apply (proj1 (proj2 (proj2 (postRefund_admin_only cuidShape "buyer"
                                (mkUser USER None) cuidId deliveredCuidDb)))).
  simpl. intros H. apply elem_of_cons in H as [H|H]; [discriminate|].
  by apply list_elem_of_singleton in H.
Defined.

(** * The Redis rate limiter *)

(** What the limiter reads of a request: [req.body.email], when the body
    has one that is a string, and [req.ip]. *)
Record HttpRequest := mkHttpRequest {
  req_email : option string;
  req_ip : string }.

(** What one run of the limiter depends on besides the request and the
    store: the two readings of [Date.now()], the clock of Redis when it
    serves the calls of this request, and whether each call gets through. *)
Record LimiterEnv := mkLimiterEnv {
  l_now : N;
  l_now2 : N;
  l_redisNow : Z;
  l_getUp : bool;
  l_incrUp : bool;
  l_expireUp : bool }.

(** How the limiter ends: 429 with [retryAfter], or [next()] with the
    [X-RateLimit-Remaining] header. *)
Inductive Verdict :=
  | TooMany (retryAfter : Z)
  | Next (remaining : Z).

(** The counter under [key], when Redis holds one that has not expired. *)
Definition liveCount (now : Z) (key : string) (r : Redis) : option (Z * option Z) :=
  match counters r !! key with
  | Some (n, Some expiresAt) =>
      if bool_decide (now < expiresAt) then Some (n, Some expiresAt) else None
  | Some (n, None) => Some (n, None)
  | None => None
  end.

(** [cache.get] on a counter: [null] when Redis is not reachable. *)
Definition cache_getCount (up : bool) (now : Z) (key : string) (r : Redis)
  : option Z :=
  if up then fst <$> liveCount now key r else None.

(** [cache.incr]: 0 when Redis is not reachable. *)
Definition cache_incr (up : bool) (now : Z) (key : string) (r : Redis)
  : Redis * Z :=
  if up then
    match liveCount now key r with
    | Some (n, expiresAt) =>
        (mkRedis (cartEntries r) (<[key := (n + 1, expiresAt)]> (counters r)), n + 1)
    | None =>
        (mkRedis (cartEntries r) (<[key := (1, None)]> (counters r)), 1)
    end
  else (r, 0).

(** [cache.expire]. *)
Definition cache_expire (up : bool) (now : Z) (key : string) (seconds : Z)
    (r : Redis) : Redis :=
  if up then
    match liveCount now key r with
    | Some (n, _) =>
        mkRedis (cartEntries r)
                (<[key := (n, Some (now + seconds * 1000))]> (counters r))
    | None => r
    end
  else r.

Section Limiter.

Variable windowMs : N.
Variable maxRequests : Z.
Variable keyPrefix : string.

(** [req.body?.email || req.ip]. *)
Definition identifier (req : HttpRequest) : string :=
  match req_email req with
  | Some email => if truthy email then email else req_ip req
  | None => req_ip req
  end.

(** [Math.floor(Date.now() / windowMs) * windowMs]. *)
Definition windowStart (env : LimiterEnv) : N := (l_now env / windowMs * windowMs)%N.

(** The key of the counter of a request. *)
Definition windowKey (env : LimiterEnv) (req : HttpRequest) : string :=
  (keyPrefix +:+ ":" +:+ identifier req) +:+ ":" +:+ decimal (windowStart env).

(** [createRedisRateLimiter(windowMs, maxRequests, keyPrefix)]. *)
Definition createRedisRateLimiter (env : LimiterEnv) (req : HttpRequest)
    (r : Redis) : Redis * Verdict :=
  let count :=
    default 0 (cache_getCount (l_getUp env) (l_redisNow env) (windowKey env req) r) in
  if bool_decide (maxRequests ≤ count) then
    let resetTime := Z.of_N (windowStart env) + Z.of_N windowMs in
    let retryAfter :=
      Math_ceil (num (resetTime - Z.of_N (l_now2 env)) / num 1000)%Qc in
    (r, TooMany retryAfter)
  else
    let '(r1, newCount) :=
      cache_incr (l_incrUp env) (l_redisNow env) (windowKey env req) r in
    let r2 :=
      if bool_decide (newCount = 1) then
        cache_expire (l_expireUp env) (l_redisNow env) (windowKey env req)
                     (Math_ceil (num (Z.of_N windowMs) / num 1000)%Qc) r1
      else r1 in
    (r2, Next (Z.max 0 (maxRequests - newCount))).

(** Requests served one after another: the store at the end and the
    verdicts in order. *)
Fixpoint runLimiter (reqs : list (LimiterEnv * HttpRequest)) (r : Redis)
  : Redis * list Verdict :=
  match reqs with
  | [] => (r, [])
  | (env, req) :: rest =>
      let '(r1, v) := createRedisRateLimiter env req r in
      let '(r2, vs) := runLimiter rest r1 in
      (r2, v :: vs)
  end.

(** The request went through. *)
Definition passed (v : Verdict) : bool :=
  match v with Next _ => true | TooMany _ => false end.

(** Redis answers every call of the request, and its clock reads what the
    server's clock reads. *)
Definition healthy (env : LimiterEnv) : Prop :=
  l_getUp env = true ∧ l_incrUp env = true ∧ l_expireUp env = true
  ∧ l_redisNow env = Z.of_N (l_now env).

(** How many of the requests counted under [key] went through. *)
Fixpoint passedFor (key : string) (reqs : list (LimiterEnv * HttpRequest))
    (vs : list Verdict) : Z :=
  match reqs, vs with
  | (env, req) :: reqs', v :: vs' =>
      (if bool_decide (windowKey env req = key) && passed v then 1 else 0)
      + passedFor key reqs' vs'
  | _, _ => 0
  end.

(** How many of the requests are counted under [key]. *)
Definition askedFor (key : string) (reqs : list (LimiterEnv * HttpRequest)) : Z :=
  Z.of_nat (length (filter (λ er, windowKey er.1 er.2 = key) reqs)).

(** ** Redis out of reach *)

Lemma runLimiter_cons env req rest r :
  runLimiter ((env, req) :: rest) r =
    (fst (runLimiter rest (fst (createRedisRateLimiter env req r))),
     snd (createRedisRateLimiter env req r)
       :: snd (runLimiter rest (fst (createRedisRateLimiter env req r)))).
Proof.
  change (runLimiter ((env, req) :: rest) r)
    with (let '(r1, v) := createRedisRateLimiter env req r in
          let '(r2, vs) := runLimiter rest r1 in (r2, v :: vs)).
  destruct (createRedisRateLimiter env req r) as [r1 v]. cbn [fst snd].
  by destruct (runLimiter rest r1).
Qed.

(** X18.  The limiter fails open: while Redis answers neither [get] nor
    [incr], every request goes through with the full allowance
    remaining, whatever the counters hold, and nothing is counted. *)
Theorem limiter_fails_open reqs r :
  Forall (λ er, l_getUp er.1 = false ∧ l_incrUp er.1 = false) reqs →
  1 ≤ maxRequests →
  runLimiter reqs r = (r, (λ _, Next maxRequests) <$> reqs).
Proof.
  intros Hall Hmax. induction Hall as [|[env req] rest [Hg Hi] _ IH]; [done|].
  cbn [fst] in Hg, Hi. rewrite runLimiter_cons.
  assert (Hone : createRedisRateLimiter env req r = (r, Next maxRequests)).
  { unfold createRedisRateLimiter, cache_getCount, cache_incr. rewrite Hg, Hi.
    cbn [default]. rewrite bool_decide_eq_false_2 by lia.
    rewrite bool_decide_eq_false_2 by done. f_equal. f_equal. lia. }
  rewrite Hone. cbn [fst snd]. by rewrite IH.
Qed.

(** ** Keys *)

(** A string without the separator of the counter keys. *)
Fixpoint noColon (s : string) : Prop :=
  match s with
  | EmptyString => True
  | String c s' => c ≠ ":"%char ∧ noColon s'
  end.

Lemma string_of_uint_noColon d : noColon (NilEmpty.string_of_uint d).
Proof. induction d; simpl; (split; [discriminate | assumption]) || exact I. Qed.

Lemma decimal_noColon n : noColon (decimal n).
Proof. apply string_of_uint_noColon. Qed.

Lemma noColon_app a d : noColon (a +:+ ":" +:+ d) → False.
Proof.
  induction a as [|c a IH]; rewrite ?append_empty, ?append_String; simpl.
  - by intros [? _].
  - intros [_ H]. by apply IH.
Qed.

(** Two strings, each followed by a colon and a suffix without a colon, are
    equal only part by part. *)
Lemma split_at_last_colon a b d d' :
  noColon d → noColon d' →
  a +:+ ":" +:+ d = b +:+ ":" +:+ d' → a = b ∧ d = d'.
Proof.
  revert b. induction a as [|c a IH]; intros [|c' b] Hd Hd' H;
    rewrite ?append_empty, ?append_String, ?append_empty in H.
  - by injection H as ->.
  - injection H as <- H. rewrite H in Hd. by apply noColon_app in Hd.
  - injection H as -> H. rewrite <- H in Hd'. by apply noColon_app in Hd'.
  - injection H as -> H. destruct (IH b Hd Hd' H) as [-> ->]. done.
Qed.

Lemma windowKey_inj env req env' req' :
  windowKey env req = windowKey env' req' →
  identifier req = identifier req' ∧ windowStart env = windowStart env'.
Proof.
  unfold windowKey. intros H.
  apply split_at_last_colon in H as [H1 H2]; try apply decimal_noColon.
  apply decimal_inj in H2. split; [|done].
  apply append_cancel in H1. rewrite !append_String, !append_empty in H1.
  by injection H1.
Qed.

Hypothesis windowMs_pos : (0 < windowMs)%N.

Lemma window_bounds env :
  Z.of_N (windowStart env) ≤ Z.of_N (l_now env)
  < Z.of_N (windowStart env) + Z.of_N windowMs.
Proof.
  unfold windowStart.
  pose proof (N.div_mod (l_now env) windowMs ltac:(lia)) as Hdm.
  pose proof (N.mod_lt (l_now env) windowMs ltac:(lia)) as Hm.
  rewrite (N.mul_comm windowMs) in Hdm.
  set (q := (l_now env / windowMs * windowMs)%N) in *. clearbody q.
  set (m := (l_now env mod windowMs)%N) in *. clearbody m. lia.
Qed.

Lemma window_ttl :
  Z.of_N windowMs ≤ Math_ceil (num (Z.of_N windowMs) / num 1000)%Qc * 1000.
Proof. apply (Math_ceil_bounds (Z.of_N windowMs) 1000). lia. Qed.

(** ** One request *)

(** Every counter in the store outlives the window it counts. *)
Definition covered (r : Redis) : Prop :=
  ∀ env req n expiresAt,
    counters r !! windowKey env req = Some (n, expiresAt) →
    ∃ t, expiresAt = Some t ∧ Z.of_N (windowStart env) + Z.of_N windowMs ≤ t.

(** The count a request finds under its key. *)
Definition countOf (key : string) (r : Redis) : Z :=
  default 0 (fst <$> counters r !! key).

Lemma covered_live env req r :
  healthy env → covered r →
  liveCount (l_redisNow env) (windowKey env req) r = counters r !! windowKey env req.
Proof.
  intros (_ & _ & _ & Hclock) Hcov. unfold liveCount.
  destruct (counters r !! windowKey env req) as [[n exp]|] eqn:Hk; [|done].
  destruct (Hcov env req n exp Hk) as (t & -> & Ht).
  pose proof (window_bounds env). rewrite bool_decide_eq_true_2; [done|lia].
Qed.

Lemma limiter_step env req r :
  healthy env → covered r →
  (maxRequests ≤ countOf (windowKey env req) r
   ∧ ∃ retryAfter, createRedisRateLimiter env req r = (r, TooMany retryAfter))
  ∨ (countOf (windowKey env req) r < maxRequests
     ∧ ∃ r' t,
         createRedisRateLimiter env req r
         = (r', Next (Z.max 0 (maxRequests - (countOf (windowKey env req) r + 1))))
         ∧ counters r'
           = <[windowKey env req := (countOf (windowKey env req) r + 1, Some t)]>
               (counters r)
         ∧ Z.of_N (windowStart env) + Z.of_N windowMs ≤ t
         ∧ cartEntries r' = cartEntries r).
Proof.
  intros Hh Hcov. pose proof (covered_live env req r Hh Hcov) as Hlive.
  destruct Hh as (Hg & Hi & He & Hclock).
  unfold createRedisRateLimiter, cache_getCount, cache_incr, cache_expire.
  rewrite Hg, Hi, He, Hlive. fold (countOf (windowKey env req) r).
  destruct (decide (maxRequests ≤ countOf (windowKey env req) r)) as [Hle|Hlt].
  { left. split; [done|]. rewrite bool_decide_eq_true_2 by done. by eexists. }
  right. split; [lia|]. rewrite bool_decide_eq_false_2 by done.
  pose proof (window_bounds env) as Hw. pose proof window_ttl as Httl.
  unfold countOf in *.
  destruct (counters r !! windowKey env req) as [[n exp]|] eqn:Hk;
    cbn [fmap option_fmap option_map default fst] in *.
  - destruct (Hcov env req n exp Hk) as (t & -> & Ht).
    destruct (bool_decide (n + 1 = 1)) eqn:Hone.
    + unfold liveCount. cbn [counters]. rewrite lookup_insert_eq.
      rewrite bool_decide_eq_true_2 by lia.
      eexists _, _. split; [reflexivity|]. cbn [counters cartEntries].
      rewrite insert_insert_eq. split; [reflexivity|]. split; [lia|done].
    + eexists _, t. split; [reflexivity|]. done.
  - rewrite bool_decide_eq_true_2 by done.
    unfold liveCount. cbn [counters]. rewrite lookup_insert_eq.
    eexists _, _. split; [reflexivity|]. cbn [counters cartEntries].
    rewrite insert_insert_eq. split; [reflexivity|]. split; [lia|done].
Qed.

Lemma limiter_step_covered env req r r' t n :
  covered r →
  counters r' = <[windowKey env req := (n, Some t)]> (counters r) →
  Z.of_N (windowStart env) + Z.of_N windowMs ≤ t →
  covered r'.
Proof.
  intros Hcov Hr' Ht env' req' n' exp'. rewrite Hr'.
  destruct (decide (windowKey env req = windowKey env' req')) as [Heq|Hne].
  - rewrite <- Heq, lookup_insert_eq. intros [= <- <-].
    apply windowKey_inj in Heq as [_ <-]. by exists t.
  - rewrite lookup_insert_ne by done. apply Hcov.
Qed.

Lemma askedFor_nonneg key reqs : 0 ≤ askedFor key reqs.
Proof. unfold askedFor. lia. Qed.

Lemma askedFor_cons key env req rest :
  askedFor key ((env, req) :: rest)
  = (if bool_decide (windowKey env req = key) then 1 else 0) + askedFor key rest.
Proof.
  unfold askedFor. rewrite filter_cons. cbn [fst snd].
  destruct (decide (windowKey env req = key)) as [H|H].
  - rewrite bool_decide_eq_true_2 by done. cbn [length]. lia.
  - rewrite bool_decide_eq_false_2 by done. lia.
Qed.

Lemma runLimiter_counts reqs r key :
  Forall (λ er, healthy er.1) reqs → covered r →
  passedFor key reqs (snd (runLimiter reqs r))
  = Z.max 0 (Z.min (askedFor key reqs) (maxRequests - countOf key r)).
Proof.
  revert r. induction reqs as [|[env req] rest IH]; intros r Hall Hcov.
  { cbn. unfold askedFor. cbn. lia. }
  apply Forall_cons in Hall as [Hh Hall]. cbn [fst] in Hh.
  rewrite runLimiter_cons, askedFor_cons. cbn [snd passedFor].
  pose proof (askedFor_nonneg key rest) as Hnn.
  destruct (limiter_step env req r Hh Hcov)
    as [[Hle [ra Hrun]]|[Hlt (r' & t & Hrun & Hr' & Ht & _)]];
    rewrite Hrun; cbn [fst snd passed].
  - rewrite andb_false_r, (IH r Hall Hcov).
    destruct (bool_decide (windowKey env req = key)) eqn:Hk; [|lia].
    apply bool_decide_eq_true in Hk. subst key. lia.
  - assert (Hcov' : covered r') by (by eapply limiter_step_covered).
    rewrite andb_true_r, (IH r' Hall Hcov').
    destruct (bool_decide (windowKey env req = key)) eqn:Hk.
    + apply bool_decide_eq_true in Hk. subst key.
      assert (countOf (windowKey env req) r'
              = countOf (windowKey env req) r + 1) as ->.
      { unfold countOf at 1. by rewrite Hr', lookup_insert_eq. }
      lia.
    + apply bool_decide_eq_false in Hk.
      assert (countOf key r' = countOf key r) as ->.
      { unfold countOf. by rewrite Hr', lookup_insert_ne. }
      lia.
Qed.

Lemma covered_empty r : counters r = ∅ → covered r.
Proof. intros Hr env req n exp. by rewrite Hr, lookup_empty. Qed.

(** X19.  With Redis reachable and its clock in step with the server's,
    requests served one after another from an empty counter table are
    limited per counter key: of the requests that share a key, that is
    an identifier and a window, exactly the first [maxRequests] go through,
    however they are mixed with requests under other keys.  Two requests
    share a key exactly when they have the same identifier and fall in the
    same window. *)
Theorem limiter_counts_per_key reqs r key :
  Forall (λ er, healthy er.1) reqs →
  counters r = ∅ →
  0 ≤ maxRequests →
  passedFor key reqs (snd (runLimiter reqs r))
  = Z.min (askedFor key reqs) maxRequests
  ∧ ∀ env req env' req',
      windowKey env req = windowKey env' req'
      ↔ identifier req = identifier req' ∧ windowStart env = windowStart env'.
Proof.
  intros Hall Hr Hmax. split.
  - rewrite (runLimiter_counts reqs r key Hall (covered_empty r Hr)).
    unfold countOf. rewrite Hr, lookup_empty. cbn.
    pose proof (askedFor_nonneg key reqs). lia.
  - intros env req env' req'. split; [apply windowKey_inj|].
    intros [Hi Hw]. unfold windowKey. by rewrite Hi, Hw.
Qed.

Lemma runLimiter_fresh reqs r :
  Forall (λ er, healthy er.1) reqs → covered r → 1 ≤ maxRequests →
  Forall (λ er, counters r !! windowKey er.1 er.2 = None) reqs →
  NoDup ((λ er, identifier er.2) <$> reqs) →
  snd (runLimiter reqs r) = (λ _, Next (maxRequests - 1)) <$> reqs.
Proof.
  revert r. induction reqs as [|[env req] rest IH]; intros r Hall Hcov Hmax Hnone Hnd;
    [done|].
  apply Forall_cons in Hall as [Hh Hall]. apply Forall_cons in Hnone as [H0 Hnone].
  cbn [fst snd] in Hh, H0. rewrite fmap_cons in Hnd.
  apply NoDup_cons in Hnd as [Hnin Hnd]. cbn [snd] in Hnin.
  rewrite runLimiter_cons. cbn [snd fmap list_fmap].
  destruct (limiter_step env req r Hh Hcov)
    as [[Hle _]|[Hlt (r' & t & Hrun & Hr' & Ht & _)]];
    unfold countOf in *; rewrite H0 in *; cbn in *; [lia|].
  rewrite Hrun. cbn [fst snd]. f_equal; [f_equal; lia|].
  apply IH; try done.
  - by eapply limiter_step_covered.
  - apply Forall_forall. intros [env' req'] Hin. cbn [fst snd].
    rewrite Hr', lookup_insert_ne.
    + by apply (proj1 (Forall_forall _ _) Hnone (env', req')).
    + intros Heq. apply windowKey_inj in Heq as [Hid _]. apply Hnin.
      apply list_elem_of_fmap. exists (env', req'). by split.
Qed.

(** X20.  The limiter counts under [req.body.email] when the body has a
    non-empty one, not under the caller: requests that carry pairwise
    different non-empty emails are each the first under their key and all
    go through with [maxRequests - 1] remaining, however many they are,
    from whatever address and within one window or not. *)
Theorem fresh_emails_are_not_limited reqs r :
  Forall (λ er, healthy er.1) reqs →
  counters r = ∅ →
  1 ≤ maxRequests →
  Forall (λ er, ∃ email, req_email er.2 = Some email ∧ email ≠ "") reqs →
  NoDup ((λ er, req_email er.2) <$> reqs) →
  snd (runLimiter reqs r) = (λ _, Next (maxRequests - 1)) <$> reqs.
Proof.
  intros Hall Hr Hmax Hmail Hnd.
  apply runLimiter_fresh; try done.
  - by apply covered_empty.
  - apply Forall_forall. intros er _. by rewrite Hr, lookup_empty.
  - assert (Heq : Some <$> ((λ er : LimiterEnv * HttpRequest, identifier er.2) <$> reqs)
                  = (λ er, req_email er.2) <$> reqs).
    { rewrite <- list_fmap_compose.
      apply Forall_fmap_ext_1. eapply Forall_impl; [exact Hmail|].
      intros er (email & He & Hne). cbn. unfold identifier, truthy. rewrite He.
      by rewrite bool_decide_eq_false_2. }
    rewrite <- Heq in Hnd. by apply NoDup_fmap_1 in Hnd.
Qed.

(** X21.  A request that is turned away is not counted, and its
    [retryAfter] is the number of whole seconds that covers the time from
    the second clock reading to the end of the window: at least 1 and at
    most the window length in seconds, rounded up, when that reading is
    still inside the window of the first one. *)
Theorem retryAfter_bounds env req r r' retryAfter :
  createRedisRateLimiter env req r = (r', TooMany retryAfter) →
  r' = r
  ∧ (retryAfter - 1) * 1000
    < Z.of_N (windowStart env) + Z.of_N windowMs - Z.of_N (l_now2 env)
    ≤ retryAfter * 1000
  ∧ ((l_now env ≤ l_now2 env)%N →
     Z.of_N (l_now2 env) < Z.of_N (windowStart env) + Z.of_N windowMs →
     1 ≤ retryAfter ≤ Math_ceil (num (Z.of_N windowMs) / num 1000)%Qc).
Proof.
  unfold createRedisRateLimiter.
  destruct (bool_decide (maxRequests ≤ _)).
  - intros [= <- <-]. split; [done|].
    pose proof (Math_ceil_bounds
      (Z.of_N (windowStart env) + Z.of_N windowMs - Z.of_N (l_now2 env)) 1000
      ltac:(lia)) as Hra.
    split; [done|]. intros Hmono Hin.
    pose proof (window_bounds env) as Hw. pose proof window_ttl as Httl.
    pose proof (Math_ceil_bounds (Z.of_N windowMs) 1000 ltac:(lia)) as Hc.
    lia.
  - destruct (cache_incr _ _ _ _). done.
Qed.

End Limiter.

(** [orderCreationLimiter]: five orders a minute. *)
Definition orderCreationLimiter : LimiterEnv → HttpRequest → Redis → Redis * Verdict :=
  createRedisRateLimiter (60 * 1000) 5 "order_creation".

(** Redis with nothing in it. *)
Definition emptyRedis : Redis := mkRedis ∅ ∅.

(** A request served at time [now] with Redis reachable. *)
Definition upAt (now : N) : LimiterEnv :=
  mkLimiterEnv now now (Z.of_N now) true true true.

(** A request served at time [now] with Redis unreachable. *)
Definition downAt (now : N) : LimiterEnv :=
  mkLimiterEnv now now (Z.of_N now) false false false.

(** Seven requests from one address within one minute. *)
Definition burst : list (LimiterEnv * HttpRequest) :=
  (λ i, (upAt (1000 + i), mkHttpRequest None "10.0.0.1")) <$> [0; 1; 2; 3; 4; 5; 6]%N.

(** The same seven requests, each with an email of its own in the body. *)
Definition disguised : list (LimiterEnv * HttpRequest) :=
  (λ i, (upAt (1000 + i), mkHttpRequest (Some (decimal i +:+ "@x.io")) "10.0.0.1"))
    <$> [0; 1; 2; 3; 4; 5; 6]%N.

Lemma limiter_counts_per_key_witness :
  passedFor (60 * 1000) "order_creation" "order_creation:10.0.0.1:0" burst
            (snd (runLimiter (60 * 1000) 5 "order_creation" burst emptyRedis))
  = Z.min (askedFor (60 * 1000) "order_creation" "order_creation:10.0.0.1:0" burst) 5.
Proof.
  apply (proj1 (limiter_counts_per_key (60 * 1000) 5 "order_creation"
                  ltac:(reflexivity) burst emptyRedis "order_creation:10.0.0.1:0"
                  ltac:(repeat constructor) eq_refl ltac:(lia))).
Defined.

Lemma fresh_emails_are_not_limited_witness :
  snd (runLimiter (60 * 1000) 5 "order_creation" disguised emptyRedis)
  = (λ _, Next (5 - 1)) <$> disguised.
Proof.
  apply (fresh_emails_are_not_limited (60 * 1000) 5 "order_creation"
           ltac:(reflexivity) disguised emptyRedis).
  - repeat constructor.
  - reflexivity.
  - lia.
  - repeat (constructor; [by eexists|]). constructor.
  - by apply (bool_decide_unpack _).
Defined.

Lemma limiter_fails_open_witness :
  runLimiter (60 * 1000) 5 "order_creation"
             ((λ er, (downAt 1000, er.2)) <$> burst) emptyRedis
  = (emptyRedis, (λ _, Next 5) <$> ((λ er, (downAt 1000, er.2)) <$> burst)).
Proof.
  apply (limiter_fails_open (60 * 1000) 5 "order_creation").
  - apply Forall_fmap, Forall_true. intros er. by split.
  - lia.
Defined.

(** Redis after five requests of the burst. *)
Definition fullRedis : Redis :=
  fst (runLimiter (60 * 1000) 5 "order_creation" (take 5 burst) emptyRedis).

Lemma retryAfter_bounds_witness :
  fullRedis = fullRedis
  ∧ (59 - 1) * 1000
    < Z.of_N (windowStart (60 * 1000) (upAt 1005)) + Z.of_N (60 * 1000)
      - Z.of_N (l_now2 (upAt 1005))
    ≤ 59 * 1000
  ∧ ((l_now (upAt 1005) ≤ l_now2 (upAt 1005))%N →
     Z.of_N (l_now2 (upAt 1005))
     < Z.of_N (windowStart (60 * 1000) (upAt 1005)) + Z.of_N (60 * 1000) →
     1 ≤ 59 ≤ Math_ceil (num (Z.of_N (60 * 1000)) / num 1000)%Qc).
Proof.
  apply (retryAfter_bounds (60 * 1000) 5 "order_creation" ltac:(reflexivity)
           (upAt 1005) (mkHttpRequest None "10.0.0.1") fullRedis fullRedis 59).
  by vm_compute.
Defined.

(** * Uploads *)

(** What the checks read of an uploaded file. *)
Record File := mkFile {
  file_mimetype : string;
  file_size : Z }.

Definition allowedMimeTypes : list string :=
  ["image/jpeg"; "image/png"; "image/webp"; "image/gif"].

Definition maxSize : Z := 10 * 1024 * 1024.

Definition maxFiles : Z := 10.

Definition invalidType : string :=
  "Invalid file type. Only JPEG, PNG, WebP, and GIF are allowed".

Definition tooLarge : string := "File size too large. Maximum size is 10MB".

Definition tooMany : string := "Too many files. Maximum 10 files allowed".

(** [validateImageFile]: [{ isValid, errors }]. *)
Definition validateImageFile (file : File) : bool * list string :=
  let errors := [] in
  let errors :=
    if negb (bool_decide (file_mimetype file ∈ allowedMimeTypes))
    then errors ++ [invalidType] else errors in
  let errors :=
    if bool_decide (maxSize < file_size file)
    then errors ++ [tooLarge] else errors in
  (bool_decide (length errors = 0%nat), errors).

(** The loop of [validateMultipleImages] over the files. *)
Fixpoint imageErrors (files : list File) (errors : list string) : list string :=
  match files with
  | [] => errors
  | file :: rest =>
      let validation := validateImageFile file in
      imageErrors rest (if negb (fst validation) then errors ++ snd validation
                        else errors)
  end.

(** [validateMultipleImages]: [{ isValid, errors }]. *)
Definition validateMultipleImages (files : list File) : bool * list string :=
  let errors := [] in
  let errors :=
    if bool_decide (maxFiles < Z.of_nat (length files))
    then errors ++ [tooMany] else errors in
  let errors := imageErrors files errors in
  (bool_decide (length errors = 0%nat), errors).

(** The loop of [validateFileUpload] over the files: [None] when it runs to
    its end. *)
Fixpoint checkFiles (files : list File) : option (Z * string) :=
  match files with
  | [] => None
  | file :: rest =>
      if negb (bool_decide (file_mimetype file ∈ allowedMimeTypes))
      then Some (400, invalidType)
      else if bool_decide (maxSize < file_size file)
      then Some (400, tooLarge)
      else checkFiles rest
  end.

(** [validateFileUpload]: [req.file] and [req.files] as multer leaves
    them; [None] stands for [next()]. *)
Definition validateFileUpload (file : option File) (files : option (list File))
  : option (Z * string) :=
  match file, files with
  | None, None => Some (400, "No file uploaded")
  | _, _ =>
      let files :=
        match files with
        | Some fs => fs
        | None => match file with Some f => [f] | None => [] end
        end in
      if bool_decide (maxFiles < Z.of_nat (length files))
      then Some (400, tooMany)
      else checkFiles files
  end.

Lemma imageErrors_app files errors :
  imageErrors files errors = errors ++ imageErrors files [].
Proof.
  revert errors. induction files as [|file rest IH]; intros errors;
    [by rewrite app_nil_r|].
  cbn [imageErrors]. rewrite IH, (IH (if negb _ then _ else _)).
  destruct (negb (fst (validateImageFile file))); [|done].
  by rewrite app_assoc.
Qed.

Lemma checkFiles_head files :
  checkFiles files = (λ e, (400, e)) <$> head (imageErrors files []).
Proof.
  induction files as [|file rest IH]; [done|].
  cbn [checkFiles imageErrors]. rewrite imageErrors_app. unfold validateImageFile.
  destruct (bool_decide (file_mimetype file ∈ allowedMimeTypes)),
           (bool_decide (maxSize < file_size file)); cbn; done.
Qed.

(** X22.  The upload middleware and the upload utility are the same
    check: for a request that carries files, [validateFileUpload] lets it
    through exactly when [validateMultipleImages] finds the files valid, and
    otherwise answers 400 with the first error of the utility's list. *)
Theorem upload_checks_agree file files :
  (is_Some file ∨ is_Some files) →
  let uploaded :=
    match files with
    | Some fs => fs
    | None => match file with Some f => [f] | None => [] end
    end in
  validateFileUpload file files
  = (λ e, (400, e)) <$> head (snd (validateMultipleImages uploaded))
  ∧ (validateFileUpload file files = None
     ↔ fst (validateMultipleImages uploaded) = true).
Proof.
  intros Hsome uploaded.
  assert (Hrun : validateFileUpload file files =
                 if bool_decide (maxFiles < Z.of_nat (length uploaded))
                 then Some (400, tooMany) else checkFiles uploaded).
  { unfold validateFileUpload, uploaded.
    destruct file, files; try done. destruct Hsome as [[? ?]|[? ?]]; done. }
  assert (Hfirst : validateFileUpload file files
                   = (λ e, (400, e)) <$> head (snd (validateMultipleImages uploaded))).
  { rewrite Hrun. unfold validateMultipleImages. cbn [snd].
    destruct (bool_decide (maxFiles < Z.of_nat (length uploaded))).
    - by rewrite imageErrors_app.
    - apply checkFiles_head. }
  split; [done|]. rewrite Hfirst. unfold validateMultipleImages. cbn [fst snd].
  destruct (imageErrors uploaded _) as [|e errors]; cbn; split; done.
Qed.

Lemma upload_checks_agree_witness :
  validateFileUpload None (Some [mkFile "image/png" 1; mkFile "text/html" 1])
  = (λ e, (400, e))
      <$> head (snd (validateMultipleImages
                       [mkFile "image/png" 1; mkFile "text/html" 1])).
Proof.
  apply (proj1 (upload_checks_agree None
                  (Some [mkFile "image/png" 1; mkFile "text/html" 1])
                  ltac:(right; by eexists))).
Defined.

(** * Sanitising strings *)

(** A JavaScript string as the list of its UTF-16 code units. *)

(** The code units that [trim] strips: white space and line terminators. *)
Definition isWhiteSpace (c : N) : bool :=
  bool_decide (c ∈ [9; 10; 11; 12; 13; 32; 160; 5760; 8232; 8233; 8239; 8287;
                    12288; 65279]%N)
  || bool_decide (8192 ≤ c ≤ 8202)%N.

Fixpoint trimStart (s : list N) : list N :=
  match s with
  | [] => []
  | c :: s' => if isWhiteSpace c then trimStart s' else s
  end.

(** [str.trim()]. *)
Definition trim (s : list N) : list N :=
  reverse (trimStart (reverse (trimStart s))).

(** A code unit other than [<] and [>]. *)
Definition notAngle (c : N) : Prop := c ≠ 60%N ∧ c ≠ 62%N.

(** [sanitizeString]: [str.replace(/[<>]/g, '').trim()]. *)
Definition sanitizeString (str : list N) : list N :=
  trim (filter notAngle str).

(** A string that does not start with white space. *)
Definition startsClean (s : list N) : Prop :=
  match s with
  | c :: _ => isWhiteSpace c = false
  | [] => True
  end.

Lemma trimStart_split s :
  ∃ ws, s = ws ++ trimStart s ∧ Forall (λ c, isWhiteSpace c = true) ws.
Proof.
  induction s as [|c s (ws & Hs & Hws)]; [by exists []|]. cbn [trimStart].
  destruct (isWhiteSpace c) eqn:Hc.
  - exists (c :: ws). split; [by rewrite Hs at 1 | by constructor].
  - by exists [].
Qed.

Lemma trimStart_clean s : startsClean (trimStart s).
Proof.
  induction s as [|c s IH]; [done|]. cbn [trimStart].
  by destruct (isWhiteSpace c) eqn:Hc.
Qed.

Lemma trimStart_id s : startsClean s → trimStart s = s.
Proof. destruct s as [|c s]; [done|]. cbn. by intros ->. Qed.

Lemma startsClean_prefix a b : startsClean (a ++ b) → a ≠ [] → startsClean a.
Proof. by destruct a. Qed.

Lemma trim_clean s : startsClean (trim s) ∧ startsClean (reverse (trim s)).
Proof.
  unfold trim. rewrite reverse_involutive. split; [|apply trimStart_clean].
  destruct (trimStart_split (reverse (trimStart s))) as (ws & Hs & _).
  set (b := trimStart (reverse (trimStart s))) in *.
  assert (Ha : trimStart s = reverse b ++ reverse ws).
  { by rewrite <- reverse_app, <- Hs, reverse_involutive. }
  destruct (decide (reverse b = [])) as [->|Hne]; [done|].
  apply (startsClean_prefix _ (reverse ws)); [|done].
  rewrite <- Ha. apply trimStart_clean.
Qed.

Lemma trim_id s : startsClean s → startsClean (reverse s) → trim s = s.
Proof.
  intros H1 H2. unfold trim.
  by rewrite (trimStart_id s H1), (trimStart_id _ H2), reverse_involutive.
Qed.

Lemma trim_split s :
  ∃ l r, s = l ++ trim s ++ r
         ∧ Forall (λ c, isWhiteSpace c = true) l
         ∧ Forall (λ c, isWhiteSpace c = true) r.
Proof.
  destruct (trimStart_split s) as (ws1 & Hs & Hws1).
  destruct (trimStart_split (reverse (trimStart s))) as (ws2 & Ha & Hws2).
  exists ws1, (reverse ws2). unfold trim. rewrite <- reverse_app, <- Ha.
  rewrite reverse_involutive. split; [done|]. split; [done|].
  by apply Forall_reverse.
Qed.

Lemma trim_sublist s : trim s `sublist_of` s.
Proof.
  destruct (trim_split s) as (l & r & Hs & _). rewrite Hs at 2.
  by apply sublist_inserts_l, sublist_inserts_r.
Qed.

Lemma filter_all (P : N → Prop) `{!∀ c, Decision (P c)} (l : list N) :
  Forall P l → filter P l = l.
Proof.
  induction 1 as [|c l Hc _ IH]; [done|].
  rewrite filter_cons_True by done. by rewrite IH.
Qed.

(** X23.  [sanitizeString] returns a string without [<] and [>] that
    neither starts nor ends with white space; what it returns is what is
    left of its argument after characters are taken out, nothing is added or
    reordered; and sanitising twice is sanitising once. *)
Theorem sanitizeString_clean str :
  Forall notAngle (sanitizeString str)
  ∧ startsClean (sanitizeString str)
  ∧ startsClean (reverse (sanitizeString str))
  ∧ sanitizeString str `sublist_of` str
  ∧ sanitizeString (sanitizeString str) = sanitizeString str.
Proof.
  assert (Hclean : Forall notAngle (sanitizeString str)).
  { unfold sanitizeString. apply Forall_forall. intros c Hc.
    pose proof (elem_of_sublist _ _ _ Hc (trim_sublist _)) as Hin.
    by apply list_elem_of_filter in Hin as [? _]. }
  pose proof (trim_clean (filter notAngle str)) as [H1 H2].
  split; [done|]. split; [done|]. split; [done|]. split.
  - unfold sanitizeString. etrans; [apply trim_sublist | apply sublist_filter].
  - unfold sanitizeString at 1.
    rewrite filter_all by done. by apply trim_id.
Qed.
